(** * KokoStream: audio decoding, ambient synthesizer, playback scheduler,
      draft persistence and video export

    A shallow embedding of the audio utility module ([decodeBase64],
    [decodeAudioData], [AmbientGenerator]), of the player's scheduler
    ([playScene], [advanceNext], the mute effect), of the editor's
    [updateSceneTransition] and [handleSave], of the application's
    [handleLoadDraft] and of the exporter's [startExport] and
    [playAllScenes]; then of what surrounds them: [getAudioContext], the
    player's [stopAudio], pause and transition classes, the editor's
    [moveScene], [handleDrop] and number fields, the exporter's caption
    wrapping and file name.

    Conventions.
    - Time is a virtual clock in integer milliseconds ([Z]).  The audio clock
      ([ctx.currentTime], seconds) and the timer clock are the same clock:
      [now + 1] of the source is [now + 1000] here.
    - Numbers that the source keeps as IEEE doubles are rationals ([Q]).  The
      only arithmetic done on them is a division of a 16-bit integer by 2^15
      (exact in binary32 and binary64, see [pcm_to_float_dyadic]), linear
      interpolation of gains and the progress ratio of the exporter.
    - A JavaScript exception is [None] (or an error constructor); [try/catch]
      is a match on it. *)

From Stdlib Require Import ZArith QArith Qminmax Qround List String Ascii Bool Lia
  Lqa.
From stdpp Require Import base option list.

Import ListNotations.
Local Open Scope Z_scope.

(* ===================================================================== *)
(** * Base64 payloads and 16-bit PCM                                      *)
(* ===================================================================== *)

Module Pcm.

(** ** [atob]: the platform's forgiving base64 decoder *)

Definition is_ascii_whitespace (c : ascii) : bool :=
  let n := Z.of_nat (nat_of_ascii c) in
  (n =? 9) || (n =? 10) || (n =? 12) || (n =? 13) || (n =? 32).

(** Position of a character in the base64 alphabet [A-Za-z0-9+/]. *)
Definition sextet_of_char (c : ascii) : option Z :=
  let n := Z.of_nat (nat_of_ascii c) in
  if (65 <=? n) && (n <=? 90) then Some (n - 65)
  else if (97 <=? n) && (n <=? 122) then Some (n - 97 + 26)
  else if (48 <=? n) && (n <=? 57) then Some (n - 48 + 52)
  else if n =? 43 then Some 62
  else if n =? 47 then Some 63
  else None.

Definition char_of_sextet (v : Z) : ascii :=
  let n := if v <? 26 then v + 65
           else if v <? 52 then v - 26 + 97
           else if v <? 62 then v - 52 + 48
           else if v =? 62 then 43 else 47 in
  ascii_of_nat (Z.to_nat n).

Definition is_pad (c : ascii) : bool := Z.of_nat (nat_of_ascii c) =? 61.

(** Remove at most two trailing [=] signs. *)
Definition strip_padding (data : list ascii) : list ascii :=
  match rev data with
  | p1 :: p2 :: r =>
      if is_pad p1 then (if is_pad p2 then rev r else rev (p2 :: r)) else data
  | [p1] => if is_pad p1 then [] else data
  | [] => data
  end.

(** Four sextets give three bytes; a trailing group of three gives two bytes
    and a trailing group of two gives one byte, the spare bits dropped. *)
Fixpoint bytes_of_sextets (l : list Z) : list Z :=
  match l with
  | a :: b :: c :: d :: rest =>
      let n := ((a * 64 + b) * 64 + c) * 64 + d in
      (n / 65536) :: ((n / 256) mod 256) :: (n mod 256) :: bytes_of_sextets rest
  | [a; b; c] =>
      let n := ((a * 64 + b) * 64 + c) / 4 in
      [n / 256; n mod 256]
  | [a; b] => [(a * 64 + b) / 16]
  | _ => []
  end.

(** [atob base64]: the binary string, as the list of its code units, or
    [None] where the platform throws [InvalidCharacterError]. *)
Definition atob (base64 : string) : option (list Z) :=
  let data := List.filter (fun c => negb (is_ascii_whitespace c))
                (list_ascii_of_string base64) in
  let data := if (Z.of_nat (length data) mod 4 =? 0) then strip_padding data
              else data in
  if Z.of_nat (length data) mod 4 =? 1 then None
  else sextets ← mapM sextet_of_char data; Some (bytes_of_sextets sextets).

(** ** [decodeBase64] *)

(** [bytes[i] = binaryString.charCodeAt(i)]: a store into a [Uint8Array]
    keeps the low eight bits. *)
Definition uint8_store (v : Z) : Z := v mod 256.

Definition decodeBase64 (base64 : string) : option (list Z) :=
  binaryString ← atob base64;
  Some (map uint8_store binaryString).

(** ** [decodeAudioData] *)

Record AudioBuffer := mkAudioBuffer {
  sampleRate : Z;
  numberOfChannels : nat;
  frameLength : nat;
  channelData : list (list Q)
}.

(** Two's-complement reading of a 16-bit pattern. *)
Definition int16_of_bits (u : Z) : Z := if u <? 32768 then u else u - 65536.

(** [new Int16Array(data.buffer)]: little-endian pairs; a buffer of odd byte
    length is a [RangeError]. *)
Fixpoint Int16Array (bytes : list Z) : option (list Z) :=
  match bytes with
  | [] => Some []
  | lo :: hi :: rest =>
      tl ← Int16Array rest; Some (int16_of_bits (lo + 256 * hi) :: tl)
  | [_] => None
  end.

(** [dataInt16[k] / 32768.0] *)
Definition pcm_to_float (s : Z) : Q := inject_Z s / inject_Z 32768.

(** [dataInt16[k]] for an index inside the array. *)
Definition int16_get (dataInt16 : list Z) (k : nat) : Z := nth k dataInt16 0.

Definition channel_samples (dataInt16 : list Z) (numChannels frameCount channel : nat)
  : list Q :=
  map (fun i => pcm_to_float (int16_get dataInt16 (i * numChannels + channel)))
      (seq 0 frameCount).

(** [ctx.createBuffer] throws [NotSupportedError] for no channel or no frame. *)
Definition decodeAudioData (data : list Z) (sampleRate : Z) (numChannels : nat)
  : option AudioBuffer :=
  dataInt16 ← Int16Array data;
  if (numChannels =? 0)%nat then None else
  let frameCount := (length dataInt16 / numChannels)%nat in
  if (frameCount =? 0)%nat then None else
  Some (mkAudioBuffer sampleRate numChannels frameCount
          (map (channel_samples dataInt16 numChannels frameCount)
               (seq 0 numChannels))).

(** The defaults of the source: 24000 Hz, one channel. *)
Definition decodeAudioData_default (data : list Z) : option AudioBuffer :=
  decodeAudioData data 24000 1.

(** The narration pipeline: payload, bytes, buffer. *)
Definition decodeNarration (payload : string) : option AudioBuffer :=
  raw ← decodeBase64 payload; decodeAudioData_default raw.

(** ** The encoder used to state the round trip

    These two follow the claim's words (encode known samples), not a source
    function: the payload is produced by the speech service. *)

Definition bits_of_int16 (s : Z) : Z := s mod 65536.

Definition pcm16le_encode (samples : list Z) : list Z :=
  flat_map (fun s => [bits_of_int16 s mod 256; bits_of_int16 s / 256]) samples.

Fixpoint sextets_of_bytes (l : list Z) : list Z :=
  match l with
  | x :: y :: z :: rest =>
      (x / 4) :: ((x mod 4) * 16 + y / 16) :: ((y mod 16) * 4 + z / 64)
        :: (z mod 64) :: sextets_of_bytes rest
  | [x; y] => [x / 4; (x mod 4) * 16 + y / 16; (y mod 16) * 4]
  | [x] => [x / 4; (x mod 4) * 16]
  | [] => []
  end.

Definition pad_char : ascii := ascii_of_nat 61.

Definition padding (bytes : list Z) : list ascii :=
  match (length bytes mod 3)%nat with
  | 1%nat => [pad_char; pad_char]
  | 2%nat => [pad_char]
  | _ => []
  end.

Definition btoa (bytes : list Z) : string :=
  string_of_list_ascii
    (map char_of_sextet (sextets_of_bytes bytes) ++ padding bytes).

Definition is_int16 (s : Z) : Prop := -32768 <= s <= 32767.
Definition is_byte (b : Z) : Prop := 0 <= b < 256.
Definition is_sextet (v : Z) : Prop := 0 <= v < 64.

Definition expected_buffer (samples : list Z) : AudioBuffer :=
  mkAudioBuffer 24000 1 (length samples) [map pcm_to_float samples].

End Pcm.

(* ===================================================================== *)
(** * The audio graph and the ambient synthesizer                         *)
(* ===================================================================== *)

Module Ambient.

Local Open Scope Q_scope.

(** ** Automation timeline of an [AudioParam] *)

Inductive AutoEvent :=
| SetValue (v : Q) (t : Z)
| LinearRamp (v : Q) (t : Z).

Definition ev_time (e : AutoEvent) : Z :=
  match e with SetValue _ t | LinearRamp _ t => t end.

Definition ev_value (e : AutoEvent) : Q :=
  match e with SetValue v _ | LinearRamp v _ => v end.

Record AudioParam := mkParam {
  intrinsic : Q;            (* the value given by [param.value = v] *)
  since : Z;                (* when it was given *)
  events : list AutoEvent   (* scheduled events, by time *)
}.

(** Value of the timeline at time [t], from the last event at or before
    [t] and the next one: a pending linear ramp interpolates. *)
Fixpoint eval_events (prev_v : Q) (prev_t : Z) (evs : list AutoEvent) (t : Z) : Q :=
  match evs with
  | [] => prev_v
  | e :: rest =>
      if (ev_time e <=? t)%Z then eval_events (ev_value e) (ev_time e) rest t
      else match e with
           | LinearRamp v te =>
               prev_v + (v - prev_v) * (inject_Z (t - prev_t) / inject_Z (te - prev_t))
           | SetValue _ _ => prev_v
           end
  end.

Definition value_at (p : AudioParam) (t : Z) : Q :=
  eval_events (intrinsic p) (since p) (events p) t.

(** An event goes after every event that is not later than it. *)
Fixpoint insert_event (e : AutoEvent) (evs : list AutoEvent) : list AutoEvent :=
  match evs with
  | [] => [e]
  | e' :: rest =>
      if (ev_time e' <=? ev_time e)%Z then e' :: insert_event e rest
      else e :: e' :: rest
  end.

Definition cancelScheduledValues (t : Z) (p : AudioParam) : AudioParam :=
  mkParam (intrinsic p) (since p)
          (List.filter (fun e => (ev_time e <? t)%Z) (events p)).

Definition setValueAtTime (v : Q) (t : Z) (p : AudioParam) : AudioParam :=
  mkParam (intrinsic p) (since p) (insert_event (SetValue v t) (events p)).

Definition linearRampToValueAtTime (v : Q) (t : Z) (p : AudioParam) : AudioParam :=
  mkParam (intrinsic p) (since p) (insert_event (LinearRamp v t) (events p)).

(** ** Nodes of the shared audio context *)

Inductive OscillatorType := sine | triangle | sawtooth | square.

Inductive NodeKind :=
| OscillatorNode (type : OscillatorType) (frequency : Q)
| GainNode (gain : Q)
| BiquadFilterNode (frequency : Q).

Definition is_oscillator (k : NodeKind) : bool :=
  match k with OscillatorNode _ _ => true | _ => false end.

Definition is_biquad (k : NodeKind) : bool :=
  match k with BiquadFilterNode _ => true | _ => false end.

Record AudioNode := mkNode {
  kind : NodeKind;
  startAt : option Z;  (* [start(when)] was called *)
  stopAt : option Z    (* [stop()] was called *)
}.

(** Where an output is connected. *)
Inductive Target :=
| ToNode (id : nat)
| ToFrequency (id : nat)   (* the [frequency] parameter of a filter *)
| ToDestination.

(** Calls made on nodes while tearing a graph down. *)
Inductive Call :=
| CallStop (id : nat)
| CallDisconnect (id : nat).

Inductive MusicMood := none | ethereal | suspense | scifi.

(** The audio context (clock, nodes, connections, pending timer callbacks)
    together with one [AmbientGenerator] living on it. *)
Record State := mkState {
  now : Z;                      (* [ctx.currentTime] and the timer clock, ms *)
  store : list AudioNode;       (* every node created so far; the id is the index *)
  edges : list (nat * Target);  (* connections, source first *)
  timers : list Z;              (* due times of pending teardown callbacks *)
  nodes : list nat;             (* [this.nodes] *)
  masterGain : nat;             (* [this.masterGain] *)
  gain : AudioParam;            (* [this.masterGain.gain] *)
  calls : list Call             (* teardown calls made so far, oldest first *)
}.

(** ** A state monad for the methods *)

Definition M (A : Type) : Type := State -> A * State.

#[export] Instance M_ret : MRet M := fun A a s => (a, s).
#[export] Instance M_bind : MBind M := fun A B f m s => let (a, s') := m s in f a s'.

Definition exec {A} (m : M A) (s : State) : State := snd (m s).

Definition get_now : M Z := fun s => (now s, s).

Definition create (k : NodeKind) : M nat := fun s =>
  (length (store s),
   mkState (now s) (store s ++ [mkNode k None None]) (edges s) (timers s)
           (nodes s) (masterGain s) (gain s) (calls s)).

Definition connect (src : nat) (dst : Target) : M unit := fun s =>
  (tt, mkState (now s) (store s) (edges s ++ [(src, dst)]) (timers s)
               (nodes s) (masterGain s) (gain s) (calls s)).

Definition update_node (id : nat) (f : AudioNode -> AudioNode) (st : list AudioNode)
  : list AudioNode :=
  match st !! id with
  | Some n => <[id := f n]> st
  | None => st
  end.

Definition start (id : nat) (when : Z) : M unit := fun s =>
  (tt, mkState (now s)
               (update_node id (fun n => mkNode (kind n) (Some when) (stopAt n)) (store s))
               (edges s) (timers s) (nodes s) (masterGain s) (gain s) (calls s)).

Definition push (id : nat) : M unit := fun s =>
  (tt, mkState (now s) (store s) (edges s) (timers s)
               (nodes s ++ [id]) (masterGain s) (gain s) (calls s)).

Definition with_gain (f : AudioParam -> AudioParam) : M unit := fun s =>
  (tt, mkState (now s) (store s) (edges s) (timers s)
               (nodes s) (masterGain s) (f (gain s)) (calls s)).

Definition get_master : M nat := fun s => (masterGain s, s).

Definition setTimeout_teardown (delay : Z) : M unit := fun s =>
  (tt, mkState (now s) (store s) (edges s) (timers s ++ [(now s + delay)%Z])
               (nodes s) (masterGain s) (gain s) (calls s)).

Definition when_ (b : bool) (m : M unit) : M unit := if b then m else mret tt.

Definition kind_of (id : nat) : M (option NodeKind) := fun s =>
  (kind <$> store s !! id, s).

(** [param.value]: the value last rendered, that is the value of the
    timeline at the current time. *)
Definition gain_value : M Q := fun s => (value_at (gain s) (now s), s).

(** ** [AmbientGenerator] *)

(** [new AmbientGenerator()] on a context whose clock reads [t]: the master
    gain node is created, connected to the destination and set to 0.05. *)
Definition constructor (t : Z) : State :=
  mkState t [mkNode (GainNode 1) None None] [(0%nat, ToDestination)] [] []
          0%nat (mkParam (5 # 100) t []) [].

Definition setVolume (volume : Q) : M unit :=
  t ← get_now; with_gain (setValueAtTime volume t).

Definition createOscillator (freq : Q) (type : OscillatorType) (delay : Z)
    (filter lfo : bool) : M unit :=
  osc ← create (OscillatorNode type freq);
  g ← create (GainNode (15 # 100));
  lastNode ← (if filter
              then biquad ← create (BiquadFilterNode 400);
                   connect osc (ToNode biquad);;
                   mret biquad
              else mret osc);
  (if lfo
   then lfoOsc ← create (OscillatorNode sine (1 # 2));
        lfoGain ← create (GainNode 200);
        k ← kind_of lastNode;
        when_ (from_option is_biquad false k)
          (connect lfoOsc (ToNode lfoGain);;
           connect lfoGain (ToFrequency lastNode);;
           t ← get_now;
           start lfoOsc t;;
           push lfoOsc;;
           push lfoGain)
   else mret tt);;
  connect lastNode (ToNode g);;
  m ← get_master;
  connect g (ToNode m);;
  t ← get_now;
  start osc (t + delay)%Z;;
  push osc;;
  push g;;
  when_ (negb (lastNode =? osc)%nat) (push lastNode).

(** [stop()].  The fade: cancel what is scheduled, hold the current value,
    ramp to 0 one second from now.  The teardown is a timer callback due in
    1100 ms. *)
Definition stop : M unit :=
  t ← get_now;
  v ← gain_value;
  with_gain (cancelScheduledValues t);;
  with_gain (setValueAtTime v t);;
  with_gain (linearRampToValueAtTime 0 (t + 1000)%Z);;
  setTimeout_teardown 1100.

Definition play (mood : MusicMood) : M unit :=
  stop;;
  match mood with
  | none => mret tt
  | _ =>
      t ← get_now;
      with_gain (cancelScheduledValues t);;
      with_gain (setValueAtTime 0 t);;
      with_gain (linearRampToValueAtTime (8 # 100) (t + 2000)%Z);;
      match mood with
      | ethereal =>
          createOscillator 220 sine 0 false false;;
          createOscillator (27718 # 100) sine 100 false false;;
          createOscillator (32963 # 100) sine 200 false false;;
          createOscillator (41530 # 100) triangle 100 true false
      | suspense =>
          createOscillator 55 sawtooth 0 true false;;
          createOscillator 110 triangle 0 false false;;
          createOscillator (1165 # 10) sine 100 false false
      | scifi =>
          createOscillator 110 sawtooth 0 true true;;
          createOscillator 220 square 0 true false
      | none => mret tt
      end
  end.

(** ** The teardown callback *)

Definition disconnect_edges (id : nat) (es : list (nat * Target)) : list (nat * Target) :=
  List.filter (fun e => negb (fst e =? id)%nat) es.

(** A call that may throw: the state it leaves, and whether it returned. *)
Inductive Outcome :=
| Returned (s : State)
| Thrown (s : State).

Definition log_call (c : Call) (s : State) : State :=
  mkState (now s) (store s) (edges s) (timers s) (nodes s) (masterGain s)
          (gain s) (calls s ++ [c]).

(** [node.stop()] on an oscillator: [InvalidStateError] unless [start] was
    called before; stopping twice is allowed. *)
Definition node_stop (id : nat) (s : State) : Outcome :=
  let s := log_call (CallStop id) s in
  match store s !! id with
  | Some (mkNode k (Some st) _) =>
      Returned (mkState (now s) (<[id := mkNode k (Some st) (Some (now s))]> (store s))
                        (edges s) (timers s) (nodes s) (masterGain s) (gain s)
                        (calls s))
  | _ => Thrown s
  end.

(** [node.disconnect()]: every outgoing connection goes; never throws. *)
Definition node_disconnect (id : nat) (s : State) : Outcome :=
  let s := log_call (CallDisconnect id) s in
  Returned (mkState (now s) (store s) (disconnect_edges id (edges s)) (timers s)
                    (nodes s) (masterGain s) (gain s) (calls s)).

Definition and_then (o : Outcome) (f : State -> Outcome) : Outcome :=
  match o with
  | Returned s => f s
  | Thrown s => Thrown s
  end.

(** The body of the [try]:
    [if (node instanceof OscillatorNode) node.stop(); node.disconnect();] *)
Definition teardown_body (id : nat) (s : State) : Outcome :=
  and_then
    (if from_option (fun n => is_oscillator (kind n)) false (store s !! id)
     then node_stop id s else Returned s)
    (node_disconnect id).

(** [try { ... } catch (e) {}] *)
Definition teardown_node (id : nat) (s : State) : State :=
  match teardown_body id s with
  | Returned s' => s'
  | Thrown s' => s'
  end.

Definition teardown (s : State) : State :=
  let s' := fold_left (fun acc id => teardown_node id acc) (nodes s) s in
  mkState (now s') (store s') (edges s') (timers s') [] (masterGain s')
          (gain s') (calls s').

(** ** The event loop *)

Definition at_time (t : Z) (s : State) : State :=
  mkState t (store s) (edges s) (timers s) (nodes s) (masterGain s) (gain s)
          (calls s).

Definition with_timers (ts : list Z) (s : State) : State :=
  mkState (now s) (store s) (edges s) ts (nodes s) (masterGain s) (gain s)
          (calls s).

(** Let the clock reach [t]: the callbacks due by then run in the order they
    were set (all have the same delay), each at its due time. *)
Definition advance_to (t : Z) (s : State) : State :=
  let due := List.filter (fun d => (d <=? t)%Z) (timers s) in
  let pending := List.filter (fun d => negb (d <=? t)%Z) (timers s) in
  let s' := fold_left (fun acc d => teardown (at_time d acc)) due
                      (with_timers pending s) in
  at_time (Z.max t (now s')) s'.

(** ** Use of a generator over time *)

Inductive Op :=
| OpPlay (mood : MusicMood)
| OpStop
| OpSetVolume (volume : Q)
| OpWait (ms : nat).            (* the clock moves on *)

Definition apply_op (o : Op) (s : State) : State :=
  match o with
  | OpPlay mood => exec (play mood) s
  | OpStop => exec stop s
  | OpSetVolume v => exec (setVolume v) s
  | OpWait ms => advance_to (now s + Z.of_nat ms) s
  end.

Definition run_ops (ops : list Op) (s : State) : State :=
  fold_left (fun acc o => apply_op o acc) ops s.

(** The states a generator goes through. *)
Definition reachable (s : State) : Prop :=
  exists t0 ops, s = run_ops ops (constructor t0).

(** What tearing the present nodes down calls, in order. *)
Definition teardown_calls (s : State) : list Call :=
  flat_map (fun id =>
              if from_option (fun n => is_oscillator (kind n)) false (store s !! id)
              then [CallStop id; CallDisconnect id]
              else [CallDisconnect id])
           (nodes s).

(** No connection starts at the node and, if it is an oscillator, it has been
    stopped. *)
Definition torn_down (s : State) (id : nat) : Prop :=
  (forall e, In e (edges s) -> fst e <> id) /\
  (forall n, store s !! id = Some n -> is_oscillator (kind n) = true ->
             stopAt n <> None).

(** ** Graphs *)

Definition connected (s : State) (id : nat) : bool :=
  existsb (fun e => (fst e =? id)%nat) (edges s).

(** Oscillator [id] sounds at the present time. *)
Definition sounding (s : State) (id : nat) : bool :=
  match store s !! id with
  | Some (mkNode (OscillatorNode _ _) (Some _) None) => true
  | _ => false
  end.

(** The nodes a call creates: the ids the store gains. *)
Definition built_by (m : M unit) (s : State) : list nat :=
  seq (length (store s)) (length (store (exec m s)) - length (store s)).

(** A mixing graph is alive while one of its nodes is connected or one of
    its oscillators sounds. *)
Definition graph_alive (s : State) (ids : list nat) : bool :=
  existsb (fun id => connected s id || sounding s id) ids.

(** Every node of the graph is connected and every oscillator of it runs. *)
Definition graph_intact (s : State) (ids : list nat) : bool :=
  forallb (fun id =>
             connected s id &&
             match store s !! id with
             | Some (mkNode (OscillatorNode _ _) st sp) =>
                 match st, sp with Some _, None => true | _, _ => false end
             | Some _ => true
             | None => false
             end) ids.

(** The moods that build a graph. *)
Definition sounding_moods : list MusicMood := [ethereal; suspense; scifi].

End Ambient.

(** ** Predicates on the states of a generator *)

Module AmbientInv.

Import Ambient.

(** The handle names a node of the context. *)
Definition known (s : State) (id : nat) : Prop := is_Some (store s !! id).

(** The handle names a node that [stop()] and [disconnect()] accept: an
    oscillator among them has been started. *)
Definition ready (s : State) (id : nat) : Prop :=
  exists n, store s !! id = Some n /\
            (is_oscillator (kind n) = true -> startAt n <> None).

(** Every handle of [this.nodes] is ready. *)
Definition Inv (s : State) : Prop := Forall (ready s) (nodes s).

(** Nodes stay, keep their kind, and stay started. *)
Definition le (s s' : State) : Prop :=
  forall id n, store s !! id = Some n ->
    exists n', store s' !! id = Some n' /\ kind n' = kind n /\
               (startAt n <> None -> startAt n' <> None).

(** From a state where [P] holds, [m] returns a value and a state that
    satisfy [Q]. *)
Definition triple {A} (P : State -> Prop) (m : M A) (Q : A -> State -> Prop) : Prop :=
  forall s, P s -> Q (fst (m s)) (snd (m s)).

(** What is known while a method runs from [s0]: the handles of [this.nodes]
    are ready, so are the nodes of [R], and the nodes of [K] exist. *)
Definition holds (s0 : State) (R K : list nat) (s : State) : Prop :=
  le s0 s /\ Inv s /\ Forall (ready s) R /\ Forall (known s) K.

(** Pending callbacks are due after the present time, within 1100 ms. *)
Definition timers_ahead (s : State) : Prop :=
  Forall (fun d => (now s < d <= now s + 1100)%Z) (timers s).

(** A method that sets no timer but through [stop] and leaves the clock
    alone. *)
Definition quiet {A} (m : M A) : Prop :=
  forall s, now (snd (m s)) = now s /\ timers (snd (m s)) = timers s /\
            calls (snd (m s)) = calls s.

(** Connections only go, nodes stay and keep kind and start, stopped nodes
    stay stopped; the rest of the state is untouched. *)
Definition shrinks (s s' : State) : Prop :=
  (forall e, In e (edges s') -> In e (edges s)) /\
  (forall id n, store s !! id = Some n ->
     exists n', store s' !! id = Some n' /\ kind n' = kind n /\
                startAt n' = startAt n /\ (stopAt n <> None -> stopAt n' <> None)) /\
  (forall id, store s !! id = None -> store s' !! id = None) /\
  now s' = now s /\ timers s' = timers s /\ gain s' = gain s /\
  masterGain s' = masterGain s /\ nodes s' = nodes s.

(** The calls a teardown of the handles [ids] makes. *)
Definition calls_for (s : State) (ids : list nat) : list Call :=
  flat_map (fun id =>
              if from_option (fun n => is_oscillator (kind n)) false (store s !! id)
              then [CallStop id; CallDisconnect id]
              else [CallDisconnect id]) ids.

(** A generator in order. *)
Definition Good (s : State) : Prop := Inv s /\ timers_ahead s.

(** The teardown reads and writes the clock, the nodes, the connections, the
    handles and the call log only. *)
Definition recast (ts : list Z) (mg : nat) (g : AudioParam) (s : State) : State :=
  mkState (now s) (store s) (edges s) ts (nodes s) mg g (calls s).

End AmbientInv.

(* ===================================================================== *)
(** * The story document                                                  *)
(* ===================================================================== *)

Module Story.

Inductive TransitionType :=
| fade | slide_left | slide_right | zoom_in | zoom_out | no_transition.

(** A duration is a JavaScript number: what [parseInt] returns on the text of
    the duration field, an integer or [NaN]. *)
Inductive JsNumber :=
| NaN
| Num (z : Z).

Record TransitionSettings := mkTransition {
  type : TransitionType;
  duration : JsNumber
}.

Record Scene := mkScene {
  id : Z;
  narrative : string;
  imagePrompt : string;
  imageData : option string;
  audioData : option Pcm.AudioBuffer;
  audioBase64 : option string;
  transition : option TransitionSettings
}.

Record Story := mkStory {
  title : string;
  scenes : list Scene;
  backgroundMusic : option Ambient.MusicMood
}.

(** [x || 1000] on a number: 0 and [NaN] are falsy. *)
Definition or_default (x : option JsNumber) (d : Z) : Z :=
  match x with
  | Some (Num z) => if z =? 0 then d else z
  | Some NaN | None => d
  end.

(** [buffer.duration * 1000], in whole milliseconds of the virtual clock. *)
Definition duration_ms (b : Pcm.AudioBuffer) : Z :=
  Z.of_nat (Pcm.frameLength b) * 1000 / Pcm.sampleRate b.

(** The buffer lasts [ms] milliseconds, no more and no less. *)
Definition lasts (b : Pcm.AudioBuffer) (ms : Z) : Prop :=
  0 < Pcm.sampleRate b /\
  Z.of_nat (Pcm.frameLength b) * 1000 = ms * Pcm.sampleRate b.

End Story.

(* ===================================================================== *)
(** * The scene playback scheduler                                        *)
(* ===================================================================== *)

Module Player.

Import Story.

Inductive TransitionStage := enter | active | exit.

(** What the event loop holds for the player. *)
Inductive Task :=
| TimeoutAdvance (index : nat)   (* the 3000 ms fallback: [advanceNext(index)] *)
| TimeoutPlay (index : nat)      (* set by [advanceNext]: [playScene(index)] *)
| Ended (index : nat)            (* [source.onended] of the narration of a scene *)
| FrameOuter                     (* first [requestAnimationFrame] callback *)
| FrameInner.                    (* second one: [setLayoutStage('active')] *)

Record Pending := mkPending {
  pid : nat;     (* timer id, or id of the source whose end is awaited *)
  due : Z;
  task : Task
}.

(** A narration [AudioBufferSourceNode]. *)
Record Source := mkSource {
  src_id : nat;
  src_scene : nat;
  src_output : Ambient.Target;   (* what [source.connect] was given *)
  src_start : Z;
  src_length : Z;
  src_stopped : bool             (* [stop()] was called on it *)
}.

Record State := mkState {
  story : Story;
  (* React state *)
  currentSceneIndex : nat;
  isPlaying : bool;
  isFinished : bool;
  isMuted : bool;
  layoutStage : TransitionStage;
  (* refs *)
  audioSourceRef : option nat;
  transitionTimeoutRef : option nat;
  musicPlayerRef : option Ambient.State;
  isPlayingRef : bool;
  (* the platform *)
  clock : Z;
  frameMs : Z;                   (* time to the next animation frame *)
  queue : list Pending;
  nextId : nat;
  sources : list Source
}.

Definition set_queue (q : list Pending) (s : State) : State :=
  mkState (story s) (currentSceneIndex s) (isPlaying s) (isFinished s) (isMuted s)
          (layoutStage s) (audioSourceRef s) (transitionTimeoutRef s)
          (musicPlayerRef s) (isPlayingRef s) (clock s) (frameMs s) q (nextId s)
          (sources s).

Definition set_stage (st : TransitionStage) (s : State) : State :=
  mkState (story s) (currentSceneIndex s) (isPlaying s) (isFinished s) (isMuted s)
          st (audioSourceRef s) (transitionTimeoutRef s)
          (musicPlayerRef s) (isPlayingRef s) (clock s) (frameMs s) (queue s)
          (nextId s) (sources s).

Definition set_music (m : option Ambient.State) (s : State) : State :=
  mkState (story s) (currentSceneIndex s) (isPlaying s) (isFinished s) (isMuted s)
          (layoutStage s) (audioSourceRef s) (transitionTimeoutRef s)
          m (isPlayingRef s) (clock s) (frameMs s) (queue s) (nextId s)
          (sources s).

(** [musicPlayerRef.current?.method()], at the present time of the clock. *)
Definition music_call (m : Ambient.M unit) (s : State) : State :=
  set_music
    (Ambient.exec m <$> (Ambient.advance_to (clock s) <$> musicPlayerRef s)) s.

(** Register a callback due [delay] ms from now; the id handed back is never 0. *)
Definition schedule (delay : Z) (t : Task) (s : State) : nat * State :=
  (nextId s,
   mkState (story s) (currentSceneIndex s) (isPlaying s) (isFinished s) (isMuted s)
           (layoutStage s) (audioSourceRef s) (transitionTimeoutRef s)
           (musicPlayerRef s) (isPlayingRef s) (clock s) (frameMs s)
           (queue s ++ [mkPending (nextId s) (clock s + delay) t])
           (S (nextId s)) (sources s)).

Definition cancel (i : nat) (q : list Pending) : list Pending :=
  List.filter (fun p => negb (pid p =? i)%nat) q.

(** The delay of [window.setTimeout] is a WebIDL [long]: the fraction is
    dropped and the integer wraps to 32 bits, signed. *)
Definition to_int32 (z : Z) : Z := (z + 2 ^ 31) mod 2 ^ 32 - 2 ^ 31.

(** [window.setTimeout(..., transitionDuration / 2)]: the delay as a [long],
    a negative one counting as 0. *)
Definition timeout_delay_half (transitionDuration : Z) : Z :=
  Z.max 0 (to_int32 (Z.quot transitionDuration 2)).

(** [stopAudio]: silence the narration (handler removed, source stopped) and
    clear the pending timeout. *)
Definition stopAudio (s : State) : State :=
  let s1 :=
    match audioSourceRef s with
    | Some src =>
        mkState (story s) (currentSceneIndex s) (isPlaying s) (isFinished s)
                (isMuted s) (layoutStage s) None (transitionTimeoutRef s)
                (musicPlayerRef s) (isPlayingRef s) (clock s) (frameMs s)
                (cancel src (queue s)) (nextId s)
                (map (fun x => if (src_id x =? src)%nat
                               then mkSource (src_id x) (src_scene x) (src_output x)
                                             (src_start x) (src_length x) true
                               else x) (sources s))
    | None => s
    end in
  match transitionTimeoutRef s1 with
  | Some t =>
      mkState (story s1) (currentSceneIndex s1) (isPlaying s1) (isFinished s1)
              (isMuted s1) (layoutStage s1) (audioSourceRef s1) None
              (musicPlayerRef s1) (isPlayingRef s1) (clock s1) (frameMs s1)
              (cancel t (queue s1)) (nextId s1) (sources s1)
  | None => s1
  end.

(** [playScene(index)].  The audio context is taken to be running, so the
    [await ctx.resume()] does not suspend.  An index outside the story has no
    scene to read: the promise rejects after the synchronous prefix. *)
Definition playScene (index : nat) (s : State) : State :=
  let s := stopAudio s in
  let s := mkState (story s) index true false (isMuted s) enter
                   (audioSourceRef s) (transitionTimeoutRef s) (musicPlayerRef s)
                   true (clock s) (frameMs s) (queue s) (nextId s) (sources s) in
  let s := snd (schedule (frameMs s) FrameOuter s) in
  match scenes (story s) !! index with
  | None => s
  | Some scene =>
      match audioData scene with
      | None =>
          let (t, s) := schedule 3000 (TimeoutAdvance index) s in
          mkState (story s) (currentSceneIndex s) (isPlaying s) (isFinished s)
                  (isMuted s) (layoutStage s) (audioSourceRef s) (Some t)
                  (musicPlayerRef s) (isPlayingRef s) (clock s) (frameMs s)
                  (queue s) (nextId s) (sources s)
      | Some buffer =>
          let (src, s) := schedule (duration_ms buffer) (Ended index) s in
          mkState (story s) (currentSceneIndex s) (isPlaying s) (isFinished s)
                  (isMuted s) (layoutStage s) (Some src) (transitionTimeoutRef s)
                  (musicPlayerRef s) (isPlayingRef s) (clock s) (frameMs s)
                  (queue s) (nextId s)
                  (sources s ++ [mkSource src index Ambient.ToDestination (clock s)
                                          (duration_ms buffer) false])
      end
  end.

(** [advanceNext(currentIndex)] *)
Definition advanceNext (currentIndex : nat) (s : State) : State :=
  if Z.of_nat currentIndex <? Z.of_nat (length (scenes (story s))) - 1 then
    let nextScene := scenes (story s) !! (currentIndex + 1)%nat in
    let transitionDuration :=
      or_default (duration <$> (nextScene ≫= transition)) 1000 in
    let s := set_stage exit s in
    let (t, s) := schedule (timeout_delay_half transitionDuration)
                           (TimeoutPlay (currentIndex + 1)) s in
    mkState (story s) (currentSceneIndex s) (isPlaying s) (isFinished s)
            (isMuted s) (layoutStage s) (audioSourceRef s) (Some t)
            (musicPlayerRef s) (isPlayingRef s) (clock s) (frameMs s)
            (queue s) (nextId s) (sources s)
  else
    let s := mkState (story s) (currentSceneIndex s) false true (isMuted s)
                     (layoutStage s) (audioSourceRef s) (transitionTimeoutRef s)
                     (musicPlayerRef s) false (clock s) (frameMs s) (queue s)
                     (nextId s) (sources s) in
    music_call Ambient.stop s.

(** The callbacks. *)
Definition run_task (t : Task) (s : State) : State :=
  match t with
  | TimeoutAdvance index => advanceNext index s
  | TimeoutPlay index => playScene index s
  | Ended index => if isPlayingRef s then advanceNext index s else s
  | FrameOuter => snd (schedule (frameMs s) FrameInner s)
  | FrameInner => set_stage active s
  end.

(** The mute effect: [setVolume(isMuted ? 0 : 0.08)]. *)
Definition mute_effect (s : State) : State :=
  music_call (Ambient.setVolume (if isMuted s then 0%Q else (8 # 100)%Q)) s.

(** The mute button: [setIsMuted(!isMuted)], then the effect on [isMuted]. *)
Definition toggleMute (s : State) : State :=
  mute_effect
    (mkState (story s) (currentSceneIndex s) (isPlaying s) (isFinished s)
             (negb (isMuted s)) (layoutStage s) (audioSourceRef s)
             (transitionTimeoutRef s) (musicPlayerRef s) (isPlayingRef s)
             (clock s) (frameMs s) (queue s) (nextId s) (sources s)).

(** Mounting the player at time [t0]: the music effect (which also starts
    scene 0), then the mute effect. *)
Definition mount (st : Story) (frame t0 : Z) : State :=
  let s := mkState st 0 false false false active None None
                   (Some (Ambient.constructor t0)) false t0 frame [] 1 [] in
  let s := match backgroundMusic st with
           | Some Ambient.none | None => s
           | Some mood => music_call (Ambient.play mood) s
           end in
  mute_effect (playScene 0 s).

Definition handlePlayPause (s : State) : State :=
  if isPlaying s then
    let s := stopAudio s in
    let s := mkState (story s) (currentSceneIndex s) false (isFinished s) (isMuted s)
                     (layoutStage s) (audioSourceRef s) (transitionTimeoutRef s)
                     (musicPlayerRef s) false (clock s) (frameMs s) (queue s)
                     (nextId s) (sources s) in
    music_call (Ambient.setVolume 0) s
  else
    let s := music_call
               (Ambient.setVolume (if isMuted s then 0%Q else (8 # 100)%Q)) s in
    if isFinished s then playScene 0 s else playScene (currentSceneIndex s) s.

Definition handleNext (s : State) : State :=
  if Z.of_nat (currentSceneIndex s) <? Z.of_nat (length (scenes (story s))) - 1
  then playScene (currentSceneIndex s + 1) s else s.

Definition handlePrevious (s : State) : State :=
  if (0 <? currentSceneIndex s)%nat then playScene (currentSceneIndex s - 1) s else s.

(** ** The event loop *)

(** The entry to run next: the earliest due, the first registered among
    equals. *)
Fixpoint next_pending (q : list Pending) : option Pending :=
  match q with
  | [] => None
  | p :: rest =>
      match next_pending rest with
      | Some p' => if due p' <? due p then Some p' else Some p
      | None => Some p
      end
  end.

Definition at_clock (t : Z) (s : State) : State :=
  mkState (story s) (currentSceneIndex s) (isPlaying s) (isFinished s) (isMuted s)
          (layoutStage s) (audioSourceRef s) (transitionTimeoutRef s)
          (Ambient.advance_to t <$> musicPlayerRef s) (isPlayingRef s)
          (Z.max t (clock s)) (frameMs s) (queue s) (nextId s) (sources s).

(** Run every callback due by time [t], then let the clock read [t]. *)
Fixpoint run_until (fuel : nat) (t : Z) (s : State) : State :=
  match fuel with
  | O => at_clock t s
  | S fuel' =>
      match next_pending (queue s) with
      | Some p =>
          if due p <=? t
          then run_until fuel' t
                 (run_task (task p) (set_queue (cancel (pid p) (queue s))
                                               (at_clock (due p) s)))
          else at_clock t s
      | None => at_clock t s
      end
  end.

(** ** Use of the player over time *)

Inductive Action :=
| PressPlayPause
| PressNext
| PressPrevious
| PressMute
| Wait (fuel : nat) (ms : nat).   (* the event loop runs for [ms] *)

Definition act (a : Action) (s : State) : State :=
  match a with
  | PressPlayPause => handlePlayPause s
  | PressNext => handleNext s
  | PressPrevious => handlePrevious s
  | PressMute => toggleMute s
  | Wait fuel ms => run_until fuel (clock s + Z.of_nat ms) s
  end.

(** The states a mounted player goes through. *)
Definition reachable (s : State) : Prop :=
  exists st frame t0 acts, s = fold_left (fun acc a => act a acc) acts (mount st frame t0).

(** No callback is due by [t]. *)
Definition settled (t : Z) (s : State) : Prop :=
  match next_pending (queue s) with
  | Some p => t < due p
  | None => True
  end.

(** The gain between a narration source and the loudspeakers: the master
    gain if the source goes through it, nothing if it is connected to the
    destination. *)
Definition narration_level (s : State) (x : Source) : Q :=
  match src_output x, musicPlayerRef s with
  | Ambient.ToNode n, Some m =>
      if (n =? Ambient.masterGain m)%nat
      then Ambient.value_at (Ambient.gain m) (Ambient.now m) else 1%Q
  | _, _ => 1%Q
  end.

(** ** The two-scene scenario *)

(** The synthesizer as the music effect of [mount] leaves it. *)
Definition music0 (st : Story) (t0 : Z) : Ambient.State :=
  match backgroundMusic st with
  | Some Ambient.none | None => Ambient.constructor t0
  | Some mood => Ambient.exec (Ambient.play mood)
                   (Ambient.advance_to t0 (Ambient.constructor t0))
  end.

(** [stop()] was called on the synthesizer at [t0]: the gain is 0 from one
    second later on, and once the teardown has run no node is left. *)
Definition ambient_stopped (t0 t : Z) (s : State) : Prop :=
  exists m, musicPlayerRef s = Some m /\
    (forall w, t0 + 1000 <= w ->
       (Ambient.value_at (Ambient.gain m) w == 0)%Q) /\
    (t0 + 1100 <= t -> Ambient.nodes m = [] /\ Ambient.timers m = []).

(** Scene 1 for 2000 ms, exit, scene 2 from 2500 ms, finished at 5500 ms. *)
Definition two_scene_timeline (st : Story) (frame : Z) : Prop :=
  forall fuel t, (7 <= fuel)%nat ->
    let s := run_until fuel t (mount st frame 0) in
    (0 <= t < 2000 ->
       currentSceneIndex s = 0%nat /\ isPlaying s = true /\ isFinished s = false /\
       layoutStage s <> exit) /\
    (2000 <= t < 2500 ->
       currentSceneIndex s = 0%nat /\ layoutStage s = exit /\ isFinished s = false) /\
    (2500 <= t < 5500 ->
       currentSceneIndex s = 1%nat /\ isPlaying s = true /\ isFinished s = false /\
       layoutStage s <> exit) /\
    (5500 <= t ->
       currentSceneIndex s = 1%nat /\ isFinished s = true /\ isPlaying s = false /\
       ambient_stopped 5500 t s).

(** The scenario of the claim: scene 1 has a 2000 ms narration, scene 2 has
    none, and the transition duration is 1000 ms, set or left unset, on
    scene 1 as the claim words it and on scene 2, the one [advanceNext]
    reads. *)
Definition scenario_as_stated (st : Story) : Prop :=
  exists sc1 sc2 b,
    scenes st = [sc1; sc2] /\ audioData sc1 = Some b /\ lasts b 2000 /\
    or_default (duration <$> transition sc1) 1000 = 1000 /\
    audioData sc2 = None /\
    or_default (duration <$> transition sc2) 1000 = 1000.

(** A story outside the scenario: scene 1 has a 2000 ms narration and the
    transition (fade, 1000 ms); scene 2 has no narration and the transition
    (fade, 3000 ms). *)
Definition slow_second_scene : Story :=
  mkStory "two scenes"
    [mkScene 1 "first" "a" None (Some (Pcm.mkAudioBuffer 24000 1 48000 [List.repeat 0%Q 48000]))
             None (Some (mkTransition fade (Num 1000)));
     mkScene 2 "second" "b" None None None (Some (mkTransition fade (Num 3000)))]
    (Some Ambient.ethereal).

(** A story of the scenario: the same with the transition of scene 2 left
    unset. *)
Definition default_second_scene : Story :=
  mkStory "two scenes"
    [mkScene 1 "first" "a" None (Some (Pcm.mkAudioBuffer 24000 1 48000 [List.repeat 0%Q 48000]))
             None (Some (mkTransition fade (Num 1000)));
     mkScene 2 "second" "b" None None None None]
    (Some Ambient.ethereal).

End Player.

(** ** Predicates on the states of the player *)

Module PlayerInv.

Import Story Player.

(** Every narration source goes to the destination, and the player has its
    synthesizer. *)
Definition direct (s : State) : Prop :=
  Forall (fun x => src_output x = Ambient.ToDestination) (sources s) /\
  is_Some (musicPlayerRef s).

(** The synthesizer is in order and its clock has not passed [T]. *)
Definition by_time (T : Z) (m : Ambient.State) : Prop :=
  AmbientInv.Good m /\ Ambient.now m <= T.

End PlayerInv.

(* ===================================================================== *)
(** * The editor: transition settings and saving the draft                *)
(* ===================================================================== *)

Module Editor.

Import Story.

(** ** [parseInt] on the text of an input field *)

Definition digit_of (c : ascii) : option Z :=
  let n := Z.of_nat (nat_of_ascii c) in
  if (48 <=? n) && (n <=? 57) then Some (n - 48) else None.

(** Value of the longest prefix of digits, if there is one. *)
Fixpoint parse_digits (acc : option Z) (l : list ascii) : option Z :=
  match l with
  | [] => acc
  | c :: rest =>
      match digit_of c with
      | Some d => parse_digits (Some (default 0 acc * 10 + d)) rest
      | None => acc
      end
  end.

Fixpoint skip_whitespace (l : list ascii) : list ascii :=
  match l with
  | c :: rest => if Pcm.is_ascii_whitespace c then skip_whitespace rest else l
  | [] => []
  end.

(** The double nearest to an integer, ties going to the even significand.
    Every integer up to 2^53 in magnitude is a double; a larger one keeps its
    53 leading bits. *)
Definition round_to_double (z : Z) : Z :=
  let a := Z.abs z in
  if a <=? 2 ^ 53 then z else
  let e := Z.log2 a - 52 in
  let q := Z.shiftr a e in
  let r := a - Z.shiftl q e in
  let half := Z.shiftl 1 (e - 1) in
  let q' := if (half <? r) || ((half =? r) && Z.odd q) then q + 1 else q in
  Z.sgn z * Z.shiftl q' e.

(** [parseInt(text)]: white space, a sign, then the longest run of decimal
    digits, [NaN] without a digit.  The result is a double: the integer the
    digits spell, rounded.  The model stops there: past 20 significant digits
    the platform may read the further digits as 0, and from 2^1024 on its
    result is infinite. *)
Definition parseInt (text : string) : JsNumber :=
  let l := skip_whitespace (list_ascii_of_string text) in
  let (sign, l) :=
    match l with
    | c :: rest =>
        if (nat_of_ascii c =? 45)%nat then (-1, rest)
        else if (nat_of_ascii c =? 43)%nat then (1, rest)
        else (1, l)
    | [] => (1, l)
    end in
  match parse_digits None l with
  | Some v => Num (round_to_double (sign * v))
  | None => NaN
  end.

(** ** [updateSceneTransition] *)

Definition with_transition (sc : Scene) (t : TransitionSettings) : Scene :=
  mkScene (id sc) (narrative sc) (imagePrompt sc) (imageData sc) (audioData sc)
          (audioBase64 sc) (Some t).

(** The rows of the editor are the scenes of the story, so [index] is one of
    theirs.  For an index outside the story the source would grow the array
    by an object that is not a scene; that is [None] here. *)
Definition updateSceneTransition (index : nat) (type : TransitionType)
    (duration : JsNumber) (story : Story) : option Story :=
  match scenes story !! index with
  | Some sc =>
      Some (mkStory (title story)
                    (<[index := with_transition sc (mkTransition type duration)]>
                       (scenes story))
                    (backgroundMusic story))
  | None => None
  end.

(** The duration field: [<input type="number" min="100" max="5000"
    step="100">].  The attributes bound the stepping arrows and flag the
    field as invalid; the change event still carries the text as typed. *)
Definition duration_min : Z := 100.
Definition duration_max : Z := 5000.

Definition in_range (n : JsNumber) : bool :=
  match n with
  | Num z => (duration_min <=? z) && (z <=? duration_max)
  | NaN => false
  end.

(** [onChange] of the duration field of row [index]. *)
Definition onDurationChange (index : nat) (text : string) (story : Story)
  : option Story :=
  sc ← scenes story !! index;
  updateSceneTransition index
    (from_option type fade (transition sc)) (parseInt text) story.

(** [onChange] of the transition type selector of row [index]. *)
Definition onTypeChange (index : nat) (t : TransitionType) (story : Story)
  : option Story :=
  sc ← scenes story !! index;
  updateSceneTransition index t
    (Num (or_default (duration <$> transition sc) 1000)) story.

(** ** [handleSave] *)

Inductive SaveStatus := idle | saving | saved | partial | error.

Inductive StorageError :=
| QuotaExceededError
| NS_ERROR_DOM_QUOTA_REACHED
| OtherError.

Definition is_quota (e : StorageError) : bool :=
  match e with OtherError => false | _ => true end.

Definition prepareStoryForSave (s : Story) (stripImages stripAudio : bool) : Story :=
  mkStory (title s)
    (map (fun scene =>
            mkScene (id scene) (narrative scene) (imagePrompt scene)
                    (if stripImages then None else imageData scene)
                    None
                    (if stripAudio then None else audioBase64 scene)
                    (transition scene))
         (scenes s))
    (backgroundMusic s).

Record SaveResult := mkSave {
  status : SaveStatus;
  attempts : list Story;      (* what [setItem] was given, in order *)
  stored : option Story       (* what the storage now holds from this save *)
}.

Section Save.

(** [localStorage.setItem('koko_story_draft', JSON.stringify(x))] on the
    [n]-th call of a save: [None] when it returns, the exception otherwise. *)
Variable setItem : nat -> Story -> option StorageError.

Definition handleSave (story : Story) : SaveResult :=
  let fullStory := prepareStoryForSave story false false in
  match setItem 0 fullStory with
  | None => mkSave saved [fullStory] (Some fullStory)
  | Some e =>
      if is_quota e then
        let noImagesStory := prepareStoryForSave story true false in
        match setItem 1 noImagesStory with
        | None => mkSave partial [fullStory; noImagesStory] (Some noImagesStory)
        | Some _ =>
            let textOnlyStory := prepareStoryForSave story true true in
            match setItem 2 textOnlyStory with
            | None =>
                mkSave partial [fullStory; noImagesStory; textOnlyStory]
                       (Some textOnlyStory)
            | Some _ =>
                mkSave error [fullStory; noImagesStory; textOnlyStory] None
            end
        end
      else mkSave error [fullStory] None
  end.

(** The status three seconds later. *)
Definition status_after_timeout (r : SaveResult) : SaveStatus :=
  match status r with error => error | _ => idle end.

End Save.

End Editor.

(* ===================================================================== *)
(** * The application: restoring a draft                                  *)
(* ===================================================================== *)

Module App.

Import Story.

Inductive AppState :=
| IDLE | GENERATING_SCRIPT | GENERATING_ASSETS | REVIEW_STORY | PLAYING
| EXPORTING | ERROR.

Definition with_audioData (sc : Scene) (a : option Pcm.AudioBuffer) : Scene :=
  mkScene (id sc) (narrative sc) (imagePrompt sc) (imageData sc) a
          (audioBase64 sc) (transition sc).

Definition is_empty (s : string) : bool :=
  match s with EmptyString => true | _ => false end.

(** A string is truthy unless it is empty. *)
Definition truthy_payload (p : option string) : option string :=
  match p with
  | Some s => if is_empty s then None else Some s
  | None => None
  end.

(** The callback of the [map]: the scene restored and the ids it warned
    about on the console. *)
Definition restore_scene (scene : Scene) : Scene * list Z :=
  match audioData scene, truthy_payload (audioBase64 scene) with
  | None, Some payload =>
      match Pcm.decodeNarration payload with
      | Some buffer => (with_audioData scene (Some buffer), [])
      | None => (with_audioData scene None, [id scene])
      end
  | a, _ => (with_audioData scene a, [])
  end.

Record Loaded := mkLoaded {
  appState : AppState;
  story : option Story;
  error : option string;
  console : list Z            (* ids of the scenes warned about *)
}.

(** [handleLoadDraft].  Each decode has its own [try/catch], so no promise of
    the [Promise.all] rejects and the outer [catch] is not entered. *)
Definition handleLoadDraft (draft : Story) : Loaded :=
  let restored := map restore_scene (scenes draft) in
  mkLoaded REVIEW_STORY
           (Some (mkStory (title draft) (map fst restored) (backgroundMusic draft)))
           None
           (concat (map snd restored)).

End App.

(* ===================================================================== *)
(** * The exporter: [startExport] and [playAllScenes]                     *)
(* ===================================================================== *)

Module Exporter.

Import Story.

Local Open Scope Q_scope.

(** ** The platform objects [startExport] handles *)

Inductive TrackKind := VideoTrack | AudioTrack.

(** A [MediaStream] with its tracks, and the node that
    [ctx.createMediaStreamDestination()] returns: the node has a stream (its
    [stream] property), it is not one. *)
Inductive PlatformObject :=
| MediaStream (tracks : list TrackKind)
| MediaStreamAudioDestinationNode (stream : list TrackKind).

Definition is_video (k : TrackKind) : bool :=
  match k with VideoTrack => true | AudioTrack => false end.

Definition is_audio (k : TrackKind) : bool :=
  match k with AudioTrack => true | VideoTrack => false end.

(** [o.getVideoTracks()] and [o.getAudioTracks()] are methods of
    [MediaStream].  On an object without the method the call throws
    [TypeError]: that is [None]. *)
Definition getVideoTracks (o : PlatformObject) : option (list TrackKind) :=
  match o with
  | MediaStream tracks => Some (List.filter is_video tracks)
  | MediaStreamAudioDestinationNode _ => None
  end.

Definition getAudioTracks (o : PlatformObject) : option (list TrackKind) :=
  match o with
  | MediaStream tracks => Some (List.filter is_audio tracks)
  | MediaStreamAudioDestinationNode _ => None
  end.

(** ** The component *)

(** Where the component stands. *)
Inductive Phase :=
| Mounted                                      (* [playAllScenes] not called *)
| AwaitImage                                   (* [await ... img.onload] *)
| Rendering (startTime : Z) (sceneDuration : Q) (framePending : bool)
                                               (* [await ... setTimeout] *)
| WrappedUp.                                   (* after the loop *)

(** One call of [render]. *)
Record FrameLog := mkFrame {
  f_scene : nat;
  f_time : Z;
  f_intra : Q;       (* [progress], local to the scene *)
  f_reported : Q     (* what [setProgress] was given *)
}.

Record State := mkState {
  story : Story;
  i : nat;                         (* the loop variable *)
  phase : Phase;
  progress : Q;                    (* React state, per cent *)
  currentSceneIndex : nat;
  isDone : bool;
  recording : bool;                (* [recorderRef] holds a started recorder *)
  musicSource : bool;              (* the export-only drone is sounding *)
  narrations : list (nat * Z);     (* narration sources started: scene, time *)
  rendered : list FrameLog;        (* calls of [render], oldest first *)
  downloads : nat                  (* files offered for download *)
}.

(** The component as it is rendered first. *)
Definition initial (st : Story) : State :=
  mkState st 0 Mounted 0 0 false false false [] [] 0.

(** What the platform delivers. *)
Inductive Event :=
| ImageLoad (t : Z)        (* [img.onload] *)
| ImageError (t : Z)       (* the image failed; no handler is installed *)
| AnimationFrame (t : Z)   (* a frame, with its timestamp *)
| TimerFired (t : Z).      (* the scene's [setTimeout] callback *)

(** [scene.audioData.duration * 1000]: the length over the rate, in ms. *)
Definition narration_ms (b : Pcm.AudioBuffer) : Q :=
  inject_Z (Z.of_nat (Pcm.frameLength b)) / inject_Z (Pcm.sampleRate b) * 1000.

(** [Math.max(duration, narrationDuration + 500)] *)
Definition sceneDuration_of (sc : Scene) : Q :=
  let duration := 4000 in
  let narrationDuration :=
    match audioData sc with Some b => narration_ms b | None => 0 end in
  Qmax duration (narrationDuration + 500).

(** The integer part of a number, towards 0. *)
Definition truncate (q : Q) : Z := Z.quot (Qnum q) (Z.pos (Qden q)).

(** [setTimeout(resolve, sceneDuration)]: the delay as a [long] (fraction
    dropped, wrapped to 32 bits), a negative one counting as 0. *)
Definition timeout_delay (ms : Q) : Z :=
  Z.max 0 (Player.to_int32 (truncate ms)).

(** [Math.min(elapsed / sceneDuration, 1)] *)
Definition intra_progress (time startTime : Z) (sceneDuration : Q) : Q :=
  Qmin (inject_Z (time - startTime) / sceneDuration) 1.

(** [((i + progress) / story.scenes.length) * 100] *)
Definition reported_progress (i : nat) (p : Q) (total : nat) : Q :=
  ((inject_Z (Z.of_nat i) + p) / inject_Z (Z.of_nat total)) * 100.

(** After the loop: [musicSource.stop()], [recorderRef.current?.stop()].  A
    started recorder stops, and its [onstop] offers the file and marks the
    session done; without a recorder nothing of that happens. *)
Definition wrap_up (s : State) : State :=
  mkState (story s) (i s) WrappedUp (progress s) (currentSceneIndex s)
          (isDone s || recording s) false false (narrations s) (rendered s)
          (if recording s then S (downloads s) else downloads s).

(** Head of one iteration: [setCurrentSceneIndex(i)], then wait for the
    image. *)
Definition enter_scene (k : nat) (s : State) : State :=
  if (k <? length (scenes (story s)))%nat then
    mkState (story s) k AwaitImage (progress s) k (isDone s) (recording s)
            (musicSource s) (narrations s) (rendered s) (downloads s)
  else
    wrap_up (mkState (story s) k (phase s) (progress s) (currentSceneIndex s)
                     (isDone s) (recording s) (musicSource s) (narrations s)
                     (rendered s) (downloads s)).

(** [playAllScenes(dest)] up to its first suspension: the drone, if the
    story has music, then the head of the loop. *)
Definition playAllScenes (s : State) : State :=
  let bed := match backgroundMusic (story s) with
             | Some Ambient.none | None => false
             | Some _ => true
             end in
  enter_scene 0 (mkState (story s) 0 (phase s) (progress s) (currentSceneIndex s)
                         (isDone s) (recording s) bed (narrations s)
                         (rendered s) (downloads s)).

(** How a call settles, with the state it leaves. *)
Inductive Outcome :=
| Returned (s : State)
| Thrown (s : State).

(** [recorder.start()], [isRecordingRef.current = true] *)
Definition start_recorder (s : State) : State :=
  mkState (story s) (i s) (phase s) (progress s) (currentSceneIndex s)
          (isDone s) true (musicSource s) (narrations s) (rendered s)
          (downloads s).

(** [startExport], [canvas] telling whether [canvasRef.current] is set.  The
    audio context is taken to be running.  The combined stream is built from
    [canvasStream.getVideoTracks()] and [audioDest.getAudioTracks()], the
    second called on the destination node itself; the recorder and
    [playAllScenes] come after. *)
Definition startExport (canvas : bool) (s : State) : Outcome :=
  if negb canvas then Returned s else
  let audioDest := MediaStreamAudioDestinationNode [AudioTrack] in
  let canvasStream := MediaStream [VideoTrack] in
  match getVideoTracks canvasStream with
  | None => Thrown s
  | Some videoTracks =>
      match getAudioTracks audioDest with
      | None => Thrown s
      | Some audioTracks => Returned (playAllScenes (start_recorder s))
      end
  end.

(** The mount effect: [startExport()] on the rendered component (the canvas
    is there), its promise dropped. *)
Definition mount (st : Story) : State :=
  match startExport true (initial st) with
  | Returned s | Thrown s => s
  end.

(** [playAllScenes] entered on a component that has done nothing yet, with
    a started recorder in [recorderRef] or without. *)
Definition scene_loop (st : Story) (recorder : bool) : State :=
  playAllScenes (if recorder then start_recorder (initial st) else initial st).

Definition step (e : Event) (s : State) : State :=
  match e, phase s with
  | ImageLoad t, AwaitImage =>
      match scenes (story s) !! i s with
      | Some scene =>
          mkState (story s) (i s)
                  (Rendering t (sceneDuration_of scene) true)
                  (progress s) (currentSceneIndex s) (isDone s) (recording s)
                  (musicSource s)
                  (match audioData scene with
                   | Some _ => narrations s ++ [(i s, t)]
                   | None => narrations s
                   end)
                  (rendered s) (downloads s)
      | None => s
      end
  | AnimationFrame t, Rendering startTime sceneDuration true =>
      let p := intra_progress t startTime sceneDuration in
      let r := reported_progress (i s) p (length (scenes (story s))) in
      mkState (story s) (i s)
              (Rendering startTime sceneDuration
                         (if Qle_bool 1 p then false else true))
              r (currentSceneIndex s) (isDone s) (recording s) (musicSource s)
              (narrations s)
              (rendered s ++ [mkFrame (i s) t p r]) (downloads s)
  | TimerFired t, Rendering startTime sceneDuration _ =>
      if (startTime + timeout_delay sceneDuration <=? t)%Z
      then enter_scene (S (i s)) s else s
  | _, _ => s
  end.

Definition run (evs : list Event) (s : State) : State :=
  fold_left (fun acc e => step e acc) evs s.

Definition ev_time (e : Event) : Z :=
  match e with
  | ImageLoad t | ImageError t | AnimationFrame t | TimerFired t => t
  end.

Definition is_image_load (e : Event) : bool :=
  match e with ImageLoad _ => true | _ => false end.

(** The scene loop is waiting for the image of scene [k]. *)
Definition stalled_at (k : nat) (s : State) : Prop :=
  i s = k /\ phase s = AwaitImage.

(** [count] frames, one every [period] ms. *)
Definition frames_every (period : Z) (count : nat) : list Event :=
  map (fun k => AnimationFrame (period * Z.of_nat k)) (seq 1 count).

(** What has been rendered and started belongs to scenes the loop has
    reached; while the loop waits for the image of a scene, to earlier
    scenes only. *)
Definition behind (s : State) (scene : nat) : Prop :=
  (scene <= i s)%nat /\ (phase s = AwaitImage -> (scene < i s)%nat).

Definition orderly (s : State) : Prop :=
  Forall (fun f => behind s (f_scene f)) (rendered s) /\
  Forall (fun n => behind s (fst n)) (narrations s).

(** A one-scene story without narration. *)
Definition one_silent_scene : Story :=
  mkStory "one scene" [mkScene 1 "once" "a" (Some "data:image/png;base64,AA"%string)
                               None None None] None.

(** A two-scene story whose first scene has a narration of 28001 frames at
    8000 Hz, an eighth of a millisecond over 3500 ms. *)
Definition narrated_then_silent : Story :=
  mkStory "two scenes"
    [mkScene 1 "first" "a" (Some "data:image/png;base64,AA"%string)
             (Some (Pcm.mkAudioBuffer 8000 1 28001 [List.repeat 0%Q 28001]))
             None None;
     mkScene 2 "second" "b" (Some "data:image/png;base64,AA"%string)
             None None None]
    (Some Ambient.ethereal).

End Exporter.


(* ===================================================================== *)
(** * The audio context manager                                           *)
(* ===================================================================== *)

Module AudioContextManager.

(** The module-level variable [audioContext] and the contexts the platform
    has been asked to construct; a context is named by its rank. *)
Record Global := mkGlobal {
  audioContext : option nat;
  constructed : list Z          (* sample rates asked for, oldest first *)
}.

(** [getAudioContext()] *)
Definition getAudioContext (g : Global) : nat * Global :=
  match audioContext g with
  | Some ctx => (ctx, g)
  | None =>
      let ctx := length (constructed g) in
      (ctx, mkGlobal (Some ctx) (constructed g ++ [24000]))
  end.

(** [n] calls in a row: the contexts returned and the variable after. *)
Fixpoint calls (n : nat) (g : Global) : list nat * Global :=
  match n with
  | O => ([], g)
  | S n' =>
      let (ctx, g1) := getAudioContext g in
      let (rest, g2) := calls n' g1 in
      (ctx :: rest, g2)
  end.

End AudioContextManager.

(* ===================================================================== *)
(** * What [createBuffer] accepts                                         *)
(* ===================================================================== *)

Module AudioLimits.

(** Every implementation accepts sample rates from 8000 to 96000 Hz and up
    to 32 channels; outside of that [createBuffer] may throw for reasons of
    its own. *)
Definition supported (sampleRate : Z) (numChannels : nat) : Prop :=
  8000 <= sampleRate <= 96000 /\ (numChannels <= 32)%nat.

End AudioLimits.

(* ===================================================================== *)
(** * The generator: what the teardown catches, what a method registers   *)
(* ===================================================================== *)

Module AmbientRun.

Import Ambient.

(** How many times the [catch] of the teardown loop is entered while the
    handles [ids] are torn down from [s]. *)
Fixpoint caught (ids : list nat) (s : State) : nat :=
  match ids with
  | [] => 0
  | id :: rest =>
      (match teardown_body id s with Thrown _ => 1 | Returned _ => 0 end
       + caught rest (teardown_node id s))%nat
  end.

(** A method that leaves the master gain and its timeline alone. *)
Definition keeps_gain {A} (m : M A) : Prop :=
  forall s, gain (snd (m s)) = gain s /\ masterGain (snd (m s)) = masterGain s.

(** A method that only adds handles to [this.nodes]. *)
Definition extends {A} (m : M A) : Prop :=
  forall s, exists l, nodes (snd (m s)) = nodes s ++ l.

(** A method that adds at least one handle. *)
Definition registers {A} (m : M A) : Prop :=
  forall s, exists l, nodes (snd (m s)) = nodes s ++ l /\ l <> [].

(** The node is connected to something, or is an oscillator that runs. *)
Definition live (s : State) (id : nat) : Prop :=
  connected s id = true \/ sounding s id = true.

(** Every live node is a handle of [this.nodes], the master gain, or one of
    the nodes [X] a method is still working on. *)
Definition registered (X : list nat) (s : State) : Prop :=
  forall id, live s id -> In id (nodes s) \/ id = masterGain s \/ In id X.

(** Nodes that have been created. *)
Definition created (K : list nat) (s : State) : Prop :=
  Forall (fun id => (id < length (store s))%nat) K.

(** The master gain is the first node of the context and not an oscillator. *)
Definition master_ok (s : State) : Prop :=
  masterGain s = 0%nat /\
  exists n, store s !! 0%nat = Some n /\ is_oscillator (kind n) = false.

End AmbientRun.

(* ===================================================================== *)
(** * The player's visual mapping                                         *)
(* ===================================================================== *)

Module PlayerView.

Import Story Player.

Local Open Scope string_scope.

(** [getTransitionClasses(type)], for the present stage. *)
Definition getTransitionClasses (layoutStage : TransitionStage)
    (type : option TransitionType) : string :=
  let t := match type with Some t => t | None => fade end in
  match layoutStage with
  | enter =>
      match t with
      | slide_left => "translate-x-full opacity-0"
      | slide_right => "-translate-x-full opacity-0"
      | zoom_in => "scale-50 opacity-0"
      | zoom_out => "scale-150 opacity-0"
      | fade | no_transition => "opacity-0"
      end
  | exit =>
      match t with
      | slide_left => "-translate-x-full opacity-0"
      | slide_right => "translate-x-full opacity-0"
      | zoom_in => "scale-150 opacity-0"
      | zoom_out => "scale-50 opacity-0"
      | fade | no_transition => "opacity-0"
      end
  | active => "translate-x-0 scale-100 opacity-100"
  end.

Definition animationEffects : list string :=
  ["animate-kb-zoom-in"; "animate-kb-pan-right"; "animate-kb-zoom-out";
   "animate-kb-pan-left"].

(** [animationEffects[currentSceneIndex % animationEffects.length]] *)
Definition currentEffect (currentSceneIndex : nat) : option string :=
  animationEffects !! (currentSceneIndex mod length animationEffects)%nat.

(** The class of the image: the effect while playing, nothing otherwise. *)
Definition imageEffect (s : State) : option string :=
  if isPlaying s then currentEffect (currentSceneIndex s) else Some "".

(** The transition with the opposite motion. *)
Definition opposite (t : TransitionType) : TransitionType :=
  match t with
  | slide_left => slide_right
  | slide_right => slide_left
  | zoom_in => zoom_out
  | zoom_out => zoom_in
  | fade => fade
  | no_transition => no_transition
  end.

End PlayerView.

(* ===================================================================== *)
(** * The player: what the event loop holds                               *)
(* ===================================================================== *)

Module PlayerRun.

Import Story Player.

Definition is_frame (t : Task) : bool :=
  match t with FrameOuter | FrameInner => true | _ => false end.

(** The callbacks that move the story on: the fallback timeout, the
    transition timeout, the end of a narration. *)
Definition waits_of (q : list Pending) : list Pending :=
  List.filter (fun p => negb (is_frame (task p))) q.

Definition waits (s : State) : list Pending := waits_of (queue s).

(** The refs know the callback: [stopAudio] would cancel it. *)
Definition owned (s : State) (p : Pending) : Prop :=
  audioSourceRef s = Some (pid p) \/ transitionTimeoutRef s = Some (pid p).

(** A scene the story has (scene 0 is asked for even of an empty story). *)
Definition shown (s : State) (index : nat) : Prop :=
  (index < Nat.max 1 (length (scenes (story s))))%nat.

Definition in_range (s : State) (t : Task) : Prop :=
  match t with
  | TimeoutPlay index => shown s index
  | _ => True
  end.

(** At most one callback moves the story on, and the refs know it; the scene
    shown and the scenes to come are scenes of the story. *)
Definition tidy (s : State) : Prop :=
  (waits s = [] \/ exists p, waits s = [p] /\ owned s p) /\
  Forall (fun p => in_range s (task p)) (queue s) /\
  shown s (currentSceneIndex s).

End PlayerRun.

(* ===================================================================== *)
(** * The editor: the text of a number field                              *)
(* ===================================================================== *)

Module NumberText.

(** The text of an [<input type="number">] is empty or a decimal number: a
    sign, digits, then maybe a fraction or an exponent. *)
Definition is_digit (d : Z) : Prop := 0 <= d <= 9.

Definition digit_char (d : Z) : ascii := ascii_of_nat (Z.to_nat (48 + d)).

Definition minus : ascii := ascii_of_nat 45.

(** ['.'], ['e'] or ['E']: where the integer part ends. *)
Definition fraction_mark (c : ascii) : bool :=
  let n := nat_of_ascii c in
  ((n =? 46) || (n =? 101) || (n =? 69))%nat.

Definition number_of (ds : list Z) : Z := fold_left (fun a d => a * 10 + d) ds 0.

Definition number_text (neg : bool) (ds : list Z) (rest : list ascii) : string :=
  string_of_list_ascii
    ((if neg then [minus] else []) ++ map digit_char ds ++ rest).

End NumberText.

(* ===================================================================== *)
(** * Saving and loading back                                             *)
(* ===================================================================== *)

Module Draft.

Import Story.



(** ** Through the storage: [JSON.stringify], then [JSON.parse] *)








End Draft.

(* ===================================================================== *)
(** * The editor: reordering the scenes                                   *)
(* ===================================================================== *)

Module Reorder.

Import Story.

Inductive Direction := up | down.

Definition with_scenes (story : Story) (newScenes : list Scene) : Story :=
  mkStory (title story) newScenes (backgroundMusic story).

(** [[l[a], l[b]] = [l[b], l[a]]] on two places of the array. *)
Definition swap (l : list Scene) (a b : nat) : option (list Scene) :=
  match l !! a, l !! b with
  | Some x, Some y => Some (<[a := y]> (<[b := x]> l))
  | _, _ => None
  end.

(** [moveScene(index, direction)].  The rows are the scenes of the story; for
    an index past the end the source would leave a hole in the array, which
    is [None] here. *)
Definition moveScene (index : nat) (direction : Direction) (story : Story)
  : option Story :=
  match direction with
  | up =>
      if (0 <? index)%nat
      then with_scenes story <$> swap (scenes story) index (index - 1)
      else Some (with_scenes story (scenes story))
  | down =>
      if Z.of_nat index <? Z.of_nat (length (scenes story)) - 1
      then with_scenes story <$> swap (scenes story) index (index + 1)
      else Some (with_scenes story (scenes story))
  end.

(** [newScenes.splice(dropIndex, 0, movedScene)]: a start past the end is the
    end. *)
Definition splice_in (dropIndex : nat) (moved : Scene) (l : list Scene) : list Scene :=
  take dropIndex l ++ moved :: drop dropIndex l.

(** What the editor remembers of a drag in progress. *)
Record Drag := mkDrag {
  draggedIndex : option nat;
  dragOverIndex : option nat
}.

(** [handleDrop(e, dropIndex)]: the story after, and the drag state reset.
    A dragged index that names no row would drop [undefined] in the array:
    [None]. *)
Definition handleDrop (dropIndex : nat) (drag : Drag) (story : Story)
  : option Story * Drag :=
  (match draggedIndex drag with
   | Some d =>
       if (d =? dropIndex)%nat then Some story
       else match scenes story !! d with
            | Some movedScene =>
                Some (with_scenes story
                        (splice_in dropIndex movedScene (delete d (scenes story))))
            | None => None
            end
   | None => Some story
   end,
   mkDrag None None).

Definition handleDragStart (index : nat) (drag : Drag) : Drag :=
  mkDrag (Some index) (dragOverIndex drag).

Definition handleDragOver (index : nat) (drag : Drag) : Drag :=
  if decide (draggedIndex drag = Some index) then drag
  else mkDrag (draggedIndex drag) (Some index).

Definition handleDragLeave (drag : Drag) : Drag :=
  mkDrag (draggedIndex drag) None.

End Reorder.

(* ===================================================================== *)
(** * The exporter: caption wrapping                                      *)
(* ===================================================================== *)

Module Caption.

Definition space : ascii := ascii_of_nat 32.

(** [s.split(' ')]: the pieces between single spaces; there is always one. *)
Fixpoint split_spaces (s : string) : list string :=
  match s with
  | EmptyString => [""%string]
  | String c rest =>
      if Ascii.eqb c space then ""%string :: split_spaces rest
      else match split_spaces rest with
           | w :: ws => String c w :: ws
           | [] => [String c ""]
           end
  end.

Section Wrap.

(** [ctx.measureText(text).width], in the font of the caption. *)
Variable measure : string -> Q.

(** [WIDTH - 200] *)
Definition maxWidth : Q := 1920 - 200.

(** The body of the loop over the words, at word [n]. *)
Definition wrap_step (n : nat) (word : string) (acc : list string * string)
  : list string * string :=
  let (lines, line) := acc in
  let testLine := (line ++ word ++ " ")%string in
  if negb (Qle_bool (measure testLine) maxWidth) && (0 <? n)%nat
  then (lines ++ [line], (word ++ " ")%string)
  else (lines, testLine).

Fixpoint wrap_from (n : nat) (words : list string) (acc : list string * string)
  : list string * string :=
  match words with
  | [] => acc
  | w :: rest => wrap_from (S n) rest (wrap_step n w acc)
  end.

(** The lines of the caption of a scene. *)
Definition wrap (narrative : string) : list string :=
  let (lines, line) := wrap_from 0 (split_spaces narrative) ([], ""%string) in
  lines ++ [line].

(** Where line [idx] is drawn: [HEIGHT - 120 + idx * 50]. *)
Definition line_y (idx : nat) : Z := 1080 - 120 + Z.of_nat idx * 50.

End Wrap.

Fixpoint concat_strings (l : list string) : string :=
  match l with
  | [] => ""%string
  | s :: rest => (s ++ concat_strings rest)%string
  end.

(** A single word followed by its space. *)
Definition single_word (line : string) : Prop :=
  exists w, line = (w ++ " ")%string /\ forall c, In c (list_ascii_of_string w) -> c <> space.

(** The words, each followed by a space. *)
Definition spaced (words : list string) : string :=
  concat_strings (map (fun w => (w ++ " ")%string) words).

(** A line that can be drawn: within the width, or one word that is alone on
    its line. *)
Definition fits (measure : string -> Q) (line : string) : Prop :=
  (measure line <= maxWidth)%Q \/ single_word line.

End Caption.

(* ===================================================================== *)
(** * The name of the file offered for download                           *)
(* ===================================================================== *)

Module FileName.

(** The titles considered are made of 7-bit characters; on those the two
    string methods are the functions below. *)
Definition is_ascii7 (c : ascii) : Prop := (nat_of_ascii c < 128)%nat.

(** [\s] on 7-bit characters: tab, line feed, vertical tab, form feed,
    carriage return, space. *)
Definition is_space (c : ascii) : bool :=
  let n := nat_of_ascii c in
  ((9 <=? n) && (n <=? 13) || (n =? 32))%nat.

Definition is_upper (c : ascii) : bool :=
  let n := nat_of_ascii c in ((65 <=? n) && (n <=? 90))%nat.

(** [title.toLowerCase()] *)
Definition toLowerCase (l : list ascii) : list ascii :=
  map (fun c => if is_upper c then ascii_of_nat (nat_of_ascii c + 32) else c) l.

Definition dash : ascii := ascii_of_nat 45.

(** [.replace(/\s+/g, '-')]: every maximal run of white space becomes one
    dash.  [in_run] tells that the character before was white space. *)
Fixpoint replace_spaces (in_run : bool) (l : list ascii) : list ascii :=
  match l with
  | [] => []
  | c :: rest =>
      if is_space c
      then (if in_run then replace_spaces true rest
            else dash :: replace_spaces true rest)
      else c :: replace_spaces false rest
  end.

(** The stem of the name: the exporter adds [.webm], the editor
    [.kokostream]. *)
Definition stem (title : string) : list ascii :=
  replace_spaces false (toLowerCase (list_ascii_of_string title)).

Definition download_name (title extension : string) : string :=
  (string_of_list_ascii (stem title) ++ extension)%string.

End FileName.

(* ===================================================================== *)
(** * The exporter: what the scene loop ends with                         *)
(* ===================================================================== *)

Module ExportRun.

Import Story Exporter.

(** Events that carry every scene to its end: for each scene the load of its
    image at [t], then its timer as soon as its delay has passed. *)
Fixpoint smooth_run (t : Z) (scs : list Scene) : list Event :=
  match scs with
  | [] => []
  | sc :: rest =>
      ImageLoad t :: TimerFired (t + timeout_delay (sceneDuration_of sc))
        :: smooth_run (t + timeout_delay (sceneDuration_of sc)) rest
  end.

(** A whole number of milliseconds that reaches a millisecond or more past
    the end of the scene. *)
Definition past_the_end (sc : Scene) : Z := Qceiling (sceneDuration_of sc) + 1.

(** The same with frames that keep up: a frame of each scene comes past the
    end of the scene, and the scene's timer callback runs after it. *)
Fixpoint paced_run (t : Z) (scs : list Scene) : list Event :=
  match scs with
  | [] => []
  | sc :: rest =>
      ImageLoad t :: AnimationFrame (t + past_the_end sc)
        :: TimerFired (t + past_the_end sc)
        :: paced_run (t + past_the_end sc) rest
  end.

(** Timestamps never go back. *)
Fixpoint nondecreasing (t : Z) (evs : list Event) : Prop :=
  match evs with
  | [] => True
  | e :: rest => t <= ev_time e /\ nondecreasing (ev_time e) rest
  end.

Definition le_frames (f g : FrameLog) : Prop := (f_reported f <= f_reported g)%Q.

(** Every element of the list is related to the ones after it. *)
Fixpoint ascending (l : list FrameLog) : Prop :=
  match l with
  | [] => True
  | f :: rest => Forall (le_frames f) rest /\ ascending rest
  end.

(** The reported value is a percentage. *)
Definition within (f : FrameLog) : Prop :=
  (0 <= f_reported f)%Q /\ (f_reported f <= 100)%Q.

(** The scenes that carry narration, by index, from index [k] on. *)
Fixpoint narrated_from (k : nat) (scs : list Scene) : list nat :=
  match scs with
  | [] => []
  | sc :: rest =>
      match audioData sc with
      | Some _ => k :: narrated_from (S k) rest
      | None => narrated_from (S k) rest
      end
  end.

(** With a started recorder the loop is either open (recording, not done,
    nothing offered, a scene at hand) or closed (done, recorder and drone
    stopped, one file offered). *)
Definition session (s : State) : Prop :=
  match phase s with
  | WrappedUp =>
      isDone s = true /\ recording s = false /\ musicSource s = false /\
      downloads s = 1%nat
  | Mounted => False
  | _ =>
      isDone s = false /\ recording s = true /\ downloads s = 0%nat /\
      (i s < length (scenes (story s)))%nat
  end.

(** Without a recorder nothing is ever offered or marked done. *)
Definition unrecorded (s : State) : Prop :=
  isDone s = false /\ recording s = false /\ downloads s = 0%nat.

(** What the frames so far have reported stays below what the scene at hand
    can report at time [tnow]. *)
Definition ceiling (tnow : Z) (s : State) : Q :=
  match phase s with
  | Rendering startTime sceneDuration _ =>
      reported_progress (i s) (intra_progress tnow startTime sceneDuration)
                        (length (scenes (story s)))
  | _ => reported_progress (i s) 0 (length (scenes (story s)))
  end.

Definition paced (tnow : Z) (s : State) : Prop :=
  match phase s with
  | Rendering startTime sceneDuration _ =>
      startTime <= tnow /\ (0 < sceneDuration)%Q /\
      (i s < length (scenes (story s)))%nat
  | AwaitImage => (i s < length (scenes (story s)))%nat
  | Mounted | WrappedUp => True
  end.

Definition steady (tnow : Z) (s : State) : Prop :=
  paced tnow s /\
  ascending (rendered s) /\
  Forall within (rendered s) /\
  (phase s <> WrappedUp ->
   Forall (fun f => (f_reported f <= ceiling tnow s)%Q) (rendered s)) /\
  (0 <= progress s)%Q /\ (progress s <= 100)%Q.

End ExportRun.
(* ===================================================================== *)
(** * Properties of the narration decoder                                 *)
(* ===================================================================== *)

Module PcmFacts.
Import Pcm.

Lemma list_ind3 {A} (P : list A -> Prop) :
  P [] -> (forall x, P [x]) -> (forall x y, P [x; y]) ->
  (forall x y z l, P l -> P (x :: y :: z :: l)) ->
  forall l, P l.
Proof.
  intros H0 H1 H2 H3.
  assert (Hall : forall l, P l /\ (forall x, P (x :: l)) /\ (forall x y, P (x :: y :: l))).
  { induction l as [|a l (IH0 & IH1 & IH2)]; [auto|].
    repeat split; auto. }
  intros l; apply Hall.
Qed.

Lemma sextet_enum (P : Z -> Prop) :
  (forall n : nat, (n < 64)%nat -> P (Z.of_nat n)) -> forall v, is_sextet v -> P v.
Proof.
  intros H v [Hl Hu]. rewrite <- (Z2Nat.id v) by lia. apply H. lia.
Qed.

Lemma sextet_of_char_of_sextet v :
  is_sextet v -> sextet_of_char (char_of_sextet v) = Some v.
Proof.
  revert v. apply sextet_enum. intros n Hn.
  do 64 (destruct n as [|n]; [reflexivity|]). lia.
Qed.

Lemma char_of_sextet_plain v :
  is_sextet v ->
  is_ascii_whitespace (char_of_sextet v) = false /\ is_pad (char_of_sextet v) = false.
Proof.
  revert v. apply sextet_enum. intros n Hn.
  do 64 (destruct n as [|n]; [split; reflexivity|]). lia.
Qed.

Lemma sextets_of_bytes_range l :
  Forall is_byte l -> Forall is_sextet (sextets_of_bytes l).
Proof.
  induction l using list_ind3; intros Hb; cbn [sextets_of_bytes];
    repeat match goal with H : Forall _ (_ :: _) |- _ => inversion_clear H end;
    repeat (constructor; [ unfold is_byte, is_sextet in *; Z.div_mod_to_equations; lia | ]);
    auto.
Qed.

Lemma bytes_of_sextets_of_bytes l :
  Forall is_byte l -> bytes_of_sextets (sextets_of_bytes l) = l.
Proof.
  induction l using list_ind3; intros Hb;
    repeat match goal with H : Forall _ (_ :: _) |- _ => inversion_clear H end;
    unfold is_byte in *.
  - reflexivity.
  - cbn [sextets_of_bytes bytes_of_sextets]. f_equal.
    Z.div_mod_to_equations; lia.
  - cbn [sextets_of_bytes bytes_of_sextets].
    f_equal; [|f_equal]; Z.div_mod_to_equations; lia.
  - cbn [sextets_of_bytes bytes_of_sextets]. rewrite IHl by assumption.
    f_equal; [|f_equal; [|f_equal]]; Z.div_mod_to_equations; lia.
Qed.


Lemma mod3_step (n : nat) : (S (S (S n)) mod 3 = n mod 3)%nat.
Proof.
  replace (S (S (S n))) with (n + 1 * 3)%nat by lia. apply Nat.Div0.mod_add.
Qed.

(** Length of the encoded body and of its padding, by the length of the
    input modulo 3. *)
Lemma encoded_shape l :
  exists k : nat,
    (padding l = [] /\ length (sextets_of_bytes l) = 4 * k)%nat \/
    (padding l = [pad_char; pad_char] /\ length (sextets_of_bytes l) = 4 * k + 2)%nat \/
    (padding l = [pad_char] /\ length (sextets_of_bytes l) = 4 * k + 3)%nat.
Proof.
  induction l using list_ind3.
  - exists 0%nat. left. split; reflexivity.
  - exists 0%nat. right; left. split; reflexivity.
  - exists 0%nat. right; right. split; reflexivity.
  - destruct IHl as [k IH]. exists (S k).
    unfold padding in *. cbn [length sextets_of_bytes]. rewrite mod3_step.
    destruct IH as [[-> ->] | [[-> ->] | [-> ->]]]; [left | right; left | right; right];
      split; auto; lia.
Qed.

Lemma filter_keep {A} (f : A -> bool) l :
  Forall (fun x => f x = true) l -> List.filter f l = l.
Proof.
  induction 1 as [|x l Hx _ IH]; cbn [List.filter]; [reflexivity|].
  rewrite Hx, IH. reflexivity.
Qed.

Lemma strip_padding_plain body :
  Forall (fun c => is_pad c = false) body -> strip_padding body = body.
Proof.
  intros Hb. unfold strip_padding.
  pose proof (List.Forall_rev Hb) as Hr.
  destruct (rev body) as [|p1 [|p2 r]]; [reflexivity| |];
    inversion_clear Hr as [|? ? Hp1 _]; rewrite Hp1; reflexivity.
Qed.

Lemma strip_padding_one body :
  Forall (fun c => is_pad c = false) body ->
  strip_padding (body ++ [pad_char]) = body.
Proof.
  intros Hb. unfold strip_padding. rewrite rev_app_distr. cbn [rev app].
  pose proof (List.Forall_rev Hb) as Hr.
  destruct (rev body) as [|p2 r] eqn:E.
  - apply (f_equal (@rev ascii)) in E. rewrite rev_involutive in E. subst body.
    reflexivity.
  - inversion_clear Hr as [|? ? Hp2 _].
    change (is_pad pad_char) with true. cbv iota. rewrite Hp2.
    change (rev r ++ [p2]) with (rev (p2 :: r)).
    rewrite <- E. apply rev_involutive.
Qed.

Lemma strip_padding_two body :
  strip_padding (body ++ [pad_char; pad_char]) = body.
Proof.
  unfold strip_padding. rewrite rev_app_distr. cbn [rev app].
  change (is_pad pad_char) with true. cbv iota. apply rev_involutive.
Qed.

Lemma mapM_sextets l :
  Forall is_sextet l -> mapM sextet_of_char (map char_of_sextet l) = Some l.
Proof.
  induction 1 as [|v l Hv _ IH]; [reflexivity|].
  cbn [map mapM]. rewrite (sextet_of_char_of_sextet v Hv). cbn.
  rewrite IH. reflexivity.
Qed.

Lemma atob_btoa l : Forall is_byte l -> atob (btoa l) = Some l.
Proof.
  intros Hb. unfold atob, btoa. rewrite list_ascii_of_string_of_list_ascii.
  pose proof (sextets_of_bytes_range l Hb) as Hs.
  set (body := map char_of_sextet (sextets_of_bytes l)).
  assert (Hplain : Forall (fun c => is_ascii_whitespace c = false /\ is_pad c = false) body).
  { subst body. apply List.Forall_map. eapply Forall_impl; [exact Hs|].
    intros v Hv. apply char_of_sextet_plain, Hv. }
  assert (Hnp : Forall (fun c => is_pad c = false) body)
    by (eapply Forall_impl; [exact Hplain|]; intros c Hc; apply Hc).
  assert (Hlen : length body = length (sextets_of_bytes l))
    by (subst body; apply length_map).
  rewrite filter_keep.
  2:{ apply Forall_app. split.
      - eapply Forall_impl; [exact Hplain|]. intros c [-> _]. reflexivity.
      - unfold padding. destruct (length l mod 3)%nat as [|[|[|?]]];
          repeat constructor. }
  destruct (encoded_shape l) as [k [[Hp Hk] | [[Hp Hk] | [Hp Hk]]]]; rewrite Hp.
  - rewrite app_nil_r.
    replace (Z.of_nat (length body) mod 4 =? 0) with true
      by (symmetry; apply Z.eqb_eq; rewrite Hlen, Hk; Z.div_mod_to_equations; lia).
    rewrite strip_padding_plain by assumption.
    replace (Z.of_nat (length body) mod 4 =? 1) with false
      by (symmetry; apply Z.eqb_neq; rewrite Hlen, Hk; Z.div_mod_to_equations; lia).
    subst body. rewrite mapM_sextets by assumption. cbn.
    rewrite bytes_of_sextets_of_bytes by assumption. reflexivity.
  - replace (Z.of_nat (length (body ++ [pad_char; pad_char])) mod 4 =? 0) with true
      by (symmetry; apply Z.eqb_eq; rewrite length_app, Hlen, Hk; cbn [length];
          Z.div_mod_to_equations; lia).
    rewrite strip_padding_two.
    replace (Z.of_nat (length body) mod 4 =? 1) with false
      by (symmetry; apply Z.eqb_neq; rewrite Hlen, Hk; Z.div_mod_to_equations; lia).
    subst body. rewrite mapM_sextets by assumption. cbn.
    rewrite bytes_of_sextets_of_bytes by assumption. reflexivity.
  - replace (Z.of_nat (length (body ++ [pad_char])) mod 4 =? 0) with true
      by (symmetry; apply Z.eqb_eq; rewrite length_app, Hlen, Hk; cbn [length];
          Z.div_mod_to_equations; lia).
    rewrite strip_padding_one by assumption.
    replace (Z.of_nat (length body) mod 4 =? 1) with false
      by (symmetry; apply Z.eqb_neq; rewrite Hlen, Hk; Z.div_mod_to_equations; lia).
    subst body. rewrite mapM_sextets by assumption. cbn.
    rewrite bytes_of_sextets_of_bytes by assumption. reflexivity.
Qed.


(** *** PCM words *)

Lemma pcm16le_encode_bytes samples : Forall is_byte (pcm16le_encode samples).
Proof.
  induction samples as [|s l IH]; cbn [pcm16le_encode flat_map app]; [constructor|].
  unfold is_byte, bits_of_int16 in *.
  constructor; [Z.div_mod_to_equations; lia|].
  constructor; [Z.div_mod_to_equations; lia|]. exact IH.
Qed.

Lemma int16_bits_roundtrip s :
  is_int16 s ->
  int16_of_bits (bits_of_int16 s mod 256 + 256 * (bits_of_int16 s / 256)) = s.
Proof.
  unfold is_int16, int16_of_bits, bits_of_int16. intros Hs.
  rewrite (Z.add_comm _ (256 * _)), <- Z.div_mod by lia.
  destruct (Z.ltb_spec (s mod 65536) 32768); Z.div_mod_to_equations; lia.
Qed.

Lemma Int16Array_encode samples :
  Forall is_int16 samples -> Int16Array (pcm16le_encode samples) = Some samples.
Proof.
  induction 1 as [|s l Hs _ IH]; [reflexivity|].
  cbn [pcm16le_encode flat_map app Int16Array].
  change (flat_map _ l) with (pcm16le_encode l). rewrite IH. cbn.
  rewrite int16_bits_roundtrip by assumption. reflexivity.
Qed.

Lemma uint8_store_bytes l : Forall is_byte l -> map uint8_store l = l.
Proof.
  induction 1 as [|b l Hb _ IH]; [reflexivity|].
  cbn [map]. rewrite IH. f_equal. unfold uint8_store, is_byte in *.
  apply Z.mod_small. lia.
Qed.

Lemma uint8_store_is_byte l : Forall is_byte (map uint8_store l).
Proof.
  apply List.Forall_map. apply Forall_forall. intros v _.
  unfold is_byte, uint8_store. apply Z.mod_pos_bound. lia.
Qed.

Lemma int16_of_bits_range lo hi :
  is_byte lo -> is_byte hi -> is_int16 (int16_of_bits (lo + 256 * hi)).
Proof.
  unfold is_byte, is_int16, int16_of_bits. intros Hlo Hhi.
  destruct (Z.ltb_spec (lo + 256 * hi) 32768); lia.
Qed.

(** What the [Int16Array] view holds: word [k] is made of bytes [2k] (low)
    and [2k+1] (high). *)
Lemma Int16Array_words bytes : forall pcm,
  Int16Array bytes = Some pcm ->
  length bytes = (2 * length pcm)%nat /\
  (forall k, (k < length pcm)%nat ->
     nth k pcm 0 = int16_of_bits (nth (2 * k) bytes 0 + 256 * nth (2 * k + 1) bytes 0)) /\
  (Forall is_byte bytes -> Forall is_int16 pcm).
Proof.
  assert (Hgen : forall n bytes, (length bytes <= n)%nat -> forall pcm,
    Int16Array bytes = Some pcm ->
    length bytes = (2 * length pcm)%nat /\
    (forall k, (k < length pcm)%nat ->
       nth k pcm 0 = int16_of_bits (nth (2 * k) bytes 0 + 256 * nth (2 * k + 1) bytes 0)) /\
    (Forall is_byte bytes -> Forall is_int16 pcm)).
  { induction n as [|n IH]; intros [|lo [|hi rest]] Hlen pcm Hdec;
      cbn [length] in Hlen; try lia; cbn [Int16Array] in Hdec.
    - injection Hdec as <-. repeat split; [cbn; intros; lia | constructor].
    - injection Hdec as <-. repeat split; [cbn; intros; lia | constructor].
    - discriminate.
    - destruct (Int16Array rest) as [tl|] eqn:Etl; [|discriminate].
      cbn in Hdec. injection Hdec as <-.
      destruct (IH rest ltac:(lia) tl Etl) as (Hl & Hw & Hr).
      split; [cbn [length]; lia|]. split.
      + intros [|k] Hk; [reflexivity|]. cbn [length] in Hk.
        replace (2 * S k)%nat with (S (S (2 * k))) by lia.
        replace (S (S (2 * k)) + 1)%nat with (S (S (2 * k + 1))) by lia.
        cbn [nth]. apply Hw. lia.
      + intros Hb. inversion_clear Hb as [|? ? Hlo Hb']. inversion_clear Hb' as [|? ? Hhi Hb].
        constructor; [apply int16_of_bits_range; assumption | auto]. }
  intros pcm. apply (Hgen (length bytes)). lia.
Qed.

(** *** Samples *)

Lemma pcm_to_float_eq s : pcm_to_float s = (s # 32768)%Q.
Proof.
  unfold pcm_to_float, Qdiv, Qmult, Qinv, inject_Z. cbn.
  rewrite Z.mul_1_r. reflexivity.
Qed.

(** The quotient is the dyadic rational [s * 2^-15] with [|s| <= 2^15]: it
    fits a 24-bit significand, so the division and the store into a
    [Float32Array] round nothing. *)
Lemma pcm_to_float_dyadic s :
  is_int16 s ->
  (pcm_to_float s == inject_Z s * (1 # 2 ^ 15))%Q /\ Z.abs s <= 2 ^ 15 < 2 ^ 24.
Proof.
  intros Hs. split.
  - rewrite pcm_to_float_eq. unfold Qeq, Qmult, inject_Z. cbn. lia.
  - unfold is_int16 in Hs. cbn. lia.
Qed.

Lemma pcm_to_float_range s :
  is_int16 s -> (- (1) <= pcm_to_float s /\ pcm_to_float s <= 1)%Q.
Proof.
  unfold is_int16. intros Hs. rewrite pcm_to_float_eq.
  unfold Qle. cbn. lia.
Qed.

Lemma map_nth_seq {A B} (f : A -> B) d l :
  map (fun i => f (nth i l d)) (seq 0 (length l)) = map f l.
Proof.
  induction l as [|a l IH]; [reflexivity|].
  cbn [length seq map nth]. f_equal.
  rewrite <- seq_shift, map_map. exact IH.
Qed.

Lemma channel_samples_mono pcm :
  channel_samples pcm 1 (length pcm) 0 = map pcm_to_float pcm.
Proof.
  unfold channel_samples, int16_get.
  rewrite <- (map_nth_seq pcm_to_float 0 pcm).
  apply map_ext. intros i. rewrite Nat.mul_1_r, Nat.add_0_r. reflexivity.
Qed.

Lemma decodeAudioData_mono data pcm :
  Int16Array data = Some pcm -> pcm <> [] ->
  decodeAudioData_default data = Some (expected_buffer pcm).
Proof.
  intros Hdec Hne. unfold decodeAudioData_default, decodeAudioData.
  rewrite Hdec. cbn [mbind option_bind Nat.eqb].
  rewrite Nat.div_1_r.
  destruct pcm as [|s pcm]; [congruence|].
  cbn [length Nat.eqb seq map]. unfold expected_buffer.
  rewrite <- (channel_samples_mono (s :: pcm)). reflexivity.
Qed.

Lemma decodeAudioData_inv data buf :
  decodeAudioData_default data = Some buf ->
  exists pcm, Int16Array data = Some pcm /\ pcm <> [] /\ buf = expected_buffer pcm.
Proof.
  intros H.
  assert (exists pcm, Int16Array data = Some pcm) as [pcm E].
  { unfold decodeAudioData_default, decodeAudioData in H.
    destruct (Int16Array data); [eauto | discriminate]. }
  exists pcm. split; [exact E|].
  destruct pcm as [|s pcm].
  { unfold decodeAudioData_default, decodeAudioData in H. rewrite E in H.
    discriminate. }
  split; [discriminate|].
  rewrite (decodeAudioData_mono _ _ E) in H by discriminate. congruence.
Qed.

(** C2. Decoding a narration payload ([decodeBase64], then [decodeAudioData]
    at 24000 Hz mono) yields one channel whose samples are the 16-bit
    little-endian PCM words of the payload divided by 32768, all within
    [-1, 1]; and encoding known 16-bit samples, then decoding them, gives
    back every sample divided by 32768.  The quotient is written out, so
    that the statement fixes the value of every sample. *)
Theorem narration_decode_roundtrip :
  (forall payload buf,
     decodeNarration payload = Some buf ->
     exists bytes pcm,
       decodeBase64 payload = Some bytes /\
       Int16Array bytes = Some pcm /\
       length bytes = (2 * length pcm)%nat /\
       (forall k, (k < length pcm)%nat ->
          nth k pcm 0 =
          int16_of_bits (nth (2 * k) bytes 0 + 256 * nth (2 * k + 1) bytes 0)) /\
       buf = mkAudioBuffer 24000 1 (length pcm)
               [map (fun s => inject_Z s / inject_Z 32768)%Q pcm] /\
       Forall (fun x => - (1) <= x /\ x <= 1)%Q
              (map (fun s => inject_Z s / inject_Z 32768)%Q pcm)) /\
  (forall samples,
     samples <> [] -> Forall is_int16 samples ->
     decodeNarration (btoa (pcm16le_encode samples)) =
     Some (mkAudioBuffer 24000 1 (length samples)
             [map (fun s => inject_Z s / inject_Z 32768)%Q samples])).
Proof.
  change (fun s : Z => (inject_Z s / inject_Z 32768)%Q) with pcm_to_float.
  split.
  - intros payload buf H. unfold decodeNarration in H.
    destruct (decodeBase64 payload) as [bytes|] eqn:Eb; [|discriminate].
    cbn in H. apply decodeAudioData_inv in H. destruct H as (pcm & Hpcm & _ & ->).
    destruct (Int16Array_words bytes pcm Hpcm) as (Hl & Hw & Hr).
    exists bytes, pcm. repeat split; auto.
    apply List.Forall_map. eapply Forall_impl; [apply Hr|].
    + unfold decodeBase64 in Eb. destruct (atob payload); [|discriminate].
      injection Eb as <-. apply uint8_store_is_byte.
    + intros s Hs. apply pcm_to_float_range, Hs.
  - intros samples Hne Hs. unfold decodeNarration, decodeBase64.
    rewrite atob_btoa by apply pcm16le_encode_bytes.
    cbn [mbind option_bind]. rewrite uint8_store_bytes by apply pcm16le_encode_bytes.
    apply decodeAudioData_mono; [apply Int16Array_encode; assumption | assumption].
Qed.

Lemma narration_decode_roundtrip_witness :
  decodeNarration "AAABAP///38AgA=="%string =
    Some (mkAudioBuffer 24000 1 5
            [[0 # 32768; 1 # 32768; -1 # 32768; 32767 # 32768; -32768 # 32768]%Q]) /\
  exists bytes pcm,
    decodeBase64 "AAABAP///38AgA=="%string = Some bytes /\
    Int16Array bytes = Some pcm /\
    Forall (fun x => - (1) <= x /\ x <= 1)%Q
           (map (fun s => inject_Z s / inject_Z 32768)%Q pcm).
Proof.
  split.
  - refine (proj2 narration_decode_roundtrip [0; 1; -1; 32767; -32768] _ _).
    + discriminate.
    + repeat constructor; unfold is_int16; lia.
  - destruct (proj1 narration_decode_roundtrip "AAABAP///38AgA=="%string
                (mkAudioBuffer 24000 1 5
                   [map (fun s => inject_Z s / inject_Z 32768)%Q
                        [0; 1; -1; 32767; -32768]])
                eq_refl) as (bytes & pcm & Hb & Hp & _ & _ & _ & Hr).
    exists bytes, pcm. auto.
Defined.
End PcmFacts.

(* ===================================================================== *)
(** * Properties of the ambient synthesizer                               *)
(* ===================================================================== *)

Module AmbientFacts.

Import Ambient.
Export AmbientInv.

(** ** The event loop *)

Lemma filter_drop {A} (f : A -> bool) l :
  Forall (fun x => f x = false) l -> List.filter f l = [].
Proof.
  induction 1 as [|x l Hx _ IH]; cbn [List.filter]; [reflexivity|].
  rewrite Hx. exact IH.
Qed.

(** When every pending callback is due, all of them run. *)
Lemma advance_to_all_due t s :
  Forall (fun d => (d <= t)%Z) (timers s) ->
  advance_to t s =
  (let s' := fold_left (fun acc d => teardown (at_time d acc)) (timers s)
                       (with_timers [] s) in
   at_time (Z.max t (now s')) s').
Proof.
  intros Hdue. unfold advance_to.
  rewrite (PcmFacts.filter_keep (fun d => (d <=? t)%Z)).
  2:{ eapply Forall_impl; [exact Hdue|]. intros d Hd. apply Z.leb_le, Hd. }
  rewrite filter_drop; [reflexivity|].
  eapply Forall_impl; [exact Hdue|]. intros d Hd. cbv beta.
  apply negb_false_iff, Z.leb_le, Hd.
Qed.

(** When none is due, only the clock moves. *)
Lemma advance_to_none_due t s :
  Forall (fun d => (t < d)%Z) (timers s) ->
  advance_to t s = at_time (Z.max t (now s)) s.
Proof.
  intros Hnot. unfold advance_to.
  rewrite filter_drop.
  2:{ eapply Forall_impl; [exact Hnot|]. intros d Hd. apply Z.leb_gt, Hd. }
  rewrite PcmFacts.filter_keep.
  2:{ eapply Forall_impl; [exact Hnot|]. intros d Hd. cbv beta.
      apply negb_true_iff, Z.leb_gt, Hd. }
  cbn [fold_left]. destruct s; reflexivity.
Qed.

(** ** Running the methods step by step *)

Lemma exec_bind {A B} (m : M A) (f : A -> M B) s :
  exec (m ≫= f) s = exec (f (fst (m s))) (snd (m s)).
Proof. unfold exec, mbind, M_bind. destruct (m s); reflexivity. Qed.

Lemma exec_ret {A} (a : A) s : exec (mret a) s = s.
Proof. reflexivity. Qed.

(** ** Nodes ready to be torn down

    A handle is ready when it names a node of the context and, if that node
    is an oscillator, [start] has been called on it: then [stop()] does not
    throw and the [disconnect()] after it is reached. *)

Lemma le_refl s : le s s.
Proof. intros id n H. exists n. auto. Qed.

Lemma le_trans s1 s2 s3 : le s1 s2 -> le s2 s3 -> le s1 s3.
Proof.
  intros H12 H23 id n H.
  destruct (H12 id n H) as (n2 & H2 & Hk2 & Hs2).
  destruct (H23 id n2 H2) as (n3 & H3 & Hk3 & Hs3).
  exists n3. repeat split; [assumption | congruence | auto].
Qed.

Lemma le_same_store s s' : store s' = store s -> le s s'.
Proof. intros E id n H. exists n. rewrite E. auto. Qed.

Lemma known_le s s' id : le s s' -> known s id -> known s' id.
Proof. intros Hle [n Hn]. destruct (Hle id n Hn) as (n' & Hn' & _). exists n'. exact Hn'. Qed.

Lemma ready_le s s' id : le s s' -> ready s id -> ready s' id.
Proof.
  intros Hle (n & Hn & Hosc). destruct (Hle id n Hn) as (n' & Hn' & Hk & Hs).
  exists n'. split; [exact Hn'|]. rewrite Hk. auto.
Qed.

Lemma Inv_le s s' : le s s' -> nodes s' = nodes s -> Inv s -> Inv s'.
Proof.
  unfold Inv. intros Hle -> HI. eapply Forall_impl; [exact HI|].
  intros id. apply ready_le, Hle.
Qed.

(** *** The primitives *)

Lemma create_step k s :
  le s (snd (create k s)) /\ nodes (snd (create k s)) = nodes s /\
  known (snd (create k s)) (fst (create k s)) /\
  (is_oscillator k = false -> ready (snd (create k s)) (fst (create k s))).
Proof.
  cbn [create fst snd store nodes]. repeat split.
  - intros id n H. exists n. cbn [store]. rewrite lookup_app_l; [auto|].
    apply lookup_lt_Some in H. exact H.
  - unfold known. cbn [store]. rewrite list_lookup_middle by reflexivity. eauto.
  - intros Hk. exists (mkNode k None None). cbn [store kind].
    rewrite list_lookup_middle by reflexivity. split; [reflexivity | congruence].
Qed.

Lemma update_node_lookup id f st j :
  update_node id f st !! j =
  if decide (id = j) then f <$> st !! j else st !! j.
Proof.
  unfold update_node. destruct (st !! id) as [n|] eqn:E.
  - destruct (decide (id = j)) as [<-|Hne].
    + rewrite list_lookup_insert_eq by (eapply lookup_lt_Some; exact E).
      rewrite E. reflexivity.
    + apply list_lookup_insert_ne. exact Hne.
  - destruct (decide (id = j)) as [<-|Hne]; [rewrite E|]; reflexivity.
Qed.

Lemma start_step id w s :
  le s (snd (start id w s)) /\ nodes (snd (start id w s)) = nodes s /\
  (known s id -> ready (snd (start id w s)) id).
Proof.
  cbn [start fst snd store nodes]. repeat split.
  - intros j n H. cbn [store]. rewrite update_node_lookup.
    destruct (decide (id = j)) as [<-|_]; [|exists n; auto].
    rewrite H. cbn. eexists. split; [reflexivity|]. cbn. split; [reflexivity | congruence].
  - intros [n Hn]. eexists. cbn [store]. rewrite update_node_lookup.
    rewrite decide_True by reflexivity. rewrite Hn. cbn. split; [reflexivity|].
    cbn. congruence.
Qed.

Lemma push_step id s :
  store (snd (push id s)) = store s /\ nodes (snd (push id s)) = nodes s ++ [id].
Proof. split; reflexivity. Qed.

Lemma push_Inv id s : Inv s -> ready s id -> Inv (snd (push id s)).
Proof.
  unfold Inv. intros HI Hr. cbn [push snd nodes].
  apply Forall_app. split.
  - eapply Forall_impl; [exact HI|]. intros j Hj. exact Hj.
  - constructor; [exact Hr | constructor].
Qed.

(** *** Triples over the state monad *)

Lemma triple_bind {A B} P (m : M A) Q (f : A -> M B) R :
  triple P m Q -> (forall a, triple (Q a) (f a) R) -> triple P (m ≫= f) R.
Proof.
  intros Hm Hf s HP. specialize (Hm s HP).
  unfold mbind, M_bind. destruct (m s) as [a s1]. cbn [fst snd] in *.
  apply Hf, Hm.
Qed.

Lemma triple_ret {A} (a : A) (P : A -> State -> Prop) : triple (P a) (mret a) P.
Proof. intros s HP. exact HP. Qed.

Lemma triple_weaken {A} (P : State -> Prop) (m : M A) (Q Q' : A -> State -> Prop) :
  triple P m Q -> (forall a s, Q a s -> Q' a s) -> triple P m Q'.
Proof. intros H HQ s HP. apply HQ, H, HP. Qed.

Lemma holds_step s0 R K s s' :
  le s s' -> nodes s' = nodes s -> holds s0 R K s -> holds s0 R K s'.
Proof.
  intros Hle Hn (H0 & HI & HR & HK). repeat split.
  - eapply le_trans; eassumption.
  - eapply Inv_le; eassumption.
  - eapply Forall_impl; [exact HR|]. intros id. apply ready_le, Hle.
  - eapply Forall_impl; [exact HK|]. intros id. apply known_le, Hle.
Qed.

Lemma holds_forget s0 R K s : holds s0 R K s -> holds s0 [] [] s.
Proof. intros (H0 & HI & _ & _). repeat split; auto. Qed.

Lemma triple_frame {A} (m : M A) s0 R K :
  (forall s, store (snd (m s)) = store s /\ nodes (snd (m s)) = nodes s) ->
  triple (holds s0 R K) m (fun _ => holds s0 R K).
Proof.
  intros Hm s H. destruct (Hm s) as [Hst Hn].
  eapply holds_step; [apply le_same_store, Hst | exact Hn | exact H].
Qed.

Lemma triple_create_plain k s0 R K :
  is_oscillator k = false ->
  triple (holds s0 R K) (create k) (fun a => holds s0 (a :: R) K).
Proof.
  intros Hk s H. destruct (create_step k s) as (Hle & Hn & _ & Hr).
  pose proof (holds_step s0 R K s _ Hle Hn H) as (H0 & HI & HR & HK).
  repeat split; auto.
Qed.

Lemma triple_create_osc k s0 R K :
  triple (holds s0 R K) (create k) (fun a => holds s0 R (a :: K)).
Proof.
  intros s H. destruct (create_step k s) as (Hle & Hn & Hkn & _).
  pose proof (holds_step s0 R K s _ Hle Hn H) as (H0 & HI & HR & HK).
  repeat split; auto.
Qed.

Lemma triple_start id w s0 R K :
  In id K ->
  triple (holds s0 R K) (start id w) (fun _ => holds s0 (id :: R) K).
Proof.
  intros Hin s H. destruct (start_step id w s) as (Hle & Hn & Hr).
  assert (Hk : known s id).
  { destruct H as (_ & _ & _ & HK). rewrite List.Forall_forall in HK. auto. }
  pose proof (holds_step s0 R K s _ Hle Hn H) as (H0 & HI & HR & HK).
  repeat split; auto.
Qed.

Lemma triple_push id s0 R K :
  In id R ->
  triple (holds s0 R K) (push id) (fun _ => holds s0 R K).
Proof.
  intros Hin s (H0 & HI & HR & HK).
  assert (Hr : ready s id) by (rewrite List.Forall_forall in HR; auto).
  repeat split.
  - eapply le_trans; [exact H0 | apply le_same_store; reflexivity].
  - apply push_Inv; assumption.
  - exact HR.
  - exact HK.
Qed.

Lemma triple_when (b : bool) (m : M unit) (P : State -> Prop) :
  triple P m (fun _ => P) -> triple P (when_ b m) (fun _ => P).
Proof. intros H. destruct b; [exact H | intros s HP; exact HP]. Qed.

Ltac frame_step := apply triple_frame; intros; split; reflexivity.

(** *** [createOscillator], [stop], [setVolume] and [play] keep the handles
    ready *)

Lemma createOscillator_triple freq type delay filter lfo s0 :
  triple (holds s0 [] []) (createOscillator freq type delay filter lfo)
         (fun _ => holds s0 [] []).
Proof.
  unfold createOscillator.
  eapply triple_bind; [apply triple_create_osc|]. intros osc.
  eapply triple_bind; [apply triple_create_plain; reflexivity|]. intros g.
  eapply triple_bind with
    (Q := fun lastNode s =>
            holds s0 (if filter then [lastNode; g] else [g]) [osc] s /\
            (filter = false -> lastNode = osc)).
  { destruct filter.
    - eapply triple_bind; [apply triple_create_plain; reflexivity|]. intros biquad.
      eapply triple_bind; [frame_step|]. intros u.
      intros s H. split; [exact H | discriminate].
    - intros s H. split; [exact H | reflexivity]. }
  intros lastNode.
  eapply triple_bind with
    (Q := fun _ s =>
            holds s0 (if filter then [lastNode; g] else [g]) [osc] s /\
            (filter = false -> lastNode = osc)).
  { intros s [H Hlast]. split; [|exact Hlast]. revert s H.
    change (triple (holds s0 (if filter then [lastNode; g] else [g]) [osc])
              (if lfo
               then lfoOsc ← create (OscillatorNode sine (1 # 2));
                    lfoGain ← create (GainNode 200);
                    k ← kind_of lastNode;
                    when_ (from_option is_biquad false k)
                      (connect lfoOsc (ToNode lfoGain);;
                       connect lfoGain (ToFrequency lastNode);;
                       t ← get_now;
                       start lfoOsc t;;
                       push lfoOsc;;
                       push lfoGain)
               else mret tt)
              (fun _ => holds s0 (if filter then [lastNode; g] else [g]) [osc])).
    destruct lfo; [|intros s H; exact H].
    eapply triple_bind; [apply triple_create_osc|]. intros lfoOsc.
    eapply triple_bind; [apply triple_create_plain; reflexivity|]. intros lfoGain.
    eapply triple_bind; [frame_step|]. intros k.
    eapply triple_weaken with
      (Q := fun _ => holds s0 (lfoGain :: (if filter then [lastNode; g] else [g]))
                       [lfoOsc; osc]).
    2:{ intros ? s (H0 & HI & HR & HK). inversion_clear HR. inversion_clear HK.
        repeat split; auto. }
    apply triple_when.
    eapply triple_bind; [frame_step|]. intros u1.
    eapply triple_bind; [frame_step|]. intros u2.
    eapply triple_bind; [frame_step|]. intros t.
    eapply triple_bind; [apply triple_start; simpl; tauto|]. intros u3.
    eapply triple_bind; [apply triple_push; simpl; tauto|]. intros u4.
    eapply triple_weaken; [apply triple_push; simpl; tauto|].
    intros ? s (H0 & HI & HR & HK). inversion_clear HR. repeat split; auto. }
  intros u0.
  intros s [H Hlast]. revert s H.
  change (triple (holds s0 (if filter then [lastNode; g] else [g]) [osc])
            (connect lastNode (ToNode g);;
             m ← get_master;
             connect g (ToNode m);;
             t ← get_now;
             start osc (t + delay)%Z;;
             push osc;;
             push g;;
             when_ (negb (lastNode =? osc)%nat) (push lastNode))
            (fun _ => holds s0 [] [])).
  eapply triple_bind; [frame_step|]. intros u1.
  eapply triple_bind; [frame_step|]. intros m.
  eapply triple_bind; [frame_step|]. intros u2.
  eapply triple_bind; [frame_step|]. intros t.
  eapply triple_bind; [apply triple_start; simpl; tauto|]. intros u3.
  eapply triple_bind; [apply triple_push; simpl; tauto|]. intros u4.
  eapply triple_bind;
    [apply triple_push; destruct filter; simpl; tauto|]. intros u5.
  destruct filter.
  - eapply triple_weaken; [apply triple_when, triple_push; simpl; tauto|].
    intros ? s H. eapply holds_forget, H.
  - rewrite (Hlast eq_refl), Nat.eqb_refl.
    intros s H. eapply holds_forget, H.
Qed.

Lemma stop_triple s0 : triple (holds s0 [] []) stop (fun _ => holds s0 [] []).
Proof.
  unfold stop.
  eapply triple_bind; [frame_step|]. intros t.
  eapply triple_bind; [frame_step|]. intros v.
  eapply triple_bind; [frame_step|]. intros u1.
  eapply triple_bind; [frame_step|]. intros u2.
  eapply triple_bind; [frame_step|]. intros u3.
  frame_step.
Qed.

Lemma setVolume_triple v s0 :
  triple (holds s0 [] []) (setVolume v) (fun _ => holds s0 [] []).
Proof.
  unfold setVolume. eapply triple_bind; [frame_step|]. intros t. frame_step.
Qed.

Lemma play_triple mood s0 :
  triple (holds s0 [] []) (play mood) (fun _ => holds s0 [] []).
Proof.
  unfold play.
  eapply triple_bind; [apply stop_triple|]. intros u.
  destruct mood; [intros s H; exact H | | |];
    (eapply triple_bind; [frame_step|]; intros t;
     eapply triple_bind; [frame_step|]; intros u1;
     eapply triple_bind; [frame_step|]; intros u2;
     eapply triple_bind; [frame_step|]; intros u3;
     repeat (eapply triple_bind; [apply createOscillator_triple|]; intros ?);
     apply createOscillator_triple).
Qed.

Lemma Inv_holds s : Inv s -> holds s [] [] s.
Proof. intros HI. repeat split; [apply le_refl | exact HI | constructor | constructor]. Qed.

Lemma exec_triple {A} (m : M A) s :
  triple (holds s [] []) m (fun _ => holds s [] []) -> Inv s ->
  Inv (exec m s) /\ le s (exec m s).
Proof.
  intros H HI. destruct (H s (Inv_holds s HI)) as (Hle & HI' & _). split; assumption.
Qed.

(** *** Every state a generator goes through keeps the handles ready *)

Lemma stop_exec s :
  exec stop s =
  mkState (now s) (store s) (edges s) (timers s ++ [(now s + 1100)%Z]) (nodes s)
          (masterGain s)
          (linearRampToValueAtTime 0 (now s + 1000)
             (setValueAtTime (value_at (gain s) (now s)) (now s)
                (cancelScheduledValues (now s) (gain s))))
          (calls s).
Proof. reflexivity. Qed.

Lemma setVolume_exec v s :
  exec (setVolume v) s =
  mkState (now s) (store s) (edges s) (timers s) (nodes s) (masterGain s)
          (setValueAtTime v (now s) (gain s)) (calls s).
Proof. reflexivity. Qed.

Lemma quiet_bind {A B} (m : M A) (f : A -> M B) :
  quiet m -> (forall a, quiet (f a)) -> quiet (m ≫= f).
Proof.
  intros Hm Hf s. unfold mbind, M_bind.
  destruct (Hm s) as (H1 & H2 & H3). destruct (m s) as [a s1]. cbn [snd] in *.
  destruct (Hf a s1) as (H4 & H5 & H6). repeat split; congruence.
Qed.

Ltac quiet_prim := intros ?; repeat split; reflexivity.

Lemma createOscillator_quiet freq type delay filter lfo :
  quiet (createOscillator freq type delay filter lfo).
Proof.
  unfold createOscillator.
  apply quiet_bind; [quiet_prim|]; intros osc.
  apply quiet_bind; [quiet_prim|]; intros g.
  apply quiet_bind.
  { destruct filter; [|quiet_prim].
    apply quiet_bind; [quiet_prim|]; intros b.
    apply quiet_bind; [quiet_prim|]; intros u. quiet_prim. }
  intros lastNode.
  apply quiet_bind.
  { destruct lfo; [|quiet_prim].
    apply quiet_bind; [quiet_prim|]; intros lo.
    apply quiet_bind; [quiet_prim|]; intros lg.
    apply quiet_bind; [quiet_prim|]; intros k.
    destruct (from_option is_biquad false k); [|quiet_prim].
    repeat (apply quiet_bind; [quiet_prim|]; intros ?). quiet_prim. }
  intros u.
  repeat (apply quiet_bind; [quiet_prim|]; intros ?).
  destruct (negb (lastNode =? osc)%nat); quiet_prim.
Qed.

Ltac quiet_step :=
  lazymatch goal with
  | |- quiet (createOscillator _ _ _ _ _) => apply createOscillator_quiet
  | |- quiet (_ ≫= _) => apply quiet_bind; [|intros ?]
  | |- quiet _ => quiet_prim
  end.

Lemma quiet_after_stop {A} (k : () -> M A) s :
  (forall u, quiet (k u)) ->
  now (exec (stop ≫= k) s) = now s /\
  timers (exec (stop ≫= k) s) = timers s ++ [(now s + 1100)%Z] /\
  calls (exec (stop ≫= k) s) = calls s.
Proof.
  intros Hq. rewrite exec_bind.
  destruct (Hq (fst (stop s)) (snd (stop s))) as (H1 & H2 & H3).
  unfold exec. rewrite H1, H2, H3.
  change (snd (stop s)) with (exec stop s). rewrite stop_exec. repeat split.
Qed.

Lemma play_timers mood s :
  now (exec (play mood) s) = now s /\
  timers (exec (play mood) s) = timers s ++ [(now s + 1100)%Z] /\
  calls (exec (play mood) s) = calls s.
Proof.
  unfold play. apply quiet_after_stop. intros u.
  destruct mood; repeat quiet_step.
Qed.

(** *** The teardown *)

Lemma shrinks_refl s : shrinks s s.
Proof. repeat split; auto. intros id n H. exists n. auto. Qed.

Lemma shrinks_trans s1 s2 s3 : shrinks s1 s2 -> shrinks s2 s3 -> shrinks s1 s3.
Proof.
  intros (E12 & S12 & N12 & A12 & B12 & C12 & D12 & F12)
         (E23 & S23 & N23 & A23 & B23 & C23 & D23 & F23).
  repeat split; try congruence; auto.
  intros id n H. destruct (S12 id n H) as (n2 & H2 & K2 & T2 & P2).
  destruct (S23 id n2 H2) as (n3 & H3 & K3 & T3 & P3).
  exists n3. repeat split; [assumption | congruence | congruence | auto].
Qed.

Lemma shrinks_kind s s' id :
  shrinks s s' ->
  from_option (fun n => is_oscillator (kind n)) false (store s' !! id) =
  from_option (fun n => is_oscillator (kind n)) false (store s !! id).
Proof.
  intros (_ & S & N & _). destruct (store s !! id) as [n|] eqn:E.
  - destruct (S id n E) as (n' & Hn' & Hk & _). rewrite Hn'. cbn [from_option].
    rewrite Hk. reflexivity.
  - rewrite (N id E). reflexivity.
Qed.

Lemma ready_shrinks s s' id : shrinks s s' -> ready s id -> ready s' id.
Proof.
  intros (_ & S & _) (n & Hn & Hosc). destruct (S id n Hn) as (n' & Hn' & Hk & Hs & _).
  exists n'. split; [exact Hn'|]. rewrite Hk, Hs. exact Hosc.
Qed.

Lemma torn_down_shrinks s s' id :
  shrinks s s' -> known s id -> torn_down s id -> torn_down s' id.
Proof.
  intros (E & S & _) [n Hn] [Hed Hst]. split.
  - intros e He. apply Hed, E, He.
  - intros n' Hn' Hosc. destruct (S id n Hn) as (n2 & Hn2 & Hk & _ & Hp).
    assert (n2 = n') by congruence. subst n2.
    apply Hp, (Hst n Hn). congruence.
Qed.

Lemma disconnect_edges_spec id es e :
  In e (disconnect_edges id es) <-> In e es /\ fst e <> id.
Proof.
  unfold disconnect_edges. rewrite filter_In. rewrite negb_true_iff, Nat.eqb_neq.
  reflexivity.
Qed.

(** Tearing down a ready node: [stop()] does not throw, the node ends up
    disconnected and (an oscillator) stopped, and the calls are logged. *)
Lemma teardown_node_ready id s :
  ready s id ->
  shrinks s (teardown_node id s) /\ torn_down (teardown_node id s) id /\
  calls (teardown_node id s) =
  calls s ++ (if from_option (fun n => is_oscillator (kind n)) false (store s !! id)
              then [CallStop id; CallDisconnect id] else [CallDisconnect id]).
Proof.
  intros (n & Hn & Hosc). unfold teardown_node, teardown_body. rewrite Hn.
  cbn [from_option]. destruct n as [k st sp]. cbn [kind startAt] in *.
  destruct (is_oscillator k) eqn:Ek.
  - destruct st as [st|]; [|exfalso; apply (Hosc eq_refl); reflexivity].
    unfold node_stop. cbn [log_call store]. rewrite Hn.
    cbn [and_then node_disconnect log_call store edges calls now timers nodes
         masterGain gain].
    repeat split; cbn [edges store now timers gain masterGain nodes calls].
    + intros e He. apply disconnect_edges_spec in He. apply He.
    + intros j m Hm. destruct (decide (id = j)) as [<-|Hne].
      * rewrite list_lookup_insert_eq by (eapply lookup_lt_Some; exact Hn).
        eexists. split; [reflexivity|]. assert (m = mkNode k (Some st) sp) by congruence.
        subst m. cbn. repeat split; congruence.
      * rewrite list_lookup_insert_ne by exact Hne. exists m. auto.
    + intros j Hj. destruct (decide (id = j)) as [<-|Hne]; [congruence|].
      rewrite list_lookup_insert_ne by exact Hne. exact Hj.
    + intros e He. apply disconnect_edges_spec in He. apply He.
    + intros m Hm _.
      rewrite list_lookup_insert_eq in Hm by (eapply lookup_lt_Some; exact Hn).
      injection Hm as <-. cbn. congruence.
    + rewrite <- app_assoc. reflexivity.
  - cbn [and_then node_disconnect log_call store edges calls now timers nodes
         masterGain gain].
    repeat split; cbn [edges store now timers gain masterGain nodes calls].
    + intros e He. apply disconnect_edges_spec in He. apply He.
    + intros j m Hm. exists m. auto.
    + auto.
    + intros e He. apply disconnect_edges_spec in He. apply He.
    + intros m Hm Hosc'. rewrite Hn in Hm. injection Hm as <-. cbn in Hosc'. congruence.
Qed.

(** Whatever the node, the body of the [forEach] returns to the loop: an
    exception is swallowed, and nothing but that node's connections and stop
    time changes. *)
Lemma teardown_node_shrinks id s : shrinks s (teardown_node id s).
Proof.
  unfold teardown_node, teardown_body.
  destruct (store s !! id) as [[k st sp]|] eqn:Hn; cbn [from_option kind].
  - destruct (is_oscillator k) eqn:Ek.
    + unfold node_stop. cbn [log_call store]. rewrite Hn.
      destruct st as [st|].
      * cbn [and_then node_disconnect log_call store edges calls now timers nodes
             masterGain gain].
        repeat split; cbn [edges store now timers gain masterGain nodes calls].
        -- intros e He. apply disconnect_edges_spec in He. apply He.
        -- intros j m Hm. destruct (decide (id = j)) as [<-|Hne].
           ++ rewrite list_lookup_insert_eq by (eapply lookup_lt_Some; exact Hn).
              eexists. split; [reflexivity|].
              assert (m = mkNode k (Some st) sp) by congruence.
              subst m. cbn. repeat split; congruence.
           ++ rewrite list_lookup_insert_ne by exact Hne. exists m. auto.
        -- intros j Hj. destruct (decide (id = j)) as [<-|Hne]; [congruence|].
           rewrite list_lookup_insert_ne by exact Hne. exact Hj.
      * cbn [and_then]. repeat split; auto. intros j m Hm. exists m. auto.
    + cbn [and_then node_disconnect log_call store edges calls now timers nodes
           masterGain gain].
      repeat split; cbn [edges store now timers gain masterGain nodes calls]; auto.
      * intros e He. apply disconnect_edges_spec in He. apply He.
      * intros j m Hm. exists m. auto.
  - cbn [and_then node_disconnect log_call store edges calls now timers nodes
         masterGain gain].
    repeat split; cbn [edges store now timers gain masterGain nodes calls]; auto.
    + intros e He. apply disconnect_edges_spec in He. apply He.
    + intros j m Hm. exists m. auto.
Qed.

Lemma calls_for_shrinks s s' ids : shrinks s s' -> calls_for s' ids = calls_for s ids.
Proof.
  intros H. unfold calls_for. induction ids as [|a ids IH]; [reflexivity|].
  cbn [flat_map]. rewrite IH, (shrinks_kind s s' a H). reflexivity.
Qed.

Lemma ready_known s id : ready s id -> known s id.
Proof. intros (n & Hn & _). exists n. exact Hn. Qed.

Lemma teardown_fold ids : forall s,
  Forall (ready s) ids ->
  let s' := fold_left (fun acc id => teardown_node id acc) ids s in
  shrinks s s' /\ (forall id, In id ids -> torn_down s' id) /\
  calls s' = calls s ++ calls_for s ids.
Proof.
  induction ids as [|a ids IH]; intros s Hr; cbn [fold_left].
  - split; [apply shrinks_refl|]. split; [intros id []|].
    cbn. rewrite app_nil_r. reflexivity.
  - inversion_clear Hr as [|? ? Ha Hrest].
    destruct (teardown_node_ready a s Ha) as (Hs1 & Ht1 & Hc1).
    set (s1 := teardown_node a s) in *.
    assert (Hr1 : Forall (ready s1) ids).
    { eapply Forall_impl; [exact Hrest|]. intros id. apply ready_shrinks, Hs1. }
    destruct (IH s1 Hr1) as (Hs2 & Ht2 & Hc2). cbv zeta in *.
    split; [eapply shrinks_trans; eassumption|]. split.
    + intros id [<-|Hin]; [|auto].
      eapply torn_down_shrinks; [exact Hs2 | | exact Ht1].
      apply ready_known. eapply ready_shrinks; eassumption.
    + rewrite Hc2, Hc1, (calls_for_shrinks s s1 ids Hs1), <- app_assoc.
      reflexivity.
Qed.

Lemma shrinks_le s s' : shrinks s s' -> le s s'.
Proof.
  intros (_ & S & _) id n Hn. destruct (S id n Hn) as (n' & Hn' & Hk & Hs & _).
  exists n'. repeat split; [assumption.. | congruence].
Qed.

Lemma teardown_spec s :
  Inv s ->
  nodes (teardown s) = [] /\
  (forall id, In id (nodes s) -> torn_down (teardown s) id) /\
  calls (teardown s) = calls s ++ teardown_calls s /\
  now (teardown s) = now s /\ timers (teardown s) = timers s /\
  gain (teardown s) = gain s /\ le s (teardown s).
Proof.
  intros HI. destruct (teardown_fold (nodes s) s HI) as (Hs & Ht & Hc).
  cbv zeta in *. destruct Hs as (E & S & N & A & B & C & D & F).
  unfold teardown. cbn [nodes calls now timers gain].
  repeat split; auto.
  - destruct (Ht id H) as [He _]. exact He.
  - intros n Hn Hosc. destruct (Ht id H) as [_ Hst]. apply (Hst n Hn Hosc).
  - intros id n Hn. cbn [store]. destruct (S id n Hn) as (n' & Hn' & Hk & Hst & _).
    exists n'. repeat split; [assumption.. | congruence].
Qed.

Lemma teardown_cleared s : nodes s = [] -> teardown s = s.
Proof. destruct s. cbn. intros ->. reflexivity. Qed.

Lemma Inv_nil s : nodes s = [] -> Inv s.
Proof. unfold Inv. intros ->. constructor. Qed.

Lemma last_cons (d : Z) ds a : List.last (d :: ds) a = List.last ds d.
Proof.
  revert d a. induction ds as [|z ds IH]; intros d a; [reflexivity|].
  change (List.last (d :: z :: ds) a) with (List.last (z :: ds) a).
  rewrite !IH. reflexivity.
Qed.

(** Callbacks that find [this.nodes] empty change nothing but the clock. *)
Lemma fold_cleared ds : forall s,
  nodes s = [] ->
  let s' := fold_left (fun acc d => teardown (at_time d acc)) ds s in
  store s' = store s /\ edges s' = edges s /\ calls s' = calls s /\
  nodes s' = [] /\ timers s' = timers s /\ gain s' = gain s /\
  now s' = List.last ds (now s).
Proof.
  induction ds as [|d ds IH]; intros s Hn; [cbn [fold_left]; repeat split; auto|].
  cbn [fold_left]. rewrite (teardown_cleared (at_time d s)) by exact Hn.
  destruct (IH (at_time d s) Hn) as (H1 & H2 & H3 & H4 & H5 & H6 & H7).
  cbv zeta in *. repeat split; auto.
  rewrite H7. cbn [at_time now]. symmetry. apply last_cons.
Qed.

(** The callbacks of the event loop, run one after the other. *)
Lemma fold_teardowns ds : forall s,
  Inv s ->
  let s' := fold_left (fun acc d => teardown (at_time d acc)) ds s in
  Inv s' /\ le s s' /\ timers s' = timers s /\ gain s' = gain s /\
  now s' = List.last ds (now s).
Proof.
  induction ds as [|d ds IH]; intros s HI; [cbn; repeat split; [exact HI | apply le_refl]|].
  cbn [fold_left].
  assert (HI1 : Inv (at_time d s)) by exact HI.
  destruct (teardown_spec _ HI1) as (Hn & _ & _ & Hnow & Ht & Hg & Hle).
  destruct (IH (teardown (at_time d s)) (Inv_nil _ Hn)) as (H1 & H2 & H3 & H4 & H5).
  cbv zeta in *. repeat split.
  - exact H1.
  - eapply le_trans; [|exact H2]. exact Hle.
  - rewrite H3, Ht. reflexivity.
  - rewrite H4, Hg. reflexivity.
  - rewrite H5, Hnow. cbn [at_time now]. symmetry. apply last_cons.
Qed.

Lemma last_bound (ds : list Z) (d0 t : Z) :
  (d0 <= t)%Z -> Forall (fun d => (d <= t)%Z) ds -> (List.last ds d0 <= t)%Z.
Proof.
  intros H0 H. revert d0 H0. induction H as [|d ds Hd _ IH]; intros d0 H0; [exact H0|].
  rewrite last_cons. apply IH, Hd.
Qed.

Lemma filter_Forall {A} (f : A -> bool) l :
  Forall (fun x => f x = true) (List.filter f l).
Proof.
  apply List.Forall_forall. intros x Hx. apply filter_In in Hx. apply Hx.
Qed.

Lemma advance_to_facts t s :
  Inv s -> (now s <= t)%Z ->
  Inv (advance_to t s) /\ le s (advance_to t s) /\ now (advance_to t s) = t /\
  timers (advance_to t s) = List.filter (fun d => negb (d <=? t)%Z) (timers s) /\
  gain (advance_to t s) = gain s.
Proof.
  intros HI Hnow. unfold advance_to.
  set (due := List.filter _ (timers s)).
  set (pending := List.filter _ (timers s)).
  assert (HI0 : Inv (with_timers pending s)) by exact HI.
  destruct (fold_teardowns due _ HI0) as (H1 & H2 & H3 & H4 & H5).
  cbv zeta in *. repeat split.
  - exact H1.
  - exact H2.
  - cbn [at_time now]. rewrite H5. cbn [with_timers now].
    apply Z.max_l. apply last_bound; [exact Hnow|].
    eapply Forall_impl; [apply filter_Forall|]. intros d Hd. apply Z.leb_le, Hd.
  - cbn [at_time timers]. rewrite H3. reflexivity.
  - cbn [at_time gain]. rewrite H4. reflexivity.
Qed.

Lemma Good_constructor t0 : Good (constructor t0).
Proof. split; constructor. Qed.

Lemma Good_apply_op o s : Good s -> Good (apply_op o s).
Proof.
  intros [HI HT]. destruct o as [mood| |v|ms]; cbn [apply_op].
  - destruct (exec_triple (play mood) s (play_triple mood s) HI) as [HI' _].
    split; [exact HI'|]. destruct (play_timers mood s) as (Hn & Ht & _).
    unfold timers_ahead. rewrite Hn, Ht. apply Forall_app. split; [exact HT|].
    repeat constructor; lia.
  - destruct (exec_triple stop s (stop_triple s) HI) as [HI' _].
    split; [exact HI'|]. rewrite stop_exec. unfold timers_ahead. cbn [now timers].
    apply Forall_app. split; [exact HT|]. repeat constructor; lia.
  - destruct (exec_triple (setVolume v) s (setVolume_triple v s) HI) as [HI' _].
    split; [exact HI'|]. rewrite setVolume_exec. exact HT.
  - destruct (advance_to_facts (now s + Z.of_nat ms) s HI ltac:(lia))
      as (HI' & _ & Hn & Ht & _).
    split; [exact HI'|]. unfold timers_ahead. rewrite Hn, Ht.
    apply List.Forall_forall. intros d Hd. apply filter_In in Hd. destruct Hd as [Hin Hd].
    apply negb_true_iff, Z.leb_gt in Hd.
    unfold timers_ahead in HT. rewrite List.Forall_forall in HT.
    specialize (HT d Hin). lia.
Qed.

Lemma Good_run_ops ops : forall s, Good s -> Good (run_ops ops s).
Proof.
  induction ops as [|o ops IH]; intros s H; [exact H|].
  cbn [run_ops fold_left]. apply IH, Good_apply_op, H.
Qed.

(** Whatever the use made of a generator, every handle in [this.nodes] names
    a node, which, if an oscillator, has been started. *)
Lemma reachable_Good s : reachable s -> Good s.
Proof. intros (t0 & ops & ->). apply Good_run_ops, Good_constructor. Qed.

(** ** The gain timeline *)

Local Open Scope Q_scope.

Lemma insert_event_last e l :
  Forall (fun e' => (ev_time e' <= ev_time e)%Z) l -> insert_event e l = l ++ [e].
Proof.
  induction 1 as [|e' l He' _ IH]; [reflexivity|].
  cbn [insert_event app]. rewrite (proj2 (Z.leb_le _ _) He'), IH. reflexivity.
Qed.

Lemma eval_events_past pv pt l v t r u :
  Forall (fun e => (ev_time e <= u)%Z) l -> (t <= u)%Z ->
  eval_events pv pt (l ++ SetValue v t :: r) u = eval_events v t r u.
Proof.
  intros Hl Ht. revert pv pt. induction Hl as [|e l He _ IH]; intros pv pt.
  - cbn [app eval_events ev_time ev_value]. rewrite (proj2 (Z.leb_le _ _) Ht).
    reflexivity.
  - cbn [app eval_events]. rewrite (proj2 (Z.leb_le _ _) He). apply IH.
Qed.

(** After [stop()], from the call on, the gain is the ramp from the value
    held at the call down to 0 one second later. *)
Lemma stop_fade s u :
  (now s <= u)%Z ->
  value_at (gain (exec stop s)) u =
  eval_events (value_at (gain s) (now s)) (now s)
              [LinearRamp 0 (now s + 1000)] u.
Proof.
  intros Hu. rewrite stop_exec. cbn [gain]. unfold value_at.
  cbn [linearRampToValueAtTime setValueAtTime cancelScheduledValues events
       intrinsic since].
  set (old := List.filter _ (events (gain s))).
  assert (Hold : Forall (fun e => (ev_time e < now s)%Z) old).
  { eapply Forall_impl; [apply filter_Forall|]. intros e He. apply Z.ltb_lt, He. }
  rewrite (insert_event_last (SetValue _ _) old).
  2:{ eapply Forall_impl; [exact Hold|]. intros e He. cbv beta in He. cbn [ev_time]. lia. }
  rewrite insert_event_last.
  2:{ apply Forall_app. split.
      - eapply Forall_impl; [exact Hold|]. intros e He. cbv beta in He. cbn [ev_time]. lia.
      - repeat constructor. cbn [ev_time]. lia. }
  rewrite <- app_assoc. cbn [app].
  apply eval_events_past; [|exact Hu].
  eapply Forall_impl; [exact Hold|]. intros e He. cbv beta in *. lia.
Qed.

Lemma ramp_down v t u :
  (t <= u)%Z ->
  ((t + 1000 <= u)%Z -> eval_events v t [LinearRamp 0 (t + 1000)] u = 0) /\
  ((u < t + 1000)%Z ->
   eval_events v t [LinearRamp 0 (t + 1000)] u ==
   v * (1 - inject_Z (u - t) / 1000)).
Proof.
  intros Hu. cbn [eval_events ev_time ev_value]. split; intros H.
  - rewrite (proj2 (Z.leb_le _ _) H). reflexivity.
  - rewrite (proj2 (Z.leb_gt _ _) H).
    replace (t + 1000 - t)%Z with 1000%Z by lia.
    change (inject_Z 1000) with 1000. field.
Qed.

(** ** [stop()] *)

Lemma teardown_node_recast ts mg g id s :
  teardown_node id (recast ts mg g s) = recast ts mg g (teardown_node id s).
Proof.
  unfold teardown_node, teardown_body, node_stop, node_disconnect, log_call, recast.
  cbn [store now edges timers nodes masterGain gain calls].
  destruct (store s !! id) as [[k [st|] sp]|]; cbn [from_option kind];
    try destruct (is_oscillator k); reflexivity.
Qed.

Lemma teardown_fold_recast ts mg g ids : forall s,
  fold_left (fun acc id => teardown_node id acc) ids (recast ts mg g s) =
  recast ts mg g (fold_left (fun acc id => teardown_node id acc) ids s).
Proof.
  induction ids as [|a ids IH]; intros s; [reflexivity|].
  cbn [fold_left]. rewrite teardown_node_recast. apply IH.
Qed.

Lemma teardown_recast ts mg g s :
  teardown (recast ts mg g s) = recast ts mg g (teardown s).
Proof.
  unfold teardown. change (nodes (recast ts mg g s)) with (nodes s).
  rewrite teardown_fold_recast. reflexivity.
Qed.

Lemma due_after_stop s u :
  timers_ahead s -> (now s + 1100 <= u)%Z ->
  Forall (fun d => (d <= u)%Z) (timers (exec stop s)).
Proof.
  intros HT Hu. rewrite stop_exec. cbn [timers]. apply Forall_app. split.
  - eapply Forall_impl; [exact HT|]. intros d Hd. cbv beta in Hd. lia.
  - repeat constructor. lia.
Qed.

(** Once the callback of a [stop()] has run, the state is what the first
    pending callback (at its due time [d]) made of the nodes. *)
Lemma advance_after_stop s u :
  Inv s -> timers_ahead s -> (now s + 1100 <= u)%Z ->
  let d := hd (now s + 1100)%Z (timers s) in
  let y := teardown (at_time d (recast [] (masterGain s) (gain s) s)) in
  let s2 := advance_to u (exec stop s) in
  store s2 = store y /\ edges s2 = edges y /\ calls s2 = calls y /\
  nodes s2 = [] /\ timers s2 = [] /\ gain s2 = gain (exec stop s).
Proof.
  intros HI HT Hu. cbv zeta.
  rewrite (advance_to_all_due u _ (due_after_stop s u HT Hu)). cbv zeta.
  rewrite stop_exec. cbn [timers with_timers now store edges nodes masterGain gain calls].
  set (g1 := linearRampToValueAtTime _ _ _).
  set (x := with_timers [] _).
  assert (Hx : x = recast [] (masterGain s) g1 (recast [] (masterGain s) (gain s) s))
    by reflexivity.
  assert (Hsplit : exists r, timers s ++ [(now s + 1100)%Z] =
                             hd (now s + 1100)%Z (timers s) :: r).
  { destruct (timers s) as [|z ts]; cbn; eauto. }
  destruct Hsplit as [r ->]. set (d := hd _ (timers s)).
  cbn [fold_left].
  assert (Hy : teardown (at_time d x) =
               recast [] (masterGain s) g1
                 (teardown (at_time d (recast [] (masterGain s) (gain s) s)))).
  { rewrite Hx. rewrite <- teardown_recast. reflexivity. }
  assert (Hn : nodes (teardown (at_time d x)) = []).
  { rewrite Hy. cbn [recast nodes].
    apply (teardown_spec (at_time d (recast [] (masterGain s) (gain s) s))). exact HI. }
  destruct (fold_cleared r _ Hn) as (H1 & H2 & H3 & H4 & H5 & H6 & _).
  cbv zeta in *. cbn [at_time store edges calls nodes timers gain].
  rewrite H1, H2, H3, H4, H5, H6, Hy. repeat split.
Qed.

Lemma stop_keeps_handles_ready s : Inv s -> Inv (exec stop s).
Proof. intros HI. apply (exec_triple stop s (stop_triple s) HI). Qed.

(** Letting the clock reach any time keeps a generator in order. *)
Lemma Good_advance_to t s :
  Good s -> Good (advance_to t s) /\ now (advance_to t s) = Z.max t (now s).
Proof.
  intros [HI HT]. destruct (Z.le_gt_cases (now s) t) as [Hle|Hgt].
  - destruct (advance_to_facts t s HI Hle) as (HI' & _ & Hn & Ht & _).
    split; [|rewrite Hn; lia]. split; [exact HI'|].
    unfold timers_ahead. rewrite Hn, Ht.
    apply List.Forall_forall. intros d Hd. apply filter_In in Hd. destruct Hd as [Hin Hd].
    apply negb_true_iff, Z.leb_gt in Hd.
    unfold timers_ahead in HT. rewrite List.Forall_forall in HT.
    specialize (HT d Hin). lia.
  - rewrite advance_to_none_due.
    2:{ eapply Forall_impl; [exact HT|]. intros d Hd. cbv beta in Hd. lia. }
    rewrite (Z.max_r t (now s)) by lia. split; [|reflexivity].
    split; [exact HI | exact HT].
Qed.

(** What a [stop()] at [t0] has made of the generator by time [t]. *)
Lemma stopped_by s t0 t :
  Good s -> now s = t0 -> (t0 <= t)%Z ->
  let m := advance_to t (exec stop s) in
  (forall w, (t0 + 1000 <= w)%Z -> (value_at (gain m) w == 0)%Q) /\
  ((t0 + 1100 <= t)%Z -> nodes m = [] /\ timers m = []).
Proof.
  intros [HI HT] Hnow Ht. cbv zeta.
  assert (HI1 : Inv (exec stop s)) by apply stop_keeps_handles_ready, HI.
  assert (Hn1 : (now (exec stop s) <= t)%Z) by (rewrite stop_exec; cbn [now]; lia).
  destruct (advance_to_facts t _ HI1 Hn1) as (_ & _ & _ & _ & Hg).
  split.
  - intros w Hw. rewrite Hg. rewrite stop_fade by lia.
    rewrite (proj1 (ramp_down _ (now s) w ltac:(lia))) by lia. reflexivity.
  - intros Hlate.
    destruct (advance_after_stop s t HI HT ltac:(lia)) as (_ & _ & _ & H4 & H5 & _).
    split; assumption.
Qed.

(** ** What [stop()] does in every state *)

(** [stop()] on a generator in any state it can be in.  The master gain
    ramps linearly from its present value to 0 over one second and stays
    there.  The call itself touches no node and sets one callback, due 1100 ms
    later.  Once that callback has run, every handle of [this.nodes] is
    disconnected and, if an oscillator, stopped, the list is empty, and each
    node has been torn down by exactly the calls of one teardown (by this
    callback or by an older one).  With nothing playing the teardown does
    nothing (the ramp is still set).  A second [stop()] right after the first
    leaves the same nodes, connections and calls as one: no error, nothing
    torn down twice. *)
Lemma stop_ramps_and_schedules s :
  reachable s ->
  let t := now s in
  let s1 := exec stop s in
  (forall u, (t <= u < t + 1000)%Z ->
     value_at (gain s1) u == value_at (gain s) t * (1 - inject_Z (u - t) / 1000)) /\
  (forall u, (t + 1000 <= u)%Z -> value_at (gain s1) u == 0) /\
  (store s1 = store s /\ edges s1 = edges s /\ nodes s1 = nodes s /\
   calls s1 = calls s /\ timers s1 = timers s ++ [(t + 1100)%Z]) /\
  (forall u, (t + 1100 <= u)%Z ->
     let s2 := advance_to u s1 in
     nodes s2 = [] /\ timers s2 = [] /\
     (forall id, In id (nodes s) -> torn_down s2 id) /\
     calls s2 = calls s ++ teardown_calls s /\
     (forall w, (t + 1000 <= w)%Z -> value_at (gain s2) w == 0)) /\
  (nodes s = [] ->
   forall u, (t + 1100 <= u)%Z ->
     let s2 := advance_to u s1 in
     store s2 = store s /\ edges s2 = edges s /\ calls s2 = calls s) /\
  (forall u, (t + 1100 <= u)%Z ->
     let s2 := advance_to u s1 in
     let s2' := advance_to u (exec stop s1) in
     store s2' = store s2 /\ edges s2' = edges s2 /\ nodes s2' = nodes s2 /\
     calls s2' = calls s2 /\ timers s2' = [] /\
     (forall w, (t + 1000 <= w)%Z -> value_at (gain s2') w == 0)).
Proof.
  intros Hreach. destruct (reachable_Good s Hreach) as [HI HT]. cbv zeta.
  assert (Hfade0 : forall x w, now x = now s -> (now s + 1000 <= w)%Z ->
                     value_at (gain (exec stop x)) w == 0).
  { intros x w Hx Hw. rewrite stop_fade by lia. rewrite Hx.
    rewrite (proj1 (ramp_down _ (now s) w ltac:(lia)) Hw). reflexivity. }
  split; [|split; [|split; [|split; [|split]]]].
  - intros u Hu. rewrite stop_fade by lia.
    apply (ramp_down _ (now s) u); lia.
  - intros u Hu. apply Hfade0; [reflexivity | exact Hu].
  - rewrite stop_exec. repeat split.
  - intros u Hu. cbv zeta.
    destruct (advance_after_stop s u HI HT Hu) as (H1 & H2 & H3 & H4 & H5 & H6).
    cbv zeta in *.
    set (y := at_time _ (recast [] (masterGain s) (gain s) s)) in *.
    assert (HIy : Inv y) by exact HI.
    destruct (teardown_spec y HIy) as (_ & Htorn & Hcalls & _).
    repeat split.
    + exact H4.
    + exact H5.
    + rewrite H2. apply (Htorn id H).
    + rewrite H1. apply (Htorn id H).
    + rewrite H3, Hcalls. reflexivity.
    + intros w Hw. rewrite H6. apply Hfade0; [reflexivity | exact Hw].
  - intros Hnil u Hu. cbv zeta.
    destruct (advance_after_stop s u HI HT Hu) as (H1 & H2 & H3 & _).
    cbv zeta in *. rewrite teardown_cleared in H1, H2, H3 by exact Hnil.
    repeat split; assumption.
  - intros u Hu. cbv zeta.
    destruct (advance_after_stop s u HI HT Hu) as (H1 & H2 & H3 & H4 & H5 & H6).
    assert (HG1 : Good (exec stop s)) by (apply (Good_apply_op OpStop), (conj HI HT)).
    destruct HG1 as [HI1 HT1].
    assert (Hu1 : (now (exec stop s) + 1100 <= u)%Z) by (rewrite stop_exec; exact Hu).
    destruct (advance_after_stop (exec stop s) u HI1 HT1 Hu1)
      as (K1 & K2 & K3 & K4 & K5 & K6).
    cbv zeta in *.
    assert (Hd : hd (now (exec stop s) + 1100)%Z (timers (exec stop s)) =
                 hd (now s + 1100)%Z (timers s)).
    { rewrite stop_exec. cbn [now timers]. destruct (timers s); reflexivity. }
    rewrite Hd in K1, K2, K3.
    set (d := hd (now s + 1100)%Z (timers s)) in *.
    assert (Hsame :
      teardown (at_time d (recast [] (masterGain (exec stop s)) (gain (exec stop s))
                             (exec stop s))) =
      recast [] (masterGain (exec stop s)) (gain (exec stop s))
        (teardown (at_time d (recast [] (masterGain s) (gain s) s)))).
    { rewrite <- teardown_recast. rewrite stop_exec. reflexivity. }
    rewrite Hsame in K1, K2, K3. cbn [recast store edges calls] in K1, K2, K3.
    repeat split.
    + rewrite K1, H1. reflexivity.
    + rewrite K2, H2. reflexivity.
    + rewrite K4, H4. reflexivity.
    + rewrite K3, H3. reflexivity.
    + exact K5.
    + intros w Hw. rewrite K6. apply Hfade0; [rewrite stop_exec; reflexivity | exact Hw].
Qed.

(** ** [stop()] while a mood plays *)

Lemma positive_on_the_way_down (v : Q) (u : Z) :
  0 < v -> (500 <= u < 1500)%Z ->
  0 < value_at (mkParam (5 # 100) 0
                  [SetValue 0 0; SetValue v 500; LinearRamp 0 1500]) u.
Proof.
  intros Hv Hu. unfold value_at.
  cbn [eval_events intrinsic since events ev_time ev_value].
  rewrite (proj2 (Z.leb_le 0 u)) by lia.
  rewrite (proj2 (Z.leb_le 500 u)) by lia.
  rewrite (proj2 (Z.leb_gt 1500 u)) by lia.
  assert (H1 : inject_Z (u - 500) < inject_Z 1000).
  { rewrite <- Zlt_Qlt. lia. }
  change (inject_Z (1500 - 500)) with (inject_Z 1000).
  change (inject_Z 1000) with 1000 in *.
  assert (E : v + (0 - v) * (inject_Z (u - 500) / 1000) ==
              v * (1 - inject_Z (u - 500) / 1000)) by ring.
  rewrite E. apply Qmult_lt_0_compat; [exact Hv|].
  assert (H2 : inject_Z (u - 500) / 1000 < 1).
  { apply Qlt_shift_div_r; [reflexivity|]. rewrite Qmult_1_l. exact H1. }
  lra.
Qed.

(** C6. What the code does for [play(mood)] at 0 and [stop()] 500 ms later,
    for every mood of {ethereal, suspense, scifi}.  The fade set by [stop()]
    runs from 0.02 at 500 ms to 0 at 1500 ms, and its callback is due at
    1600 ms.  The callback of the [stop()] that [play] began with is due at
    1100 ms: until then every node of the mood is connected and running;
    then it stops and disconnects every node of the mood and empties
    [this.nodes], while the gain is at 0.008 and stays above 0 for another
    400 ms.  The callback at 1600 ms finds nothing left and makes no call.
    The nodes are torn down before the fade completes, where the claim has
    them torn down only after it. *)
Theorem stop_tears_down_before_the_fade_ends :
  Forall (fun mood =>
    let playing := advance_to 500 (exec (play mood) (constructor 0)) in
    let g := built_by (play mood) (constructor 0) in
    let s1 := exec stop playing in
    let early := advance_to 1099 s1 in
    let torn := advance_to 1100 s1 in
    let late := advance_to 1600 s1 in
    (g <> [] /\ length (nodes playing) = length g /\
     graph_intact s1 g = true /\ timers s1 = [1100; 1600]%Z) /\
    (graph_intact early g = true /\ nodes early = nodes playing /\
     calls early = []) /\
    (nodes torn = [] /\ graph_alive torn g = false /\
     calls torn = teardown_calls playing /\ timers torn = [1600]%Z) /\
    (value_at (gain torn) 500 == 2 # 100 /\
     value_at (gain torn) 1100 == 8 # 1000 /\
     (forall u, (500 <= u < 1500)%Z -> 0 < value_at (gain torn) u) /\
     value_at (gain torn) 1500 == 0) /\
    (calls late = calls torn /\ nodes late = [] /\ timers late = []))
    sounding_moods.
Proof.
  unfold sounding_moods.
  repeat (apply List.Forall_cons || apply List.Forall_nil); cbv zeta;
    (split; [split; [vm_compute; discriminate | vm_compute; repeat split]|]);
    (split; [vm_compute; repeat split|]);
    (split; [vm_compute; repeat split|]);
    (split; [|vm_compute; repeat split]);
    (split; [vm_compute; reflexivity|]);
    (split; [vm_compute; reflexivity|]);
    (split; [|vm_compute; reflexivity]);
    intros u Hu;
    match goal with
    | |- 0 < value_at ?p u =>
        let p' := eval vm_compute in p in
        change p with p'
    end;
    (apply positive_on_the_way_down; [reflexivity | exact Hu]).
Qed.

(** What has settled once every pending callback has run. *)
Lemma settled_view t s :
  Forall (fun d => (d <= t)%Z) (timers s) ->
  let s' := fold_left (fun acc d => teardown (at_time d acc)) (timers s)
                      (with_timers [] s) in
  timers (advance_to t s) = timers s' /\ nodes (advance_to t s) = nodes s' /\
  forall g, graph_alive (advance_to t s) g = graph_alive s' g.
Proof.
  intros H. rewrite (advance_to_all_due t s H). cbv zeta.
  repeat split.
Qed.

Lemma both_due (wait : nat) s :
  timers s = [1100; 1100]%Z ->
  Forall (fun d => (d <= 1100 + Z.of_nat wait)%Z) (timers s).
Proof. intros ->. repeat constructor; lia. Qed.

(** C1. What the code does for [play(mood)] followed at once by
    [play(otherMood)], for all moods of {ethereal, suspense, scifi}: right
    after the second call both graphs are intact together (every node of both
    connected, every oscillator of both running), and once the two fades have
    settled (1100 ms or more later) [this.nodes] is empty and neither graph has
    a connected node or a running oscillator.  No graph is left, where the
    claim has exactly one. *)
Theorem play_then_play_leaves_no_graph :
  forall wait : nat,
    Forall (fun m1 => Forall (fun m2 =>
      let s1 := exec (play m1) (constructor 0) in
      let s2 := exec (play m2) s1 in
      let g1 := built_by (play m1) (constructor 0) in
      let g2 := built_by (play m2) s1 in
      let settled := advance_to (1100 + Z.of_nat wait) s2 in
      g1 <> [] /\ g2 <> [] /\
      graph_intact s2 g1 = true /\ graph_intact s2 g2 = true /\
      timers settled = [] /\ nodes settled = [] /\
      graph_alive settled g1 = false /\ graph_alive settled g2 = false)
      sounding_moods) sounding_moods.
Proof.
  intros wait. unfold sounding_moods.
  repeat (apply List.Forall_cons || apply List.Forall_nil); cbv zeta;
    (split; [vm_compute; discriminate|]);
    (split; [vm_compute; discriminate|]);
    (split; [vm_compute; reflexivity|]);
    (split; [vm_compute; reflexivity|]);
    match goal with
    | |- context [advance_to ?t ?s] =>
        destruct (settled_view t s (both_due wait s ltac:(vm_compute; reflexivity)))
          as (-> & -> & Hg); rewrite !Hg
    end;
    vm_compute; repeat split.
Qed.

End AmbientFacts.

(* ===================================================================== *)
(** * Properties of the scene playback scheduler                          *)
(* ===================================================================== *)

Module PlayerFacts.

Import Story Player.
Export PlayerInv.

(** ** Narration goes straight to the destination *)

Lemma direct_ext s s' :
  sources s' = sources s ->
  (is_Some (musicPlayerRef s) -> is_Some (musicPlayerRef s')) ->
  direct s -> direct s'.
Proof. intros Hs Hm [H1 H2]. split; [rewrite Hs; exact H1 | auto]. Qed.

Lemma music_call_direct m s : direct s -> direct (music_call m s).
Proof.
  apply direct_ext; [reflexivity|]. cbn [music_call set_music musicPlayerRef].
  intros [x ->]. cbn. eauto.
Qed.

Lemma stopAudio_direct s : direct s -> direct (stopAudio s).
Proof.
  intros [H1 H2]. unfold stopAudio.
  assert (Hmap : forall src,
    Forall (fun x => src_output x = Ambient.ToDestination)
      (map (fun x => if (src_id x =? src)%nat
                     then mkSource (src_id x) (src_scene x) (src_output x)
                                   (src_start x) (src_length x) true
                     else x) (sources s))).
  { intros src. apply List.Forall_map. eapply Forall_impl; [exact H1|].
    intros x Hx. cbv beta. destruct (src_id x =? src)%nat; exact Hx. }
  destruct (audioSourceRef s) as [src|];
    cbn [transitionTimeoutRef]; destruct (transitionTimeoutRef s);
    split; cbn [sources musicPlayerRef]; auto.
Qed.

Lemma playScene_direct index s : direct s -> direct (playScene index s).
Proof.
  intros H. apply stopAudio_direct in H. unfold playScene.
  set (s1 := stopAudio s) in *. destruct H as [H1 H2].
  cbn [schedule snd story scenes].
  destruct (scenes (story s1) !! index) as [scene|]; [|split; assumption].
  destruct (audioData scene) as [buffer|]; cbn [schedule]; split;
    cbn [sources musicPlayerRef]; auto.
  apply Forall_app. split; [exact H1|]. repeat constructor.
Qed.

Lemma advanceNext_direct index s : direct s -> direct (advanceNext index s).
Proof.
  intros H. unfold advanceNext.
  destruct (_ <? _).
  - cbn [schedule set_stage]. exact H.
  - apply music_call_direct. exact H.
Qed.

Lemma run_task_direct t s : direct s -> direct (run_task t s).
Proof.
  intros H. destruct t; cbn [run_task].
  - apply advanceNext_direct, H.
  - apply playScene_direct, H.
  - destruct (isPlayingRef s); [apply advanceNext_direct|]; exact H.
  - exact H.
  - exact H.
Qed.

Lemma at_clock_direct t s : direct s -> direct (at_clock t s).
Proof.
  apply direct_ext; [reflexivity|]. cbn [at_clock musicPlayerRef].
  intros [x ->]. cbn. eauto.
Qed.

Lemma run_until_direct fuel t : forall s, direct s -> direct (run_until fuel t s).
Proof.
  induction fuel as [|fuel IH]; intros s H; cbn [run_until].
  - apply at_clock_direct, H.
  - destruct (next_pending (queue s)) as [p|]; [|apply at_clock_direct, H].
    destruct (due p <=? t); [|apply at_clock_direct, H].
    apply IH, run_task_direct.
    apply (direct_ext (at_clock (due p) s)); [reflexivity | auto |].
    apply at_clock_direct, H.
Qed.

Lemma toggleMute_direct s : direct s -> direct (toggleMute s).
Proof. intros H. unfold toggleMute, mute_effect. apply music_call_direct. exact H. Qed.

Lemma mount_direct st frame t0 : direct (mount st frame t0).
Proof.
  unfold mount, mute_effect. apply music_call_direct, playScene_direct.
  destruct (backgroundMusic st) as [[| | |]|];
    try apply music_call_direct; split; cbn; eauto; constructor.
Qed.

Lemma act_direct a s : direct s -> direct (act a s).
Proof.
  intros H. destruct a; cbn [act].
  - unfold handlePlayPause. destruct (isPlaying s).
    + apply music_call_direct. apply stopAudio_direct in H. exact H.
    + set (s1 := music_call _ s). assert (H1 : direct s1) by apply music_call_direct, H.
      destruct (isFinished s1); apply playScene_direct, H1.
  - unfold handleNext. destruct (_ <? _); [apply playScene_direct|]; exact H.
  - unfold handlePrevious. destruct (_ <? _)%nat; [apply playScene_direct|]; exact H.
  - apply toggleMute_direct, H.
  - apply run_until_direct, H.
Qed.

Lemma reachable_direct s : reachable s -> direct s.
Proof.
  intros (st & frame & t0 & acts & ->).
  assert (Hgen : forall acts s0, direct s0 ->
            direct (fold_left (fun acc a => act a acc) acts s0)).
  { induction acts0 as [|a acts0 IH]; intros s0 H0; [exact H0|].
    cbn [fold_left]. apply IH, act_direct, H0. }
  apply Hgen, mount_direct.
Qed.

(** ** Running the event loop *)

Local Open Scope Z_scope.

Lemma mount_eq st frame t0 :
  mount st frame t0 =
  mute_effect (playScene 0
    (mkState st 0 false false false active None None (Some (music0 st t0))
             false t0 frame [] 1 [])).
Proof.
  unfold mount, music0. destruct (backgroundMusic st) as [[| | |]|]; reflexivity.
Qed.

Lemma run_until_step fuel t s p s' :
  next_pending (queue s) = Some p -> due p <= t ->
  run_task (task p) (set_queue (cancel (pid p) (queue s)) (at_clock (due p) s)) = s' ->
  run_until (S fuel) t s = run_until fuel t s'.
Proof.
  intros Hp Hd <-. cbn [run_until]. rewrite Hp.
  rewrite (proj2 (Z.leb_le _ _) Hd). reflexivity.
Qed.

(** With nothing due, whatever the fuel, only the clock moves. *)
Lemma run_until_done fuel t s : settled t s -> run_until fuel t s = at_clock t s.
Proof.
  unfold settled. intros H. destruct fuel as [|fuel]; [reflexivity|].
  cbn [run_until]. destruct (next_pending (queue s)) as [p|]; [|reflexivity].
  rewrite (proj2 (Z.leb_gt _ _) H). reflexivity.
Qed.

Ltac zcmp :=
  repeat match goal with
  | |- context [Z.max ?a ?b] =>
      first [rewrite (Z.max_l a b) by lia | rewrite (Z.max_r a b) by lia]
  | |- context [Z.ltb ?a ?b] =>
      first [rewrite (proj2 (Z.ltb_lt a b)) by lia
            | rewrite (proj2 (Z.ltb_ge a b)) by lia]
  | |- context [Z.leb ?a ?b] =>
      first [rewrite (proj2 (Z.leb_le a b)) by lia
            | rewrite (proj2 (Z.leb_gt a b)) by lia]
  end.

Ltac norm1 :=
  cbv -[Ambient.advance_to Ambient.exec Ambient.constructor Ambient.stop
        Ambient.setVolume Ambient.play music0 duration_ms timeout_delay_half
        Z.add Z.max Z.leb Z.ltb Z.lt Z.le run_until];
  try change (timeout_delay_half 1000) with 500.

Ltac norm := norm1; repeat (progress zcmp; norm1).

(** Bring the state under [run_until] to a record. *)
Ltac settle_state :=
  match goal with |- context [run_until _ _ ?s] =>
    let s' := fresh "s" in evar (s' : State);
    replace s with s'; [|subst s'; norm; reflexivity]; subst s' end.

(** Run the next callback, when it is due by the hypotheses. *)
Ltac step_due :=
  match goal with |- context [run_until (S ?fuel) ?t ?s] =>
    let p := fresh "p" in evar (p : Pending);
    let Hp := fresh "Hp" in
    assert (Hp : next_pending (queue s) = Some p) by (subst p; norm; reflexivity);
    subst p;
    match type of Hp with _ = Some ?q =>
      erewrite (run_until_step fuel t s q _ Hp);
        [ | cbn [due]; lia | norm; reflexivity ]
    end; clear Hp
  end.

(** Nothing more is due. *)
Ltac finish :=
  rewrite run_until_done; [ | unfold settled; norm; try lia; try exact I ].

(** ** The synthesizer along a run of the player *)

Lemma by_time_music0 st T : 0 <= T -> by_time T (music0 st 0).
Proof.
  intros HT. unfold music0.
  assert (H0 : AmbientInv.Good (Ambient.advance_to 0 (Ambient.constructor 0)) /\
               Ambient.now (Ambient.advance_to 0 (Ambient.constructor 0)) = 0).
  { destruct (AmbientFacts.Good_advance_to 0 _ (AmbientFacts.Good_constructor 0))
      as [HG Hn]. split; [exact HG|]. rewrite Hn. reflexivity. }
  destruct H0 as [HG Hn].
  assert (Hplay : forall mood,
            by_time T (Ambient.exec (Ambient.play mood)
                         (Ambient.advance_to 0 (Ambient.constructor 0)))).
  { intros mood. split.
    - apply (AmbientFacts.Good_apply_op (Ambient.OpPlay mood)), HG.
    - destruct (AmbientFacts.play_timers mood
                  (Ambient.advance_to 0 (Ambient.constructor 0))) as (-> & _).
      lia. }
  destruct (backgroundMusic st) as [[| | |]|]; try apply Hplay;
    (split; [apply AmbientFacts.Good_constructor | cbn; lia]).
Qed.

Lemma by_time_advance d T m : by_time T m -> d <= T -> by_time T (Ambient.advance_to d m).
Proof.
  intros [HG Hn] Hd. destruct (AmbientFacts.Good_advance_to d m HG) as [HG' Hn'].
  split; [exact HG' | lia].
Qed.

Lemma by_time_setVolume v T m :
  by_time T m -> by_time T (Ambient.exec (Ambient.setVolume v) m).
Proof.
  intros [HG Hn]. split.
  - apply (AmbientFacts.Good_apply_op (Ambient.OpSetVolume v)), HG.
  - rewrite AmbientFacts.setVolume_exec. exact Hn.
Qed.

Lemma stopped_at T t m :
  by_time T m -> T <= t ->
  let m' := Ambient.advance_to t
              (Ambient.exec Ambient.stop (Ambient.advance_to T m)) in
  (forall w, T + 1000 <= w ->
     (Ambient.value_at (Ambient.gain m') w == 0)%Q) /\
  (T + 1100 <= t -> Ambient.nodes m' = [] /\ Ambient.timers m' = []).
Proof.
  intros [HG Hn] Ht.
  destruct (AmbientFacts.Good_advance_to T m HG) as [HG' Hn'].
  apply AmbientFacts.stopped_by; [exact HG' | lia | exact Ht].
Qed.

Ltac music_chain :=
  repeat first [ apply by_time_advance | apply by_time_setVolume
               | apply by_time_music0 ]; lia.

(** ** The two-scene timeline *)

(** Read the fields of the state reached. *)
Ltac read_state :=
  cbv [at_clock currentSceneIndex isPlaying isFinished layoutStage musicPlayerRef
       ambient_stopped fmap option_fmap option_map].

Ltac run_to_end := repeat step_due; finish; read_state.

Ltac facts :=
  repeat match goal with |- _ /\ _ => split end;
  try reflexivity; try discriminate.

Lemma timeline_with_default title mood i1 n1 p1 im1 b ab1 tr1 i2 n2 p2 im2 ab2 tr2 frame :
  0 < frame < 500 -> duration_ms b = 2000 ->
  (tr2 = None \/ exists ty d, tr2 = Some (mkTransition ty d) /\
                              (d = NaN \/ d = Num 0 \/ d = Num 1000)) ->
  two_scene_timeline
    (mkStory title [mkScene i1 n1 p1 im1 (Some b) ab1 tr1;
                    mkScene i2 n2 p2 im2 None ab2 tr2] mood) frame.
Proof.
  intros Hf Hb Htr fuel t Hfuel.
  do 7 (destruct fuel as [|fuel]; [lia|]). cbv zeta.
  rewrite mount_eq. unfold mute_effect.
  set (st := mkStory _ _ _).
  assert (Hcases : tr2 = None \/ (exists ty, tr2 = Some (mkTransition ty NaN)) \/
                   (exists ty, tr2 = Some (mkTransition ty (Num 0))) \/
                   (exists ty, tr2 = Some (mkTransition ty (Num 1000)))).
  { destruct Htr as [-> | (ty & d & -> & [-> | [-> | ->]])]; eauto 6. }
  clear Htr.
  split; [|split; [|split]]; intros Ht.
  - assert (Hsub : t < frame \/ frame <= t < frame + frame \/ frame + frame <= t) by lia.
    destruct Hsub as [H1|[H1|H1]];
      destruct Hcases as [-> | [[ty ->] | [[ty ->] | [ty ->]]]];
      subst st; settle_state; rewrite Hb; run_to_end; facts.
  - destruct Hcases as [-> | [[ty ->] | [[ty ->] | [ty ->]]]];
      subst st; settle_state; rewrite Hb; run_to_end; facts.
  - assert (Hsub : t < 2500 + frame \/ 2500 + frame <= t < 2500 + frame + frame \/
                   2500 + frame + frame <= t) by lia.
    destruct Hsub as [H1|[H1|H1]];
      destruct Hcases as [-> | [[ty ->] | [[ty ->] | [ty ->]]]];
      subst st; settle_state; rewrite Hb; run_to_end; facts.
  - destruct Hcases as [-> | [[ty ->] | [[ty ->] | [ty ->]]]];
      subst st; settle_state; rewrite Hb; run_to_end; facts;
      (eexists; split; [reflexivity|]);
      (apply (stopped_at 5500 t); [music_chain | lia]).
Qed.

Lemma or_default_cases (tr : option TransitionSettings) :
  or_default (duration <$> tr) 1000 = 1000 ->
  tr = None \/ exists ty d, tr = Some (mkTransition ty d) /\
                            (d = NaN \/ d = Num 0 \/ d = Num 1000).
Proof.
  destruct tr as [[ty [|z]]|]; cbn; intros H; [right | right | left; reflexivity].
  - exists ty, NaN. auto.
  - exists ty, (Num z). split; [reflexivity|]. right.
    destruct (Z.eqb_spec z 0); [left | right]; congruence.
Qed.

Lemma lasts_duration_ms b ms : lasts b ms -> duration_ms b = ms.
Proof.
  intros [Hr Hl]. unfold duration_ms. rewrite Hl. apply Z.div_mul. lia.
Qed.

(** C3. A two-scene story whose scene 1 has a 2000 ms narration and the
    default transition duration (1000 ms, or unset) and whose scene 2 has no
    narration, the transition duration being 1000 ms or unset there too:
    scene 1 plays for 2000 ms, then the exit stage begins; 500 ms later,
    half the 1000 ms, scene 2 begins through [playScene(1)]; 3000 ms later
    the story is finished, playback is off and [stop()] has been called on
    the ambient synthesizer.  The animation frame takes less than 500 ms. *)
Theorem two_scene_timeline_as_stated (st : Story) (frame : Z) :
  0 < frame < 500 -> scenario_as_stated st -> two_scene_timeline st frame.
Proof.
  intros Hf (sc1 & sc2 & b & Hsc & Ha1 & Hb & _ & Ha2 & Htr).
  destruct st as [title scs mood]. cbn [scenes] in Hsc. subst scs.
  destruct sc1 as [i1 n1 p1 im1 a1 ab1 tr1], sc2 as [i2 n2 p2 im2 a2 ab2 tr2].
  cbn [audioData transition] in *. subst a1 a2.
  apply timeline_with_default;
    [exact Hf | apply lasts_duration_ms, Hb | apply or_default_cases, Htr].
Qed.

Lemma two_scene_timeline_as_stated_witness :
  scenario_as_stated default_second_scene /\
  currentSceneIndex (run_until 7 1999 (mount default_second_scene 16 0)) = 0%nat /\
  layoutStage (run_until 7 2000 (mount default_second_scene 16 0)) = exit /\
  currentSceneIndex (run_until 7 2499 (mount default_second_scene 16 0)) = 0%nat /\
  currentSceneIndex (run_until 7 2500 (mount default_second_scene 16 0)) = 1%nat /\
  isFinished (run_until 7 5499 (mount default_second_scene 16 0)) = false /\
  isFinished (run_until 7 5500 (mount default_second_scene 16 0)) = true.
Proof.
  assert (Hs : scenario_as_stated default_second_scene).
  { unfold default_second_scene. do 3 eexists.
    split; [reflexivity|]. split; [reflexivity|].
    split; [split; reflexivity|].
    split; [reflexivity|]. split; reflexivity. }
  split; [exact Hs|].
  pose proof (two_scene_timeline_as_stated default_second_scene 16
                ltac:(lia) Hs 7%nat) as H.
  split; [apply (proj1 (H 1999 (le_n 7))); lia|].
  split; [apply (proj1 (proj2 (H 2000 (le_n 7)))); lia|].
  split; [apply (proj1 (proj2 (H 2499 (le_n 7)))); lia|].
  split; [apply (proj1 (proj2 (proj2 (H 2500 (le_n 7))))); lia|].
  split; [apply (proj1 (proj2 (proj2 (H 5499 (le_n 7))))); lia|].
  apply (proj2 (proj2 (proj2 (H 5500 (le_n 7))))); lia.
Defined.

(** The duration halved is the one of the scene coming next: with scene 2 at
    (fade, 3000 ms), 500 ms after the exit began scene 1 is still the current
    scene. *)
Lemma timeline_follows_next_scene_transition :
  ~ two_scene_timeline slow_second_scene 16.
Proof.
  intros H.
  destruct (H 7%nat 2500 (le_n 7)) as (_ & _ & H3 & _).
  destruct (H3 ltac:(lia)) as (Hidx & _).
  vm_compute in Hidx. discriminate.
Qed.

(** ** The delay [advanceNext] sets *)

(** Whatever duration is stored for the next scene (0, negative, [NaN],
    none), [advanceNext] on a scene that is not the last sets exactly one
    callback, [playScene(currentIndex + 1)], due at a time that is not
    before the present: there is no division by the duration and nothing to
    wait for forever. *)
Lemma timeout_delay_half_nonneg d : 0 <= timeout_delay_half d.
Proof. unfold timeout_delay_half. lia. Qed.

Lemma advanceNext_schedules_next index s :
  Z.of_nat index < Z.of_nat (length (scenes (story s))) - 1 ->
  let d := or_default (duration <$> (scenes (story s) !! (index + 1)%nat ≫= transition))
                      1000 in
  queue (advanceNext index s) =
    queue s ++ [mkPending (nextId s) (clock s + timeout_delay_half d)
                          (TimeoutPlay (index + 1))] /\
  layoutStage (advanceNext index s) = exit /\
  isFinished (advanceNext index s) = isFinished s /\
  d <> 0 /\ clock s <= clock s + timeout_delay_half d.
Proof.
  intros Hlt. cbv zeta. unfold advanceNext.
  rewrite (proj2 (Z.ltb_lt _ _) Hlt). cbn [schedule set_stage queue layoutStage
    isFinished clock nextId].
  repeat split; [|pose proof (timeout_delay_half_nonneg
      (or_default (duration <$> (scenes (story s) !! (index + 1)%nat ≫= transition))
                  1000)); lia].
  destruct (scenes (story s) !! (index + 1)%nat ≫= transition) as [[ty [|z]]|];
    cbn; try discriminate.
  destruct (Z.eqb_spec z 0); [discriminate | assumption].
Qed.

(** ** [setVolume] sets the gain at once *)

Local Open Scope Q_scope.

Lemma eval_insert_set l : forall pv pt v t,
  Ambient.eval_events pv pt (Ambient.insert_event (Ambient.SetValue v t) l) t == v.
Proof.
  induction l as [|e l IH]; intros pv pt v t.
  - cbn. rewrite Z.leb_refl. reflexivity.
  - cbn [Ambient.insert_event Ambient.ev_time].
    destruct (Z.leb_spec (Ambient.ev_time e) t) as [Hle|Hgt].
    + cbn [Ambient.eval_events]. rewrite (proj2 (Z.leb_le _ _) Hle). apply IH.
    + cbn [Ambient.eval_events Ambient.ev_time Ambient.ev_value].
      rewrite Z.leb_refl. rewrite (proj2 (Z.leb_gt _ _) Hgt).
      destruct e as [v' te|v' te]; [reflexivity|].
      rewrite Z.sub_diag. change (inject_Z 0) with 0. unfold Qdiv. ring.
Qed.

Lemma setVolume_value v m :
  Ambient.value_at (Ambient.gain (Ambient.exec (Ambient.setVolume v) m))
                   (Ambient.now m) == v.
Proof.
  rewrite AmbientFacts.setVolume_exec. cbn [Ambient.gain]. unfold Ambient.value_at.
  cbn [Ambient.setValueAtTime Ambient.events Ambient.intrinsic Ambient.since].
  apply eval_insert_set.
Qed.

(** The mute button of a mounted player, at any moment: the master gain of
    the ambient synthesizer reads 0 (muting) or 0.08 (unmuting) at the time
    of the call, whatever it does later, and only the gain timeline of the
    synthesizer changes; every narration source is connected to the
    destination itself, so that no gain stands between it and the output;
    scene index, stage, finished and playing flags, pending callbacks and
    narration sources are what they were. *)
Lemma toggleMute_frame s :
  reachable s ->
  let s' := toggleMute s in
  isMuted s' = negb (isMuted s) /\
  (exists m m',
     musicPlayerRef s = Some m /\ musicPlayerRef s' = Some m' /\
     m' = Ambient.exec (Ambient.setVolume (if isMuted s' then 0 else 8 # 100))
                       (Ambient.advance_to (clock s) m) /\
     Ambient.value_at (Ambient.gain m') (Ambient.now m') ==
       (if isMuted s' then 0 else 8 # 100) /\
     Ambient.store m' = Ambient.store (Ambient.advance_to (clock s) m) /\
     Ambient.edges m' = Ambient.edges (Ambient.advance_to (clock s) m) /\
     Ambient.nodes m' = Ambient.nodes (Ambient.advance_to (clock s) m)) /\
  Forall (fun x => src_output x = Ambient.ToDestination /\
                   narration_level s' x == 1) (sources s') /\
  sources s' = sources s /\ queue s' = queue s /\
  currentSceneIndex s' = currentSceneIndex s /\ layoutStage s' = layoutStage s /\
  isFinished s' = isFinished s /\ isPlaying s' = isPlaying s /\
  isPlayingRef s' = isPlayingRef s /\ audioSourceRef s' = audioSourceRef s /\
  transitionTimeoutRef s' = transitionTimeoutRef s /\ clock s' = clock s /\
  story s' = story s.
Proof.
  intros Hreach. destruct (reachable_direct s Hreach) as [Hsrc [m Hm]]. cbv zeta.
  split; [reflexivity|]. split.
  - exists m. eexists. split; [exact Hm|]. split.
    + unfold toggleMute, mute_effect, music_call.
      cbn [set_music musicPlayerRef isMuted clock]. rewrite Hm. reflexivity.
    + split; [reflexivity|]. split.
      * rewrite AmbientFacts.setVolume_exec at 2. cbn [Ambient.now].
        apply setVolume_value.
      * rewrite AmbientFacts.setVolume_exec. repeat split.
  - split; [|repeat split].
    change (sources (toggleMute s)) with (sources s).
    eapply Forall_impl; [exact Hsrc|]. intros x Hx. cbv beta.
    split; [exact Hx|]. unfold narration_level. rewrite Hx. reflexivity.
Qed.

(** ** A mute during the fade-in *)

(** The gain timeline of a player mounted at 0 with music and muted at
    500 ms: the value set at 500 ms is the start of the ramp that [play]
    left pending. *)
Lemma fade_in_resumes (v : Q) (w : Z) :
  let p := Ambient.mkParam (5 # 100) 0
             [Ambient.SetValue 0 0; Ambient.SetValue (8 # 100) 0;
              Ambient.SetValue v 500; Ambient.LinearRamp (8 # 100) 2000] in
  ((2000 <= w)%Z -> Ambient.value_at p w == 8 # 100) /\
  ((500 <= w < 2000)%Z ->
   Ambient.value_at p w ==
   v + ((8 # 100) - v) * (inject_Z (w - 500) / 1500)).
Proof.
  cbv zeta. unfold Ambient.value_at.
  cbn [Ambient.eval_events Ambient.intrinsic Ambient.since Ambient.events
       Ambient.ev_time Ambient.ev_value].
  split; intros Hw.
  - rewrite (proj2 (Z.leb_le 0 w)) by lia.
    rewrite (proj2 (Z.leb_le 500 w)) by lia.
    rewrite (proj2 (Z.leb_le 2000 w)) by lia. reflexivity.
  - rewrite (proj2 (Z.leb_le 0 w)) by lia.
    rewrite (proj2 (Z.leb_le 500 w)) by lia.
    rewrite (proj2 (Z.leb_gt 2000 w)) by lia. reflexivity.
Qed.

(** C10. What the code does when the mute button is pressed 500 ms after a
    player was mounted with music and a first scene that has a 2000 ms
    narration.  [isMuted] becomes true and [setVolume(0)] is called: the
    master gain reads 0 at 500 ms.  The fade-in ramp that [play] set is still
    pending and starts again from that 0: the gain is positive right after,
    0.04 at 1250 ms and 0.08 from 2000 ms on, with the player still muted.
    The narration source is connected to the destination and plays at full
    level, not stopped; scene index, stage, finished and playing flags,
    pending callbacks and narration sources are what they were before the
    button was pressed.  The claim has the master gain set to 0 by a mute. *)
Theorem mute_is_undone_by_the_fade_in :
  let s0 := run_until 5 500 (mount default_second_scene 16 0) in
  let s1 := toggleMute s0 in
  let s2 := run_until 5 1999 s1 in
  let s3 := run_until 5 2000 s1 in
  (isPlaying s0 = true /\ isMuted s0 = false /\ isMuted s1 = true /\
   isMuted s2 = true /\ isMuted s3 = true) /\
  (exists m1,
     musicPlayerRef s1 = Some m1 /\
     Ambient.value_at (Ambient.gain m1) 500 == 0 /\
     (forall w, (500 < w < 2000)%Z ->
        Ambient.value_at (Ambient.gain m1) w ==
        (8 # 100) * (inject_Z (w - 500) / 1500) /\
        0 < Ambient.value_at (Ambient.gain m1) w) /\
     Ambient.value_at (Ambient.gain m1) 1250 == 4 # 100 /\
     (forall w, (2000 <= w)%Z ->
        Ambient.value_at (Ambient.gain m1) w == 8 # 100)) /\
  (exists m2 m3,
     musicPlayerRef s2 = Some m2 /\ Ambient.now m2 = 1999%Z /\
     Ambient.value_at (Ambient.gain m2) (Ambient.now m2) == 11992 # 150000 /\
     musicPlayerRef s3 = Some m3 /\ Ambient.now m3 = 2000%Z /\
     Ambient.value_at (Ambient.gain m3) (Ambient.now m3) == 8 # 100) /\
  (sources s1 = [mkSource 2 0 Ambient.ToDestination 0 2000 false] /\
   sources s2 = sources s1 /\
   Forall (fun x => narration_level s1 x == 1) (sources s1) /\
   Forall (fun x => narration_level s2 x == 1) (sources s2)) /\
  (sources s1 = sources s0 /\ queue s1 = queue s0 /\
   currentSceneIndex s1 = currentSceneIndex s0 /\
   layoutStage s1 = layoutStage s0 /\ isFinished s1 = isFinished s0 /\
   isPlaying s1 = isPlaying s0 /\ audioSourceRef s1 = audioSourceRef s0 /\
   clock s1 = clock s0).
Proof.
  cbv zeta.
  split; [vm_compute; repeat split|].
  split.
  - eexists. split; [vm_compute; reflexivity|].
    cbn [Ambient.gain].
    split; [vm_compute; reflexivity|].
    split; [|split; [vm_compute; reflexivity|]].
    + intros w Hw.
      assert (E : Ambient.value_at
                    (Ambient.mkParam (5 # 100) 0
                       [Ambient.SetValue 0 0; Ambient.SetValue (8 # 100) 0;
                        Ambient.SetValue 0 500; Ambient.LinearRamp (8 # 100) 2000]) w ==
                  (8 # 100) * (inject_Z (w - 500) / 1500)).
      { rewrite (proj2 (fade_in_resumes 0 w)) by lia. ring. }
      split; [exact E|]. rewrite E.
      apply Qmult_lt_0_compat; [reflexivity|].
      apply Qlt_shift_div_l; [reflexivity|]. rewrite Qmult_0_l.
      change 0 with (inject_Z 0). rewrite <- Zlt_Qlt. lia.
    + intros w Hw. apply (proj1 (fade_in_resumes 0 w)), Hw.
  - split.
    + eexists. eexists.
      split; [vm_compute; reflexivity|]. split; [reflexivity|].
      split; [vm_compute; reflexivity|].
      split; [vm_compute; reflexivity|]. split; [reflexivity|].
      vm_compute; reflexivity.
    + split.
      * split; [vm_compute; reflexivity|]. split; [vm_compute; reflexivity|].
        split; vm_compute; repeat constructor.
      * vm_compute. repeat split.
Qed.

End PlayerFacts.

(* ===================================================================== *)
(** * Properties of the editor                                            *)
(* ===================================================================== *)

Module EditorFacts.

Import Story Editor.

(** [updateSceneTransition] stores the duration it is given, whatever it is,
    in the scene of the row and touches no other scene. *)
Lemma updateSceneTransition_stores index ty d st sc :
  scenes st !! index = Some sc ->
  exists st',
    updateSceneTransition index ty d st = Some st' /\
    scenes st' !! index = Some (with_transition sc (mkTransition ty d)) /\
    (forall j, j <> index -> scenes st' !! j = scenes st !! j) /\
    length (scenes st') = length (scenes st) /\
    title st' = title st /\ backgroundMusic st' = backgroundMusic st.
Proof.
  intros H. unfold updateSceneTransition. rewrite H. eexists. split; [reflexivity|].
  cbn [scenes title backgroundMusic]. repeat split.
  - apply list_lookup_insert_eq. eapply lookup_lt_Some, H.
  - intros j Hj. apply list_lookup_insert_ne. congruence.
  - apply length_insert.
Qed.

(** C4. What the code does when a duration outside [100, 5000] is typed in
    the duration field of the first row: the change handler parses the text
    and [updateSceneTransition] stores the number as it is (7000, 0, -5) or
    [NaN] for an empty field; nothing rejects or clamps it. *)
Theorem duration_field_stores_out_of_range :
  forall title sc rest music,
    let st := mkStory title (sc :: rest) music in
    let ty := from_option type fade (transition sc) in
    let stored d := Some (mkStory title
                            (with_transition sc (mkTransition ty d) :: rest) music) in
    onDurationChange 0 "7000" st = stored (Num 7000) /\ in_range (Num 7000) = false /\
    onDurationChange 0 "0" st = stored (Num 0) /\ in_range (Num 0) = false /\
    onDurationChange 0 "-5" st = stored (Num (-5)) /\ in_range (Num (-5)) = false /\
    onDurationChange 0 "" st = stored NaN /\ in_range NaN = false.
Proof.
  intros title sc rest music. cbv zeta. repeat split.
Qed.

(** ** [handleSave] *)

Section SaveFacts.

Variable setItem : nat -> Story -> option StorageError.


Lemma prepare_fields s stripImages stripAudio :
  title (prepareStoryForSave s stripImages stripAudio) = title s /\
  backgroundMusic (prepareStoryForSave s stripImages stripAudio) = backgroundMusic s /\
  map id (scenes (prepareStoryForSave s stripImages stripAudio)) = map id (scenes s) /\
  map narrative (scenes (prepareStoryForSave s stripImages stripAudio)) =
    map narrative (scenes s) /\
  map imagePrompt (scenes (prepareStoryForSave s stripImages stripAudio)) =
    map imagePrompt (scenes s) /\
  map transition (scenes (prepareStoryForSave s stripImages stripAudio)) =
    map transition (scenes s) /\
  map imageData (scenes (prepareStoryForSave s stripImages stripAudio)) =
    map (fun sc => if stripImages then None else imageData sc) (scenes s) /\
  map audioBase64 (scenes (prepareStoryForSave s stripImages stripAudio)) =
    map (fun sc => if stripAudio then None else audioBase64 sc) (scenes s).
Proof.
  cbn [prepareStoryForSave scenes title backgroundMusic].
  repeat split; rewrite map_map; reflexivity.
Qed.


End SaveFacts.


End EditorFacts.

(* ===================================================================== *)
(** * Properties of the draft restoration                                 *)
(* ===================================================================== *)

Module AppFacts.

Import Story App.

Lemma lookup_map {A B} (f : A -> B) (l : list A) (k : nat) :
  map f l !! k = f <$> l !! k.
Proof.
  revert k. induction l as [|a l IH]; intros [|k]; cbn; auto.
Qed.




End AppFacts.
(* ===================================================================== *)
(** * Properties of the exporter                                          *)
(* ===================================================================== *)

Module ExporterFacts.

Import Story Exporter.

(** ** [startExport] *)

(** The destination node has no [getAudioTracks]; its stream has. *)
Lemma getAudioTracks_of_node stream :
  getAudioTracks (MediaStreamAudioDestinationNode stream) = None /\
  getAudioTracks (MediaStream stream) = Some (List.filter is_audio stream).
Proof. split; reflexivity. Qed.



(** No callback is registered before [playAllScenes] is called. *)
Lemma step_mounted e s : phase s = Mounted -> step e s = s.
Proof. intros H. unfold step. rewrite H. destruct e; reflexivity. Qed.


(** ** The scene loop *)

Lemma behind_later s s' scene :
  (i s <= i s')%nat -> (phase s' = AwaitImage -> (i s < i s')%nat) ->
  behind s scene -> behind s' scene.
Proof. unfold behind. intros H1 H2 [H3 H4]. split; [lia|]. intros H. specialize (H2 H). lia. Qed.

Lemma orderly_scene_loop st recorder : orderly (scene_loop st recorder).
Proof.
  unfold scene_loop, playAllScenes, enter_scene.
  destruct recorder; cbn [story initial start_recorder scenes];
    destruct (0 <? length (scenes st))%nat; split; constructor.
Qed.

Lemma orderly_step e s : orderly s -> orderly (step e s).
Proof.
  intros H. pose proof H as (Hr & Hn). unfold step.
  destruct e as [t|t|t|t]; destruct (phase s) as [| |st d fp|] eqn:Hp; try exact H.
  - destruct (scenes (story s) !! i s) as [scene|]; [|exact H].
    split; cbn [rendered narrations phase i].
    + eapply Forall_impl; [exact Hr|]. intros f [H1 _]. split; [exact H1 | discriminate].
    + assert (Hold : Forall (fun n => behind
                (mkState (story s) (i s) (Rendering t (sceneDuration_of scene) true)
                   (progress s) (currentSceneIndex s) (isDone s) (recording s)
                   (musicSource s)
                   match audioData scene with
                   | Some _ => narrations s ++ [(i s, t)]
                   | None => narrations s
                   end (rendered s) (downloads s)) (fst n)) (narrations s)).
      { eapply Forall_impl; [exact Hn|]. intros n [H1 _]. split; [exact H1 | discriminate]. }
      destruct (audioData scene); [|exact Hold].
      apply Forall_app. split; [exact Hold|]. constructor; [|constructor].
      split; [cbn; lia | discriminate].
  - destruct fp; [|exact H].
    split; cbn [rendered narrations phase i].
    + apply Forall_app. split.
      * eapply Forall_impl; [exact Hr|]. intros f [H1 _]. split; [exact H1 | discriminate].
      * constructor; [|constructor]. split; [cbn; lia | discriminate].
    + eapply Forall_impl; [exact Hn|]. intros n [H1 _]. split; [exact H1 | discriminate].
  - destruct (st + timeout_delay d <=? t)%Z; [|exact H].
    unfold enter_scene. destruct (S (i s) <? length (scenes (story s)))%nat.
    + split; cbn [rendered narrations phase i].
      * eapply Forall_impl; [exact Hr|]. intros f [H1 _]. split; cbn; [lia | intros _; lia].
      * eapply Forall_impl; [exact Hn|]. intros n [H1 _]. split; cbn; [lia | intros _; lia].
    + split.
      * eapply Forall_impl; [exact Hr|]. intros f [H1 _]. split; cbn; [lia | discriminate].
      * eapply Forall_impl; [exact Hn|]. intros n [H1 _]. split; cbn; [lia | discriminate].
Qed.

Lemma orderly_run evs : forall s, orderly s -> orderly (run evs s).
Proof.
  induction evs as [|e evs IH]; intros s H; [exact H|].
  cbn [run fold_left]. apply IH, orderly_step, H.
Qed.

(** While the loop waits for an image, an event that is not its load changes
    nothing. *)
Lemma step_stalled e s :
  phase s = AwaitImage -> is_image_load e = false -> step e s = s.
Proof.
  intros Hp He. unfold step. rewrite Hp. destruct e; [discriminate| | |]; reflexivity.
Qed.

Lemma run_stalled evs : forall s,
  phase s = AwaitImage -> forallb (fun e => negb (is_image_load e)) evs = true ->
  run evs s = s.
Proof.
  induction evs as [|e evs IH]; intros s Hp He; [reflexivity|].
  cbn [forallb] in He. apply andb_true_iff in He. destruct He as [He1 He2].
  cbn [run fold_left]. rewrite step_stalled.
  - apply IH; assumption.
  - exact Hp.
  - apply negb_true_iff, He1.
Qed.

(** C9. The scene loop of [playAllScenes], for every story, with or without
    a recorder, in every course of events.  While the loop waits for the
    image of a scene, no frame of that scene has been rendered and its
    narration has not been started.  From any state in which the loop waits,
    whatever happens but the load of the image (an error of the image,
    frames, timers, any lapse of time) leaves the state as it is, every flag
    of the session included: there is no timeout, and the session is neither
    ended nor marked in any way.  The load of the image starts the
    narration, if any, and the render loop, and nothing else changes. *)
Theorem render_waits_for_image :
  (forall st recorder evs k,
     let s := run evs (scene_loop st recorder) in
     stalled_at k s ->
     Forall (fun f => (f_scene f < k)%nat) (rendered s) /\
     Forall (fun n => (fst n < k)%nat) (narrations s)) /\
  (forall s k evs,
     stalled_at k s ->
     forallb (fun e => negb (is_image_load e)) evs = true ->
     run evs s = s) /\
  (forall s k t scene,
     stalled_at k s -> scenes (story s) !! k = Some scene ->
     let s' := step (ImageLoad t) s in
     phase s' = Rendering t (sceneDuration_of scene) true /\
     rendered s' = rendered s /\
     narrations s' = narrations s ++
                     match audioData scene with
                     | Some _ => [(k, t)]
                     | None => []
                     end /\
     i s' = k /\ progress s' = progress s /\ isDone s' = isDone s /\
     recording s' = recording s /\ downloads s' = downloads s).
Proof.
  split; [|split].
  - intros st recorder evs k. cbv zeta. intros [Hi Hp].
    pose proof (orderly_run evs _ (orderly_scene_loop st recorder)) as (Hr & Hn).
    split.
    + eapply Forall_impl; [exact Hr|]. intros f [_ H]. rewrite <- Hi. apply H, Hp.
    + eapply Forall_impl; [exact Hn|]. intros n [_ H]. rewrite <- Hi. apply H, Hp.
  - intros s k evs [_ Hp] He. apply run_stalled; assumption.
  - intros s k t scene [Hi Hp] Hsc. cbv zeta. unfold step. rewrite Hp, Hi, Hsc.
    cbn [phase rendered narrations i progress isDone recording downloads].
    repeat split.
    destruct (audioData scene); [reflexivity | rewrite app_nil_r; reflexivity].
Qed.

Lemma render_waits_for_image_witness :
  let s := run [ImageLoad 0; AnimationFrame 16; TimerFired 4000]
               (scene_loop narrated_then_silent true) in
  stalled_at 1 s /\
  Forall (fun f => (f_scene f < 1)%nat) (rendered s) /\
  Forall (fun n => (fst n < 1)%nat) (narrations s) /\
  run [ImageError 10; AnimationFrame 20; TimerFired 100000]
      (scene_loop one_silent_scene false) = scene_loop one_silent_scene false /\
  phase (step (ImageLoad 5) (scene_loop one_silent_scene false)) =
    Rendering 5 4000 true.
Proof.
  cbv zeta.
  destruct render_waits_for_image as (H1 & H2 & H3).
  assert (Hs : stalled_at 1 (run [ImageLoad 0; AnimationFrame 16; TimerFired 4000]
                                 (scene_loop narrated_then_silent true))).
  { split; reflexivity. }
  split; [exact Hs|].
  destruct (H1 narrated_then_silent true
               [ImageLoad 0; AnimationFrame 16; TimerFired 4000] 1%nat Hs)
    as [Hf Hn].
  split; [exact Hf|]. split; [exact Hn|]. split.
  - apply (H2 _ 0%nat); [split; reflexivity | reflexivity].
  - destruct (H3 (scene_loop one_silent_scene false) 0%nat 5%Z
                 (mkScene 1 "once" "a" (Some "data:image/png;base64,AA"%string)
                          None None None)
                 (conj eq_refl eq_refl) eq_refl) as (H & _).
    exact H.
Defined.


(** ** The render loop against the scene timer *)

(** [playAllScenes] taken by itself, entered with a started recorder on a
    one-scene story without narration, the frames coming every 17 ms: the
    last frame before the scene's timer is at 3995 ms of 4000, the timer
    then ends the scene and the recorder stops with the progress at 99.875
    per cent. *)
Lemma scene_loop_can_stop_short :
  let final := run (ImageLoad 0 :: frames_every 17 235 ++ [TimerFired 4000])
                   (scene_loop one_silent_scene true) in
  phase final = WrappedUp /\ isDone final = true /\ downloads final = 1%nat /\
  length (rendered final) = 235%nat /\
  (progress final == 799 # 8)%Q /\ ~ (progress final == 100)%Q.
Proof.
  cbv zeta. vm_compute. repeat split; try reflexivity. intros H. discriminate H.
Qed.

End ExporterFacts.

(* ===================================================================== *)
(** * More on the generator                                               *)
(* ===================================================================== *)

Module AmbientRunFacts.

Import Ambient AmbientInv AmbientFacts AmbientRun.

Local Open Scope Q_scope.

(** ** The [catch] of the teardown is never entered *)

Lemma teardown_body_ready id s :
  ready s id -> exists s', teardown_body id s = Returned s'.
Proof.
  intros (n & Hn & Hstarted). unfold teardown_body. rewrite Hn. cbn [from_option].
  destruct n as [k st sp]. cbn [kind] in *.
  destruct (is_oscillator k) eqn:Hk; cbn [and_then].
  - unfold node_stop. cbn [log_call store]. rewrite Hn.
    destruct st as [w|]; [|exfalso; apply Hstarted; reflexivity].
    cbn [and_then]. unfold node_disconnect. eauto.
  - unfold node_disconnect. eauto.
Qed.

Lemma caught_ready ids : forall s, Forall (ready s) ids -> caught ids s = 0%nat.
Proof.
  induction ids as [|id ids IH]; intros s H; [reflexivity|].
  inversion H as [|? ? Hid Hids]; subst. cbn [caught].
  destruct (teardown_body_ready id s Hid) as [s' ->].
  rewrite IH; [reflexivity|].
  eapply Forall_impl; [exact Hids|].
  intros j Hj. eapply ready_shrinks; [apply teardown_node_shrinks | exact Hj].
Qed.

(** X5. Whatever has been done with a generator, and whenever the callback runs,
    tearing down [this.nodes] raises no exception: every oscillator among the
    handles has been started, so [stop()] is accepted, and the [catch] is
    never entered. *)
Theorem teardown_never_throws s d :
  reachable s -> caught (nodes s) (at_time d s) = 0%nat.
Proof.
  intros Hr. apply caught_ready. exact (proj1 (reachable_Good s Hr)).
Qed.

Lemma teardown_never_throws_witness :
  caught (nodes (run_ops [OpPlay scifi; OpWait 300; OpPlay suspense] (constructor 0)))
         (at_time 5000 (run_ops [OpPlay scifi; OpWait 300; OpPlay suspense]
                                (constructor 0))) = 0%nat.
Proof.
  apply teardown_never_throws.
  exists 0%Z, [OpPlay scifi; OpWait 300; OpPlay suspense]. reflexivity.
Defined.

(** ** What [play] does to the master gain *)

Lemma keeps_gain_bind {A B} (m : M A) (f : A -> M B) :
  keeps_gain m -> (forall a, keeps_gain (f a)) -> keeps_gain (m ≫= f).
Proof.
  intros Hm Hf s. unfold mbind, M_bind.
  destruct (Hm s) as (H1 & H2). destruct (m s) as [a s1]. cbn [snd] in *.
  destruct (Hf a s1) as (H3 & H4). split; congruence.
Qed.

Ltac keeps_prim := intros ?; split; reflexivity.

Lemma createOscillator_keeps_gain freq type delay filter lfo :
  keeps_gain (createOscillator freq type delay filter lfo).
Proof.
  unfold createOscillator.
  apply keeps_gain_bind; [keeps_prim|]; intros osc.
  apply keeps_gain_bind; [keeps_prim|]; intros g.
  apply keeps_gain_bind.
  { destruct filter; [|keeps_prim].
    apply keeps_gain_bind; [keeps_prim|]; intros b.
    apply keeps_gain_bind; [keeps_prim|]; intros u. keeps_prim. }
  intros lastNode.
  apply keeps_gain_bind.
  { destruct lfo; [|keeps_prim].
    apply keeps_gain_bind; [keeps_prim|]; intros lo.
    apply keeps_gain_bind; [keeps_prim|]; intros lg.
    apply keeps_gain_bind; [keeps_prim|]; intros k.
    destruct (from_option is_biquad false k); [|keeps_prim].
    repeat (apply keeps_gain_bind; [keeps_prim|]; intros ?). keeps_prim. }
  intros u.
  repeat (apply keeps_gain_bind; [keeps_prim|]; intros ?).
  destruct (negb (lastNode =? osc)%nat); keeps_prim.
Qed.

Ltac keeps_step :=
  lazymatch goal with
  | |- keeps_gain (createOscillator _ _ _ _ _) => apply createOscillator_keeps_gain
  | |- keeps_gain (_ ≫= _) => apply keeps_gain_bind; [|intros ?]
  | |- keeps_gain _ => keeps_prim
  end.

Lemma play_gain mood s :
  mood <> none ->
  gain (exec (play mood) s) =
  linearRampToValueAtTime (8 # 100) (now s + 2000)
    (setValueAtTime 0 (now s)
       (cancelScheduledValues (now s) (gain (exec stop s)))) /\
  masterGain (exec (play mood) s) = masterGain s.
Proof.
  intros Hm. unfold play.
  destruct mood; [congruence| | |];
    (rewrite exec_bind; rewrite exec_bind; rewrite exec_bind; rewrite exec_bind;
     rewrite exec_bind;
     match goal with
     | |- gain (exec ?m ?x) = _ /\ _ =>
         let K := fresh "K" in
         assert (K : keeps_gain m) by repeat keeps_step;
         unfold exec at 1 3; rewrite (proj1 (K x)), (proj2 (K x))
     end; split; reflexivity).
Qed.

Lemma stop_events s :
  let old := List.filter (fun e => (Ambient.ev_time e <? now s)%Z) (events (gain s)) in
  events (gain (exec stop s)) =
    old ++ [SetValue (value_at (gain s) (now s)) (now s); LinearRamp 0 (now s + 1000)] /\
  Forall (fun e => (Ambient.ev_time e < now s)%Z) old.
Proof.
  cbv zeta. set (old := List.filter _ _).
  assert (Hold : Forall (fun e => (Ambient.ev_time e < now s)%Z) old).
  { eapply Forall_impl; [apply filter_Forall|]. intros e He. apply Z.ltb_lt, He. }
  split; [|exact Hold].
  rewrite stop_exec. cbn [gain].
  cbn [linearRampToValueAtTime setValueAtTime cancelScheduledValues events].
  fold old.
  rewrite (insert_event_last (SetValue _ _) old).
  2:{ eapply Forall_impl; [exact Hold|]. intros e He. cbv beta in He.
      cbn [Ambient.ev_time]. lia. }
  rewrite insert_event_last.
  2:{ apply Forall_app. split.
      - eapply Forall_impl; [exact Hold|]. intros e He. cbv beta in He.
        cbn [Ambient.ev_time]. lia.
      - repeat constructor. cbn [Ambient.ev_time]. lia. }
  rewrite <- app_assoc. reflexivity.
Qed.

Lemma filter_app_drop (t : Z) (old r : list AutoEvent) :
  Forall (fun e => (Ambient.ev_time e < t)%Z) old ->
  Forall (fun e => (t <= Ambient.ev_time e)%Z) r ->
  List.filter (fun e => (Ambient.ev_time e <? t)%Z) (old ++ r) = old.
Proof.
  intros Ho Hr. rewrite List.filter_app.
  rewrite (PcmFacts.filter_keep _ old).
  2:{ eapply Forall_impl; [exact Ho|]. intros e He. apply Z.ltb_lt, He. }
  rewrite (filter_drop _ r).
  2:{ eapply Forall_impl; [exact Hr|]. intros e He. apply Z.ltb_ge, He. }
  apply app_nil_r.
Qed.

Lemma play_events mood s :
  mood <> none ->
  exists old,
    events (gain (exec (play mood) s)) =
      old ++ [SetValue 0 (now s); LinearRamp (8 # 100) (now s + 2000)] /\
    Forall (fun e => (Ambient.ev_time e < now s)%Z) old /\
    intrinsic (gain (exec (play mood) s)) = intrinsic (gain s) /\
    since (gain (exec (play mood) s)) = since (gain s).
Proof.
  intros Hm. destruct (play_gain mood s Hm) as [-> _].
  destruct (stop_events s) as [He Hold]. cbv zeta in *.
  set (old := List.filter _ _) in *. exists old.
  cbn [linearRampToValueAtTime setValueAtTime cancelScheduledValues events
       intrinsic since].
  rewrite He. rewrite filter_app_drop; [|exact Hold|].
  2:{ repeat constructor; cbn [Ambient.ev_time]; lia. }
  rewrite (insert_event_last (SetValue _ _) old).
  2:{ eapply Forall_impl; [exact Hold|]. intros e H. cbv beta in H.
      cbn [Ambient.ev_time]. lia. }
  rewrite insert_event_last.
  2:{ apply Forall_app. split.
      - eapply Forall_impl; [exact Hold|]. intros e H. cbv beta in H.
        cbn [Ambient.ev_time]. lia.
      - repeat constructor. cbn [Ambient.ev_time]. lia. }
  rewrite <- app_assoc. split; [reflexivity|]. split; [exact Hold|].
  rewrite stop_exec. split; reflexivity.
Qed.

(** X6. [play(mood)] for a mood that sounds: whatever was scheduled on the master
    gain, the fade-out of its own [stop()] included, is cancelled; the gain
    starts from silence and rises linearly to 0.08 over two seconds, where it
    stays.  The master gain node is the same as before. *)
Theorem play_fades_in mood s :
  mood <> none ->
  let t := now s in
  let s1 := exec (play mood) s in
  (forall u, (t <= u < t + 2000)%Z ->
     value_at (gain s1) u == (8 # 100) * (inject_Z (u - t) / 2000)) /\
  (forall u, (t + 2000 <= u)%Z -> value_at (gain s1) u == 8 # 100) /\
  masterGain s1 = masterGain s.
Proof.
  intros Hm. cbv zeta.
  destruct (play_events mood s Hm) as (old & He & Hold & _).
  assert (Hv : forall u, (now s <= u)%Z ->
            value_at (gain (exec (play mood) s)) u =
            eval_events 0 (now s) [LinearRamp (8 # 100) (now s + 2000)] u).
  { intros u Hu. unfold value_at. rewrite He.
    apply eval_events_past; [|exact Hu].
    eapply Forall_impl; [exact Hold|]. intros e H. cbv beta in *. lia. }
  split; [|split].
  - intros u Hu. rewrite Hv by lia.
    cbn [eval_events Ambient.ev_time Ambient.ev_value].
    rewrite (proj2 (Z.leb_gt _ _)) by lia.
    replace (now s + 2000 - now s)%Z with 2000%Z by lia.
    change (inject_Z 2000) with 2000. field.
  - intros u Hu. rewrite Hv by lia.
    cbn [eval_events Ambient.ev_time Ambient.ev_value].
    rewrite (proj2 (Z.leb_le _ _)) by lia. reflexivity.
  - exact (proj2 (play_gain mood s Hm)).
Qed.

Lemma play_fades_in_witness :
  value_at (gain (exec (play suspense) (constructor 0))) 500 == 2 # 100 /\
  value_at (gain (exec (play suspense) (constructor 0))) 2500 == 8 # 100.
Proof.
  destruct (play_fades_in suspense (constructor 0) ltac:(discriminate)) as (H1 & H2 & _).
  split.
  - rewrite (H1 500%Z) by (cbn; lia). reflexivity.
  - apply H2. cbn. lia.
Defined.

(** ** A volume set while a ramp is pending *)

Lemma insert_event_app x l r :
  Forall (fun e => (Ambient.ev_time e <= Ambient.ev_time x)%Z) l ->
  insert_event x (l ++ r) = l ++ insert_event x r.
Proof.
  induction l as [|e l IH]; intros H; [reflexivity|].
  inversion H as [|? ? He Hl]; subst. cbn [app insert_event].
  rewrite (proj2 (Z.leb_le _ _) He). f_equal. apply IH, Hl.
Qed.

Lemma pending_ramp_wins old v0 t v1 t1 v t' u pv pt :
  Forall (fun e => (Ambient.ev_time e < t)%Z) old ->
  (t <= t' < t1)%Z -> (t1 <= u)%Z ->
  eval_events pv pt
    (insert_event (SetValue v t') (old ++ [SetValue v0 t; LinearRamp v1 t1])) u = v1.
Proof.
  intros Hold Ht Hu.
  rewrite insert_event_app.
  2:{ eapply Forall_impl; [exact Hold|]. intros e H. cbv beta in H.
      cbn [Ambient.ev_time]. lia. }
  cbn [insert_event Ambient.ev_time].
  rewrite (proj2 (Z.leb_le t t')) by lia.
  rewrite (proj2 (Z.leb_gt t1 t')) by lia.
  change (old ++ [SetValue v0 t; SetValue v t'; LinearRamp v1 t1])
    with (old ++ [SetValue v0 t] ++ SetValue v t' :: [LinearRamp v1 t1]).
  rewrite app_assoc. rewrite eval_events_past; [| |lia].
  - cbn [eval_events Ambient.ev_time Ambient.ev_value].
    rewrite (proj2 (Z.leb_le t1 u)) by lia. reflexivity.
  - apply Forall_app. split.
    + eapply Forall_impl; [exact Hold|]. intros e H. cbv beta in *. lia.
    + repeat constructor. cbn [Ambient.ev_time]. lia.
Qed.

(** X7. [setVolume] while a ramp is pending does not last: a volume set during
    the two-second fade-in of [play] (the mute of the player, say) is taken
    over by the ramp, and the gain is at 0.08 when the fade-in ends; a volume
    set during the fade-out of [stop] leaves the gain at 0 when it ends. *)
Theorem volume_set_during_a_ramp_is_lost s mood (dt : nat) v :
  reachable s -> mood <> none ->
  let t := now s in
  ((Z.of_nat dt < 2000)%Z ->
   let s1 := advance_to (t + Z.of_nat dt) (exec (play mood) s) in
   forall u, (t + 2000 <= u)%Z ->
     value_at (gain (exec (setVolume v) s1)) u == 8 # 100) /\
  ((Z.of_nat dt < 1000)%Z ->
   let s1 := advance_to (t + Z.of_nat dt) (exec stop s) in
   forall u, (t + 1000 <= u)%Z ->
     value_at (gain (exec (setVolume v) s1)) u == 0).
Proof.
  intros Hr Hm. cbv zeta.
  pose proof (reachable_Good s Hr) as HG.
  split; intros Hdt u Hu.
  - pose proof (Good_apply_op (OpPlay mood) s HG) as [HI1 _]. cbn [apply_op] in HI1.
    destruct (play_timers mood s) as (Hn & _).
    destruct (advance_to_facts (now s + Z.of_nat dt) _ HI1 ltac:(rewrite Hn; lia))
      as (_ & _ & Hnow & _ & Hg).
    rewrite setVolume_exec. cbn [gain]. rewrite Hnow, Hg.
    destruct (play_events mood s Hm) as (old & He & Hold & _).
    unfold value_at. cbn [setValueAtTime events intrinsic since]. rewrite He.
    rewrite (pending_ramp_wins old 0 (now s) (8 # 100) (now s + 2000) v) by
      (try exact Hold; lia).
    reflexivity.
  - pose proof (Good_apply_op OpStop s HG) as [HI1 _]. cbn [apply_op] in HI1.
    destruct (advance_to_facts (now s + Z.of_nat dt) _ HI1
                ltac:(rewrite stop_exec; cbn [now]; lia))
      as (_ & _ & Hnow & _ & Hg).
    rewrite setVolume_exec. cbn [gain]. rewrite Hnow, Hg.
    destruct (stop_events s) as [He Hold]. cbv zeta in *.
    unfold value_at. cbn [setValueAtTime events intrinsic since]. rewrite He.
    rewrite (pending_ramp_wins _ _ (now s) 0 (now s + 1000) v) by
      (try exact Hold; lia).
    reflexivity.
Qed.

Lemma volume_set_during_a_ramp_is_lost_witness :
  value_at (gain (exec (setVolume 0)
                    (advance_to (0 + Z.of_nat 500)
                       (exec (play ethereal) (run_ops [] (constructor 0))))))
           2000 == 8 # 100.
Proof.
  assert (R0 : reachable (run_ops [] (constructor 0)))
    by (exists 0%Z, []; reflexivity).
  destruct (volume_set_during_a_ramp_is_lost _ ethereal 500 0 R0 ltac:(discriminate))
    as [H _].
  apply H; cbn; lia.
Defined.

(** ** The graph [play] builds is torn down by the [stop()] it starts with *)

Lemma settle_all s u :
  Inv s -> timers s <> [] -> Forall (fun d => (d <= u)%Z) (timers s) ->
  let s2 := advance_to u s in
  nodes s2 = [] /\ timers s2 = [] /\
  (forall id, In id (nodes s) -> torn_down s2 id) /\
  calls s2 = calls s ++ teardown_calls s.
Proof.
  intros HI Hne Hdue. cbv zeta.
  rewrite (advance_to_all_due u s Hdue). cbv zeta.
  destruct (timers s) as [|d r] eqn:Ht; [congruence|]. cbn [fold_left].
  set (y := at_time d (with_timers [] s)).
  assert (HIy : Inv y) by exact HI.
  destruct (teardown_spec y HIy) as (Hn & Htorn & Hcalls & _ & Htm & _).
  destruct (fold_cleared r _ Hn) as (H1 & H2 & H3 & H4 & H5 & _).
  cbv zeta in *. cbn [at_time store edges calls nodes timers].
  split; [exact H4|]. split; [rewrite H5, Htm; reflexivity|]. split.
  - intros id Hid. specialize (Htorn id Hid).
    unfold torn_down in *. cbn [at_time store edges]. rewrite H1, H2. exact Htorn.
  - rewrite H3, Hcalls. reflexivity.
Qed.

Lemma extends_bind {A B} (m : M A) (f : A -> M B) :
  extends m -> (forall a, extends (f a)) -> extends (m ≫= f).
Proof.
  intros Hm Hf s. unfold mbind, M_bind.
  destruct (Hm s) as [l1 H1]. destruct (m s) as [a s1]. cbn [snd] in *.
  destruct (Hf a s1) as [l2 H2]. exists (l1 ++ l2).
  rewrite H2, H1, app_assoc. reflexivity.
Qed.

Lemma registers_then {A B} (m : M A) (f : A -> M B) :
  registers m -> (forall a, extends (f a)) -> registers (m ≫= f).
Proof.
  intros Hm Hf s. unfold mbind, M_bind.
  destruct (Hm s) as (l1 & H1 & Hne). destruct (m s) as [a s1]. cbn [snd] in *.
  destruct (Hf a s1) as [l2 H2]. exists (l1 ++ l2).
  rewrite H2, H1, app_assoc. split; [reflexivity|].
  destruct l1; [congruence | discriminate].
Qed.

Lemma then_registers {A B} (m : M A) (f : A -> M B) :
  extends m -> (forall a, registers (f a)) -> registers (m ≫= f).
Proof.
  intros Hm Hf s. unfold mbind, M_bind.
  destruct (Hm s) as [l1 H1]. destruct (m s) as [a s1]. cbn [snd] in *.
  destruct (Hf a s1) as (l2 & H2 & Hne). exists (l1 ++ l2).
  rewrite H2, H1, app_assoc. split; [reflexivity|].
  destruct l1; [exact Hne | discriminate].
Qed.

Lemma registers_extends {A} (m : M A) : registers m -> extends m.
Proof. intros H s. destruct (H s) as (l & Hl & _). eauto. Qed.

Ltac extends_prim :=
  intros ?; first [ exists []; cbn; rewrite app_nil_r; reflexivity
                  | eexists; reflexivity ].

Lemma createOscillator_registers freq type delay filter lfo :
  registers (createOscillator freq type delay filter lfo).
Proof.
  unfold createOscillator.
  apply then_registers; [extends_prim|]; intros osc.
  apply then_registers; [extends_prim|]; intros g.
  apply then_registers.
  { destruct filter; [|extends_prim].
    apply extends_bind; [extends_prim|]; intros b.
    apply extends_bind; [extends_prim|]; intros u. extends_prim. }
  intros lastNode.
  apply then_registers.
  { destruct lfo; [|extends_prim].
    apply extends_bind; [extends_prim|]; intros lo.
    apply extends_bind; [extends_prim|]; intros lg.
    apply extends_bind; [extends_prim|]; intros k.
    destruct (from_option is_biquad false k); [|extends_prim].
    repeat (apply extends_bind; [extends_prim|]; intros ?). extends_prim. }
  intros u.
  do 5 (apply then_registers; [extends_prim|]; intros ?).
  apply registers_then.
  { intros s. exists [osc]. split; [reflexivity | discriminate]. }
  intros ?. apply extends_bind; [extends_prim|]; intros ?.
  destruct (negb (lastNode =? osc)%nat); extends_prim.
Qed.

Ltac registers_step :=
  lazymatch goal with
  | |- registers (createOscillator _ _ _ _ _ ≫= _) =>
      apply registers_then; [apply createOscillator_registers | intros ?]
  | |- registers (createOscillator _ _ _ _ _) => apply createOscillator_registers
  | |- registers (_ ≫= _) => apply then_registers; [extends_prim | intros ?]
  | |- extends (createOscillator _ _ _ _ _) =>
      apply registers_extends, createOscillator_registers
  | |- extends (_ ≫= _) => apply extends_bind; [|intros ?]
  | |- extends _ => extends_prim
  end.

Lemma play_registers mood : mood <> none -> registers (play mood).
Proof.
  intros Hm. unfold play, stop.
  destruct mood; [congruence| | |]; repeat registers_step.
Qed.

(** X8. [play(mood)] starts with [stop()], whose callback runs 1100 ms later on
    whatever [this.nodes] holds then.  So, with no other call in between, the
    graph that [play] has just built and registered (at least one handle for
    a mood that sounds) is torn down with the old one: 1100 ms after any
    [play], no handle is left, every node it registered is disconnected and
    every oscillator among them stopped. *)
Theorem play_is_torn_down_by_its_own_stop s mood u :
  reachable s -> (now s + 1100 <= u)%Z ->
  let s1 := exec (play mood) s in
  let s2 := advance_to u s1 in
  (exists built, nodes s1 = nodes s ++ built /\ (mood <> none -> built <> [])) /\
  nodes s2 = [] /\ timers s2 = [] /\
  (forall id, In id (nodes s1) -> torn_down s2 id) /\
  calls s2 = calls s ++ teardown_calls s1.
Proof.
  intros Hr Hu. cbv zeta.
  pose proof (reachable_Good s Hr) as HG.
  pose proof (Good_apply_op (OpPlay mood) s HG) as [HI1 _]. cbn [apply_op] in HI1.
  destruct (play_timers mood s) as (Hn & Ht & Hc).
  split.
  - destruct mood.
    + exists []. split; [rewrite app_nil_r; reflexivity | congruence].
    + destruct (play_registers ethereal ltac:(discriminate) s) as (l & Hl & Hne). eauto.
    + destruct (play_registers suspense ltac:(discriminate) s) as (l & Hl & Hne). eauto.
    + destruct (play_registers scifi ltac:(discriminate) s) as (l & Hl & Hne). eauto.
  - destruct (settle_all (exec (play mood) s) u HI1) as (H1 & H2 & H3 & H4).
    + rewrite Ht. destruct (timers s); discriminate.
    + rewrite Ht. apply Forall_app. split.
      * destruct HG as [_ HT]. eapply Forall_impl; [exact HT|].
        intros d Hd. cbv beta in Hd. lia.
      * repeat constructor. lia.
    + rewrite Hc in H4.
      split; [exact H1|]. split; [exact H2|]. split; [exact H3 | exact H4].
Qed.

Lemma play_is_torn_down_by_its_own_stop_witness :
  nodes (advance_to 1100 (exec (play scifi) (run_ops [] (constructor 0)))) = [] /\
  exists built, nodes (exec (play scifi) (run_ops [] (constructor 0))) = [] ++ built /\
                built <> [].
Proof.
  assert (R0 : reachable (run_ops [] (constructor 0)))
    by (exists 0%Z, []; reflexivity).
  destruct (play_is_torn_down_by_its_own_stop _ scifi 1100 R0 ltac:(cbn; lia))
    as ((built & Hb & Hne) & Hn & _).
  split; [exact Hn|]. exists built. split; [exact Hb|]. apply Hne. discriminate.
Defined.

(** ** The teardown misses nothing *)

Lemma connected_spec s id :
  connected s id = true <-> exists e, In e (edges s) /\ fst e = id.
Proof.
  unfold connected. rewrite existsb_exists. split; intros (e & He & H); exists e;
    (split; [exact He|]); apply Nat.eqb_eq; exact H.
Qed.

Lemma sounding_spec s id :
  sounding s id = true <->
  exists type freq w, store s !! id = Some (mkNode (OscillatorNode type freq) (Some w) None).
Proof.
  unfold sounding. split.
  - destruct (store s !! id) as [[[type freq|g|f] [w|] [sp|]]|]; try discriminate.
    intros _. eauto.
  - intros (type & freq & w & ->). reflexivity.
Qed.

Lemma registered_weaken X X' s :
  (forall x, In x X -> In x X' \/ In x (nodes s)) ->
  registered X s -> registered X' s.
Proof.
  intros Hsub H id Hl. destruct (H id Hl) as [Hn | [Hm | Hx]]; auto.
  destruct (Hsub id Hx); auto.
Qed.

Lemma registered_same X s s' :
  store s' = store s -> edges s' = edges s -> nodes s' = nodes s ->
  masterGain s' = masterGain s ->
  registered X s -> registered X s'.
Proof.
  intros Hs He Hn Hm H id Hl. unfold registered, live, connected, sounding in *.
  rewrite Hn, Hm. apply H. rewrite <- Hs, <- He. exact Hl.
Qed.

Lemma create_registered k X K :
  triple (fun s => registered X s /\ created K s) (create k)
         (fun a s => registered X s /\ created (a :: K) s /\ ~ In a K).
Proof.
  intros s [HR HK]. cbn [create fst snd]. split; [|split].
  - intros id Hl. apply HR. destruct Hl as [Hc | Hs]; [left; exact Hc | right].
    apply sounding_spec in Hs. destruct Hs as (type & freq & w & Hs).
    cbn [store] in Hs. apply sounding_spec. exists type, freq, w.
    destruct (Nat.lt_ge_cases id (length (store s))) as [Hlt|Hge].
    + rewrite lookup_app_l in Hs by exact Hlt. exact Hs.
    + rewrite lookup_app_r in Hs by exact Hge.
      destruct (id - length (store s))%nat as [|n]; cbn in Hs; [|discriminate].
      discriminate.
  - unfold created in *. cbn [store]. rewrite length_app. cbn [length].
    constructor; [lia|]. eapply Forall_impl; [exact HK|]. intros x Hx. cbv beta in *. lia.
  - intros Hin. unfold created in HK. rewrite List.Forall_forall in HK.
    specialize (HK _ Hin). lia.
Qed.

Lemma connect_registered src dst X (P : State -> Prop) :
  (forall s, P s -> P (snd (connect src dst s))) ->
  triple (fun s => registered X s /\ P s) (connect src dst)
         (fun _ s => registered (src :: X) s /\ P s).
Proof.
  intros HP s [HR Hp]. split; [|apply HP, Hp].
  intros id Hl. cbn [connect snd] in *.
  destruct Hl as [Hc | Hs].
  - apply connected_spec in Hc. destruct Hc as (e & He & Hid). cbn [edges] in He.
    apply in_app_or in He. destruct He as [He | [<- | []]].
    + destruct (HR id) as [H | [H | H]]; [left; apply connected_spec; eauto | auto ..].
      right. right. right. exact H.
    + right. right. left. exact Hid.
  - destruct (HR id) as [H | [H | H]]; [right; exact Hs | auto ..].
    right. right. right. exact H.
Qed.

Lemma start_registered id0 w X (P : State -> Prop) :
  (forall s, P s -> P (snd (start id0 w s))) ->
  triple (fun s => registered X s /\ P s) (start id0 w)
         (fun _ s => registered (id0 :: X) s /\ P s).
Proof.
  intros HP s [HR Hp]. split; [|apply HP, Hp].
  intros id Hl. cbn [start snd] in *.
  destruct (decide (id0 = id)) as [->|Hne]; [right; right; left; reflexivity|].
  assert (Hl' : live s id).
  { destruct Hl as [Hc | Hs]; [left; exact Hc | right].
    apply sounding_spec in Hs. destruct Hs as (type & freq & w' & Hs).
    cbn [store] in Hs. rewrite update_node_lookup in Hs.
    rewrite decide_False in Hs by exact Hne.
    apply sounding_spec. eauto. }
  destruct (HR id Hl') as [H | [H | H]]; auto. right. right. right. exact H.
Qed.

Lemma push_registered id0 X X' (P : State -> Prop) :
  (forall x, In x X -> x = id0 \/ In x X') ->
  (forall s, P s -> P (snd (push id0 s))) ->
  triple (fun s => registered X s /\ P s) (push id0)
         (fun _ s => registered X' s /\ In id0 (nodes s) /\ P s).
Proof.
  intros Hsub HP s [HR Hp]. split; [|split; [|apply HP, Hp]].
  - intros id Hl. cbn [push snd nodes masterGain] in *.
    destruct (HR id Hl) as [H | [H | H]].
    + left. apply in_or_app. left. exact H.
    + right. left. exact H.
    + destruct (Hsub id H) as [-> | H'].
      * left. apply in_or_app. right. left. reflexivity.
      * right. right. exact H'.
  - cbn [push snd nodes]. apply in_or_app. right. left. reflexivity.
Qed.

Lemma idle_registered {A} (m : M A) (P : State -> Prop) :
  (forall s, snd (m s) = s) -> triple P m (fun _ => P).
Proof. intros Hm s H. rewrite Hm. exact H. Qed.

Lemma create_keeps k X (R : Prop) :
  triple (fun s => registered X s /\ R) (create k) (fun _ s => registered X s /\ R).
Proof.
  intros s [H HR].
  destruct (create_registered k X [] s (conj H (List.Forall_nil _))) as (H1 & _).
  split; assumption.
Qed.

Lemma createOscillator_registered freq type delay filter lfo :
  triple (registered []) (createOscillator freq type delay filter lfo)
         (fun _ => registered []).
Proof.
  unfold createOscillator.
  eapply triple_bind with (Q := fun osc s => registered [] s /\ created [osc] s).
  { intros s H.
    destruct (create_registered (OscillatorNode type freq) [] [] s
                (conj H (List.Forall_nil _))) as (H1 & H2 & _).
    split; assumption. }
  intros osc.
  eapply triple_bind with (Q := fun _ s => registered [] s /\ created [osc] s).
  { intros s H.
    destruct (create_registered (GainNode (15 # 100)) [] [osc] s H) as (H1 & H2 & _).
    split; [exact H1|]. inversion H2; assumption. }
  intros g.
  eapply triple_bind with
    (Q := fun lastNode s =>
            registered [osc] s /\ (if filter then lastNode <> osc else lastNode = osc)).
  { destruct filter.
    - eapply triple_bind with (Q := fun b s => registered [] s /\ b <> osc).
      { intros s H.
        destruct (create_registered (BiquadFilterNode 400) [] [osc] s H) as (H1 & _ & H3).
        split; [exact H1|]. intros E. apply H3. left. symmetry. exact E. }
      intros b.
      eapply triple_bind with (Q := fun _ s => registered [osc] s /\ b <> osc).
      { apply (connect_registered osc (ToNode b) [] (fun _ => b <> osc)). auto. }
      intros u. intros s H. exact H.
    - intros s [H _]. split; [|reflexivity].
      eapply registered_weaken; [|exact H]. intros x []. }
  intros lastNode.
  set (R := if filter then lastNode <> osc else lastNode = osc).
  eapply triple_bind with (Q := fun _ s => registered [osc] s /\ R).
  { destruct lfo; [|intros s H; exact H].
    eapply triple_bind; [apply (create_keeps _ [osc] R)|]. intros lo.
    eapply triple_bind; [apply (create_keeps _ [osc] R)|]. intros lg.
    eapply triple_bind with (Q := fun _ s => registered [osc] s /\ R).
    { intros s H. exact H. }
    intros k. destruct (from_option is_biquad false k); [|intros s H; exact H].
    cbn [when_].
    eapply triple_bind;
      [apply (connect_registered lo (ToNode lg) [osc] (fun _ => R)); auto|].
    intros ?.
    eapply triple_bind;
      [apply (connect_registered lg (ToFrequency lastNode) [lo; osc] (fun _ => R)); auto|].
    intros ?.
    eapply triple_bind with (Q := fun _ s => registered [lg; lo; osc] s /\ R).
    { intros s H. exact H. }
    intros t.
    eapply triple_bind;
      [apply (start_registered lo t [lg; lo; osc] (fun _ => R)); auto|].
    intros ?.
    eapply triple_bind with (Q := fun _ s => registered [lg; osc] s /\ R).
    { eapply triple_weaken;
        [apply (push_registered lo [lo; lg; lo; osc] [lg; osc] (fun _ => R)); [|auto]|].
      - intros x Hx. cbn in *. intuition.
      - intros ? ? (H1 & _ & H3). split; assumption. }
    intros ?.
    eapply triple_weaken;
      [apply (push_registered lg [lg; osc] [osc] (fun _ => R)); [|auto]|].
    - intros x Hx. cbn in *. intuition.
    - intros ? ? (H1 & _ & H3). split; assumption. }
  intros u.
  eapply triple_bind;
    [apply (connect_registered lastNode (ToNode g) [osc] (fun _ => R)); auto|].
  intros ?.
  eapply triple_bind with (Q := fun _ s => registered [lastNode; osc] s /\ R).
  { intros s H. exact H. }
  intros m.
  eapply triple_bind;
    [apply (connect_registered g (ToNode m) [lastNode; osc] (fun _ => R)); auto|].
  intros ?.
  eapply triple_bind with (Q := fun _ s => registered [g; lastNode; osc] s /\ R).
  { intros s H. exact H. }
  intros t.
  eapply triple_bind;
    [apply (start_registered osc (t + delay) [g; lastNode; osc] (fun _ => R)); auto|].
  intros ?.
  eapply triple_bind with
    (Q := fun _ s => registered [g; lastNode] s /\ (In osc (nodes s) /\ R)).
  { eapply triple_weaken;
      [apply (push_registered osc [osc; g; lastNode; osc] [g; lastNode] (fun _ => R));
       [|auto]|].
    - intros x Hx. cbn in *. intuition.
    - intros ? ? (H1 & H2 & H3). auto. }
  intros ?.
  eapply triple_bind with
    (Q := fun _ s => registered [lastNode] s /\ (In osc (nodes s) /\ R)).
  { eapply triple_weaken;
      [apply (push_registered g [g; lastNode] [lastNode]
                (fun s => In osc (nodes s) /\ R))|].
    - intros x Hx. cbn in *. intuition.
    - intros s [H1 H2]. split; [|exact H2]. cbn [push snd nodes].
      apply in_or_app. left. exact H1.
    - intros ? ? (H1 & _ & H3). auto. }
  intros ?. unfold R. destruct filter.
  - intros s (H1 & H2 & H3).
    rewrite (proj2 (Nat.eqb_neq lastNode osc) H3). cbn [negb when_].
    destruct (push_registered lastNode [lastNode] [] (fun _ => True)
                ltac:(intros x Hx; cbn in *; intuition) ltac:(auto) s (conj H1 I))
      as (H & _).
    exact H.
  - intros s (H1 & H2 & H3). subst lastNode.
    rewrite Nat.eqb_refl. cbn [negb when_].
    eapply registered_weaken; [|exact H1].
    intros x [<- | []]. right. exact H2.
Qed.

Lemma play_registered mood s :
  registered [] s -> registered [] (exec (play mood) s).
Proof.
  intros H. unfold play.
  destruct mood;
    [apply (registered_same [] s); try reflexivity; exact H | | |];
    (rewrite exec_bind; rewrite exec_bind; rewrite exec_bind; rewrite exec_bind;
     rewrite exec_bind;
     match goal with
     | |- registered [] (exec ?m ?x) =>
         assert (Hx : registered [] x)
           by (apply (registered_same [] s); try reflexivity; exact H);
         assert (Hm : triple (registered []) m (fun _ => registered []))
           by (repeat (eapply triple_bind;
                       [apply createOscillator_registered | intros ?]);
               apply createOscillator_registered);
         exact (Hm x Hx)
     end).
Qed.

Lemma teardown_registered s :
  Inv s -> registered [] s ->
  registered [] (teardown s) /\ masterGain (teardown s) = masterGain s.
Proof.
  intros HI HR.
  destruct (teardown_fold (nodes s) s HI) as (Hsh & Htorn & _). cbv zeta in *.
  set (s' := fold_left _ (nodes s) s) in *.
  destruct Hsh as (He & Hst & Hnone & _ & _ & _ & Hmg & _).
  split; [|exact Hmg].
  intros id Hl. right. left. cbn [teardown masterGain]. fold s'. rewrite Hmg.
  assert (Hl' : live s id).
  { destruct Hl as [Hc | Hs].
    - left. apply connected_spec in Hc. destruct Hc as (e & Hin & Hid).
      apply connected_spec. exists e. split; [apply He, Hin | exact Hid].
    - right. apply sounding_spec in Hs. destruct Hs as (type & freq & w & Hs).
      cbn [teardown store] in Hs. fold s' in Hs.
      destruct (store s !! id) as [n|] eqn:Hn.
      + destruct (Hst id n Hn) as (n' & Hn' & Hk & Hsa & Hso).
        rewrite Hs in Hn'. injection Hn' as <-. cbn [kind startAt stopAt] in *.
        apply sounding_spec. exists type, freq, w. rewrite Hn.
        destruct n as [k sa so]. cbn [kind startAt stopAt] in *. subst k sa.
        destruct so as [x|]; [exfalso; apply Hso; [discriminate | reflexivity] | reflexivity].
      + rewrite (Hnone id Hn) in Hs. discriminate. }
  destruct (HR id Hl') as [Hin | [Hm | []]]; [|exact Hm].
  exfalso. destruct (Htorn id Hin) as [Hno Hstop].
  destruct Hl as [Hc | Hs].
  - apply connected_spec in Hc. destruct Hc as (e & Hein & Hid).
    apply (Hno e Hein Hid).
  - apply sounding_spec in Hs. destruct Hs as (type & freq & w & Hs).
    cbn [teardown store] in Hs. fold s' in Hs.
    apply (Hstop _ Hs); reflexivity.
Qed.

Lemma fold_registered ds : forall s,
  Inv s -> registered [] s ->
  let s' := fold_left (fun acc d => teardown (at_time d acc)) ds s in
  registered [] s' /\ masterGain s' = masterGain s.
Proof.
  induction ds as [|d ds IH]; intros s HI HR; cbv zeta; [split; [exact HR | reflexivity]|].
  cbn [fold_left].
  assert (HI1 : Inv (at_time d s)) by exact HI.
  assert (HR1 : registered [] (at_time d s))
    by (apply (registered_same [] s); try reflexivity; exact HR).
  destruct (teardown_registered _ HI1 HR1) as [HR2 Hm2].
  assert (HI2 : Inv (teardown (at_time d s))) by (apply Inv_nil; reflexivity).
  destruct (IH _ HI2 HR2) as [HR3 Hm3]. cbv zeta in *.
  split; [exact HR3|]. rewrite Hm3, Hm2. reflexivity.
Qed.

Lemma advance_to_registered t s :
  Inv s -> registered [] s ->
  registered [] (advance_to t s) /\ masterGain (advance_to t s) = masterGain s.
Proof.
  intros HI HR. unfold advance_to. cbv zeta.
  set (due := List.filter (fun d => (d <=? t)%Z) (timers s)).
  set (pending := List.filter (fun d => negb (d <=? t)%Z) (timers s)).
  assert (HI0 : Inv (with_timers pending s)) by exact HI.
  assert (HR0 : registered [] (with_timers pending s))
    by (apply (registered_same [] s); try reflexivity; exact HR).
  destruct (fold_registered due _ HI0 HR0) as [HR1 Hm1].
  cbv zeta in *. split.
  - eapply registered_same; [..|exact HR1]; reflexivity.
  - exact Hm1.
Qed.

Lemma master_ok_le s s' :
  le s s' -> masterGain s' = masterGain s -> master_ok s -> master_ok s'.
Proof.
  intros Hle Hm (H0 & n & Hn & Hk). split; [rewrite Hm; exact H0|].
  destruct (Hle _ _ Hn) as (n' & Hn' & Hk' & _).
  exists n'. split; [exact Hn' | rewrite Hk'; exact Hk].
Qed.

Lemma op_registered o s :
  Good s -> registered [] s -> master_ok s ->
  registered [] (apply_op o s) /\ master_ok (apply_op o s).
Proof.
  intros [HI HT] HR HM. destruct o as [mood| |v|ms]; cbn [apply_op].
  - split; [apply play_registered, HR|].
    destruct (exec_triple (play mood) s (play_triple mood s) HI) as [_ Hle].
    apply (master_ok_le s); [exact Hle | | exact HM].
    destruct mood; [reflexivity | | |];
      refine (proj2 (play_gain _ s _)); discriminate.
  - split; [apply (registered_same [] s); try reflexivity; exact HR|].
    destruct (exec_triple stop s (stop_triple s) HI) as [_ Hle].
    apply (master_ok_le s); [exact Hle | reflexivity | exact HM].
  - split; [apply (registered_same [] s); try reflexivity; exact HR|].
    destruct (exec_triple (setVolume v) s (setVolume_triple v s) HI) as [_ Hle].
    apply (master_ok_le s); [exact Hle | reflexivity | exact HM].
  - destruct (advance_to_registered (now s + Z.of_nat ms) s HI HR) as [HR' Hm].
    split; [exact HR'|].
    destruct (advance_to_facts (now s + Z.of_nat ms) s HI ltac:(lia)) as (_ & Hle & _).
    apply (master_ok_le s); assumption.
Qed.

Lemma run_registered ops : forall s,
  Good s -> registered [] s -> master_ok s ->
  registered [] (run_ops ops s) /\ master_ok (run_ops ops s).
Proof.
  induction ops as [|o ops IH]; intros s HG HR HM; [split; assumption|].
  cbn [run_ops fold_left].
  destruct (op_registered o s HG HR HM) as [HR' HM'].
  apply IH; [apply Good_apply_op, HG | exact HR' | exact HM'].
Qed.

Lemma constructor_registered t0 :
  registered [] (constructor t0) /\ master_ok (constructor t0).
Proof.
  split.
  - intros id [Hc | Hs].
    + apply connected_spec in Hc. destruct Hc as (e & [<- | []] & <-).
      right. left. reflexivity.
    + apply sounding_spec in Hs. destruct Hs as (type & freq & w & Hs).
      destruct id as [|id]; cbn in Hs; discriminate.
  - split; [reflexivity|]. eexists. split; reflexivity.
Qed.

Lemma reachable_registered s : reachable s -> registered [] s /\ master_ok s.
Proof.
  intros (t0 & ops & ->).
  destruct (constructor_registered t0) as [HR HM].
  apply run_registered; [apply Good_constructor | exact HR | exact HM].
Qed.

(** X30. The teardown misses nothing.  Whatever has been done with a
    generator, every node that is connected to something and every oscillator
    that runs is a handle of [this.nodes], or is the master gain: no method
    leaves a live node unregistered.  So once the callback of a [stop()] has
    run, 1100 ms later, no oscillator of the generator runs any more and the
    only node still connected is the master gain. *)
Theorem teardown_misses_nothing s :
  reachable s ->
  (forall id, connected s id = true \/ sounding s id = true ->
              In id (nodes s) \/ id = masterGain s) /\
  (forall u, (now s + 1100 <= u)%Z ->
     let s2 := advance_to u (exec stop s) in
     forall id, sounding s2 id = false /\
                (connected s2 id = true -> id = masterGain s)).
Proof.
  intros Hr. destruct (reachable_registered s Hr) as [HR HM].
  pose proof (reachable_Good s Hr) as HG.
  split.
  - intros id Hl. destruct (HR id Hl) as [H | [H | []]]; auto.
  - intros u Hu. cbv zeta.
    destruct (op_registered OpStop s HG HR HM) as [HR1 HM1]. cbn [apply_op] in *.
    pose proof (Good_apply_op OpStop s HG) as [HI1 _]. cbn [apply_op] in HI1.
    destruct (advance_to_registered u _ HI1 HR1) as [HR2 Hm2].
    destruct (advance_to_facts u _ HI1 ltac:(rewrite stop_exec; cbn [now]; lia))
      as (_ & Hle & _).
    pose proof (master_ok_le _ _ Hle Hm2 HM1) as HM2.
    destruct HG as [HI HT].
    destruct (advance_after_stop s u HI HT Hu) as (_ & _ & _ & Hnil & _).
    cbv zeta in Hnil.
    assert (Hmaster : masterGain (advance_to u (exec stop s)) = masterGain s)
      by (rewrite Hm2; reflexivity).
    intros id. split.
    + destruct (sounding (advance_to u (exec stop s)) id) eqn:Hs; [|reflexivity].
      exfalso. destruct (HR2 id (or_intror Hs)) as [H | [H | []]].
      * rewrite Hnil in H. destruct H.
      * destruct HM2 as (H0 & n & Hn & Hk). rewrite H, H0 in Hs.
        apply sounding_spec in Hs. destruct Hs as (type & freq & w & Hs).
        rewrite Hs in Hn. injection Hn as <-. discriminate.
    + intros Hc. destruct (HR2 id (or_introl Hc)) as [H | [H | []]].
      * rewrite Hnil in H. destruct H.
      * rewrite H. exact Hmaster.
Qed.

Lemma teardown_misses_nothing_witness :
  let s := run_ops [OpPlay scifi; OpWait 300] (constructor 0) in
  sounding (advance_to 1400 (exec stop s)) 1 = false /\
  sounding s 1 = true /\ In 1%nat (nodes s).
Proof.
  cbv zeta.
  assert (Hr : reachable (run_ops [OpPlay scifi; OpWait 300] (constructor 0)))
    by (exists 0%Z, [OpPlay scifi; OpWait 300]; reflexivity).
  destruct (teardown_misses_nothing _ Hr) as [H1 H2].
  assert (Hs : sounding (run_ops [OpPlay scifi; OpWait 300] (constructor 0)) 1 = true)
    by (vm_compute; reflexivity).
  split; [|split; [exact Hs|]].
  - destruct (H2 1400%Z ltac:(vm_compute; discriminate) 1%nat) as [Hf _]. exact Hf.
  - destruct (H1 1%nat (or_intror Hs)) as [H | H]; [exact H|].
    vm_compute in H. discriminate H.
Defined.

End AmbientRunFacts.

(* ===================================================================== *)
(** * Properties of the caption wrapping                                  *)
(* ===================================================================== *)

Module CaptionFacts.

Import Caption.

Lemma string_app_assoc (a b c : string) :
  ((a ++ b) ++ c = a ++ (b ++ c))%string.
Proof. induction a as [|x a IH]; cbn; [reflexivity | f_equal; exact IH]. Qed.

Lemma string_app_nil_r (a : string) : (a ++ "" = a)%string.
Proof. induction a as [|x a IH]; cbn; [reflexivity | f_equal; exact IH]. Qed.

Lemma concat_strings_app (l k : list string) :
  concat_strings (l ++ k) = (concat_strings l ++ concat_strings k)%string.
Proof.
  induction l as [|s l IH]; cbn; [reflexivity|].
  rewrite IH, string_app_assoc. reflexivity.
Qed.

Lemma split_spaces_cons s : exists w ws, split_spaces s = w :: ws.
Proof.
  destruct s as [|c s]; cbn; [eauto|].
  destruct (Ascii.eqb c space); [eauto|].
  destruct (split_spaces s); eauto.
Qed.

Lemma spaced_split s : spaced (split_spaces s) = (s ++ " ")%string.
Proof.
  induction s as [|c s IH]; [reflexivity|]. cbn [split_spaces].
  destruct (Ascii.eqb c space) eqn:E.
  - apply Ascii.eqb_eq in E. subst c. unfold spaced in *. cbn. rewrite IH. reflexivity.
  - destruct (split_spaces_cons s) as (w & ws & Hs). rewrite Hs in *.
    unfold spaced in *. cbn in *. rewrite IH. reflexivity.
Qed.

Lemma split_spaces_words s :
  Forall (fun w => forall c, In c (list_ascii_of_string w) -> c <> space)
         (split_spaces s).
Proof.
  induction s as [|c s IH]; cbn [split_spaces].
  - constructor; [|constructor]. intros c [].
  - destruct (Ascii.eqb c space) eqn:E.
    + constructor; [intros ? [] | exact IH].
    + destruct (split_spaces_cons s) as (w & ws & Hs). rewrite Hs in *.
      inversion IH as [|? ? Hw Hws]; subst.
      constructor; [|exact Hws].
      intros c' [<- | Hin]; [|apply Hw, Hin].
      intros ->. rewrite Ascii.eqb_refl in E. discriminate.
Qed.

Section WrapFacts.

Variable measure : string -> Q.

Lemma wrap_from_text words : forall n lines line,
  let (lines', line') := wrap_from measure n words (lines, line) in
  (concat_strings lines' ++ line')%string =
  (concat_strings lines ++ line ++ spaced words)%string.
Proof.
  induction words as [|w rest IH]; intros n lines line.
  - cbn. rewrite string_app_nil_r. reflexivity.
  - cbn [wrap_from wrap_step].
    change (spaced (w :: rest)) with ((w ++ " ") ++ spaced rest)%string.
    destruct (negb (Qle_bool (measure (line ++ w ++ " ")) maxWidth) && (0 <? n)%nat).
    + specialize (IH (S n) (lines ++ [line]) (w ++ " ")%string).
      destruct (wrap_from measure (S n) rest _) as [lines' line'].
      rewrite IH, concat_strings_app. cbn [concat_strings].
      rewrite string_app_nil_r, !string_app_assoc. reflexivity.
    + specialize (IH (S n) lines (line ++ w ++ " ")%string).
      destruct (wrap_from measure (S n) rest _) as [lines' line'].
      rewrite IH, !string_app_assoc. reflexivity.
Qed.

Lemma wrap_from_fits words : forall n lines line,
  Forall (fun w => forall c, In c (list_ascii_of_string w) -> c <> space) words ->
  Forall (fits measure) lines ->
  (if n is O then line = ""%string else fits measure line) ->
  words <> [] \/ (0 < n)%nat ->
  let (lines', line') := wrap_from measure n words (lines, line) in
  Forall (fits measure) lines' /\ fits measure line'.
Proof.
  induction words as [|w rest IH]; intros n lines line Hw Hl Hc Hn.
  - cbn. destruct Hn as [Hn|Hn]; [congruence|].
    destruct n; [lia | auto].
  - inversion Hw as [|? ? Hw1 Hw2]; subst. cbn [wrap_from wrap_step].
    assert (Hword : fits measure (w ++ " ")).
    { right. exists w. split; [reflexivity | exact Hw1]. }
    destruct (Qle_bool (measure (line ++ w ++ " ")) maxWidth) eqn:Hfit;
      cbn [negb andb].
    + apply IH; [exact Hw2 | exact Hl | | right; lia].
      left. apply Qle_bool_iff, Hfit.
    + destruct n as [|n]; cbn [Nat.ltb Nat.leb].
      * subst line. apply IH; [exact Hw2 | exact Hl | exact Hword | right; lia].
      * apply IH; [exact Hw2 | | exact Hword | right; lia].
        apply Forall_app. split; [exact Hl|]. constructor; [exact Hc | constructor].
Qed.

(** X27. The caption loses nothing: the lines drawn, one after the other, are the
    narrative followed by one space.  (Line breaks replace no character: the
    space that ends a line stays at its end.) *)
Theorem wrap_keeps_the_text narrative :
  concat_strings (wrap measure narrative) = (narrative ++ " ")%string.
Proof.
  unfold wrap.
  pose proof (wrap_from_text (split_spaces narrative) 0 [] ""%string) as H.
  destruct (wrap_from measure 0 (split_spaces narrative) _) as [lines line].
  rewrite concat_strings_app. cbn [concat_strings].
  rewrite string_app_nil_r, H, spaced_split. reflexivity.
Qed.

(** X28. Every line of the caption is at most [WIDTH - 200] wide, unless it holds
    a single word; and there is at least one line. *)
Theorem wrap_lines_fit narrative :
  Forall (fits measure) (wrap measure narrative) /\ wrap measure narrative <> [].
Proof.
  unfold wrap.
  pose proof (wrap_from_fits (split_spaces narrative) 0 [] ""%string
                (split_spaces_words narrative) (List.Forall_nil _) eq_refl) as H.
  destruct (wrap_from measure 0 (split_spaces narrative) _) as [lines line].
  split.
  - destruct H as [H1 H2].
    + left. destruct (split_spaces_cons narrative) as (w & ws & ->). discriminate.
    + apply Forall_app. split; [exact H1|]. constructor; [exact H2 | constructor].
  - destruct lines; discriminate.
Qed.

End WrapFacts.

End CaptionFacts.

(* ===================================================================== *)
(** * Saving a draft and loading it back                                  *)
(* ===================================================================== *)

Module DraftFacts.

Import Story App Draft.

Lemma restore_scene_again sc :
  fst (restore_scene (fst (restore_scene sc))) = fst (restore_scene sc).
Proof.
  unfold restore_scene.
  destruct (audioData sc) as [a|] eqn:Ea.
  - cbn [fst with_audioData audioData]. reflexivity.
  - destruct (truthy_payload (audioBase64 sc)) as [payload|] eqn:Ep.
    + destruct (Pcm.decodeNarration payload) as [buffer|] eqn:Ed;
        cbn [fst with_audioData audioData audioBase64].
      * reflexivity.
      * rewrite Ep, Ed. reflexivity.
    + cbn [fst with_audioData audioData audioBase64]. rewrite Ep. reflexivity.
Qed.

Lemma restore_scene_kept sc a :
  audioData sc = Some a -> restore_scene sc = (sc, []).
Proof.
  intros Ea. unfold restore_scene. rewrite Ea.
  destruct sc; cbn in *. subst. reflexivity.
Qed.

(** X21. Loading is idempotent on the story: a scene that has its buffer is handed
    back as it is, without a decode and without a warning, and loading the
    restored story again restores the same story. *)
Theorem load_is_idempotent (draft : Story) :
  (forall k sc a, scenes draft !! k = Some sc -> audioData sc = Some a ->
     exists st, App.story (handleLoadDraft draft) = Some st /\
                scenes st !! k = Some sc) /\
  (Forall (fun sc => audioData sc <> None) (scenes draft) ->
   handleLoadDraft draft = mkLoaded REVIEW_STORY (Some draft) None []) /\
  (forall st, App.story (handleLoadDraft draft) = Some st ->
              App.story (handleLoadDraft st) = Some st).
Proof.
  split; [|split].
  - intros k sc a Hk Ha. eexists. split; [reflexivity|].
    cbn [scenes]. rewrite !AppFacts.lookup_map, Hk. cbn.
    rewrite (restore_scene_kept sc a Ha). reflexivity.
  - intros Hall. unfold handleLoadDraft.
    assert (Hmap : map restore_scene (scenes draft) =
                   map (fun sc => (sc, [])) (scenes draft)).
    { apply map_ext_in. intros sc Hin.
      rewrite List.Forall_forall in Hall. specialize (Hall sc Hin).
      destruct (audioData sc) as [a|] eqn:Ea; [|congruence].
      apply (restore_scene_kept sc a Ea). }
    rewrite Hmap, !map_map. cbn [fst snd].
    rewrite map_id.
    assert (Hc : forall l : list Scene, concat (map (fun _ : Scene => @nil Z) l) = []).
    { intros l. induction l as [|x l IH]; [reflexivity | exact IH]. }
    rewrite Hc. destruct draft; reflexivity.
  - intros st Hst. injection Hst as <-. unfold handleLoadDraft.
    cbn [App.story scenes title backgroundMusic]. do 2 f_equal.
    rewrite !map_map. apply map_ext. intros sc. apply restore_scene_again.
Qed.

Lemma load_is_idempotent_witness :
  let b := Pcm.mkAudioBuffer 24000 1 1 (cons (cons 0%Q nil) nil) in
  let draft := mkStory "t" [mkScene 1 "a" "p" None (Some b) (Some "!!!"%string) None]
                       None in
  handleLoadDraft draft = mkLoaded REVIEW_STORY (Some draft) None [].
Proof.
  cbv zeta.
  apply (proj1 (proj2 (load_is_idempotent _))).
  repeat constructor. discriminate.
Defined.







End DraftFacts.

(* ===================================================================== *)
(** * More on the editor: number fields, type changes, saving             *)
(* ===================================================================== *)

Module EditorMoreFacts.

Import Story Editor NumberText.

Local Open Scope Z_scope.

Lemma digit_cases d : is_digit d ->
  d = 0 \/ d = 1 \/ d = 2 \/ d = 3 \/ d = 4 \/ d = 5 \/ d = 6 \/ d = 7 \/ d = 8 \/ d = 9.
Proof. unfold is_digit. lia. Qed.

Lemma digit_char_plain d :
  is_digit d ->
  digit_of (digit_char d) = Some d /\
  Pcm.is_ascii_whitespace (digit_char d) = false /\
  (nat_of_ascii (digit_char d) =? 45)%nat = false /\
  (nat_of_ascii (digit_char d) =? 43)%nat = false.
Proof.
  intros H. destruct (digit_cases d H) as [->|[->|[->|[->|[->|[->|[->|[->|[->| ->]]]]]]]]];
    repeat split.
Qed.

Lemma fraction_mark_stops c : fraction_mark c = true -> digit_of c = None.
Proof.
  unfold fraction_mark, digit_of. cbv zeta.
  intros H. apply orb_true_iff in H. destruct H as [H|H].
  - apply orb_true_iff in H. destruct H as [H|H]; apply Nat.eqb_eq in H; rewrite H;
      reflexivity.
  - apply Nat.eqb_eq in H. rewrite H. reflexivity.
Qed.

Lemma parse_digits_run ds rest : forall acc,
  Forall is_digit ds ->
  match rest with [] => True | c :: _ => fraction_mark c = true end ->
  parse_digits acc (map digit_char ds ++ rest) =
  match ds with
  | [] => acc
  | _ => Some (fold_left (fun a d => a * 10 + d) ds (default 0 acc))
  end.
Proof.
  induction ds as [|d ds IH]; intros acc Hd Hrest.
  - cbn [map app]. destruct rest as [|c r]; [reflexivity|].
    cbn [parse_digits]. rewrite (fraction_mark_stops c Hrest). reflexivity.
  - inversion Hd as [|? ? Hd1 Hd2]; subst. cbn [map app parse_digits].
    rewrite (proj1 (digit_char_plain d Hd1)).
    rewrite (IH _ Hd2 Hrest). destruct ds; reflexivity.
Qed.

Lemma number_of_nonneg ds : forall acc,
  Forall is_digit ds -> 0 <= acc -> 0 <= fold_left (fun a d => a * 10 + d) ds acc.
Proof.
  induction ds as [|d ds IH]; intros acc Hd Hacc; [exact Hacc|].
  inversion Hd as [|? ? Hd1 Hd2]; subst. cbn [fold_left].
  apply IH; [exact Hd2|]. unfold is_digit in Hd1. lia.
Qed.

Lemma round_to_double_exact z : Z.abs z <= 2 ^ 53 -> round_to_double z = z.
Proof.
  intros H. unfold round_to_double. cbv zeta.
  rewrite (proj2 (Z.leb_le _ _) H). reflexivity.
Qed.

(** X17. [parseInt] on the text of a number field reads the integer part: the
    digits up to the fraction or the exponent, with the sign, as long as the
    digits spell an integer that a double holds exactly (up to 2^53).  So
    [1500.7] gives 1500 and [1e3] gives 1.  A longer integer is rounded:
    [9007199254740993] gives 9007199254740992. *)
Theorem parseInt_takes_the_integer_part (neg : bool) ds rest :
  ds <> [] -> Forall is_digit ds -> number_of ds <= 2 ^ 53 ->
  match rest with [] => True | c :: _ => fraction_mark c = true end ->
  parseInt (number_text neg ds rest) =
    Num ((if neg then -1 else 1) * number_of ds) /\
  parseInt "9007199254740993" = Num 9007199254740992.
Proof.
  intros Hne Hd Hle Hrest. split; [|reflexivity].
  pose proof (number_of_nonneg ds 0 Hd ltac:(lia)) as Hpos.
  fold (number_of ds) in Hpos.
  unfold parseInt, number_text.
  rewrite list_ascii_of_string_of_list_ascii.
  destruct ds as [|d ds]; [congruence|].
  inversion Hd as [|? ? Hd1 Hd2]; subst.
  destruct (digit_char_plain d Hd1) as (_ & Hws & H45 & H43).
  destruct neg; cbn [app map skip_whitespace].
  - change (Pcm.is_ascii_whitespace minus) with false. cbv iota.
    change (nat_of_ascii minus =? 45)%nat with true. cbv iota.
    change (digit_char d :: map digit_char ds ++ rest)
      with (map digit_char (d :: ds) ++ rest).
    rewrite (parse_digits_run (d :: ds) rest None Hd Hrest).
    change (fold_left (fun a d0 => a * 10 + d0) (d :: ds) (default 0 None))
      with (number_of (d :: ds)).
    rewrite round_to_double_exact by lia. reflexivity.
  - rewrite Hws, H45, H43.
    change (digit_char d :: map digit_char ds ++ rest)
      with (map digit_char (d :: ds) ++ rest).
    rewrite (parse_digits_run (d :: ds) rest None Hd Hrest).
    change (fold_left (fun a d0 => a * 10 + d0) (d :: ds) (default 0 None))
      with (number_of (d :: ds)).
    rewrite round_to_double_exact by lia. reflexivity.
Qed.

Lemma parseInt_takes_the_integer_part_witness :
  parseInt "1500.7" = Num 1500 /\ parseInt "-1e3" = Num (-1).
Proof.
  split.
  - apply (parseInt_takes_the_integer_part false [1; 5; 0; 0]
             (list_ascii_of_string ".7")).
    + discriminate.
    + repeat constructor; unfold is_digit; lia.
    + vm_compute. discriminate.
    + reflexivity.
  - apply (parseInt_takes_the_integer_part true [1] (list_ascii_of_string "e3")).
    + discriminate.
    + repeat constructor; unfold is_digit; lia.
    + vm_compute. discriminate.
    + reflexivity.
Defined.

(** X18. Changing the transition type of a row keeps the duration of the row when
    it is a number other than 0 (in range or not), and puts 1000 in the place
    of a missing duration, of 0 and of [NaN]; the other rows, the title and
    the music stay. *)
Theorem onTypeChange_repairs_duration index t st sc :
  scenes st !! index = Some sc ->
  exists st' d,
    onTypeChange index t st = Some st' /\
    scenes st' !! index = Some (with_transition sc (mkTransition t (Num d))) /\
    d <> 0 /\
    (match duration <$> transition sc with
     | Some (Num z) => if z =? 0 then d = 1000 else d = z
     | _ => d = 1000
     end) /\
    (forall j, j <> index -> scenes st' !! j = scenes st !! j) /\
    length (scenes st') = length (scenes st) /\
    title st' = title st /\ backgroundMusic st' = backgroundMusic st.
Proof.
  intros Hsc. unfold onTypeChange, updateSceneTransition. rewrite Hsc.
  cbn [mbind option_bind].
  eexists. exists (or_default (duration <$> transition sc) 1000).
  split; [reflexivity|]. cbn [scenes title backgroundMusic].
  split; [apply list_lookup_insert_eq; eapply lookup_lt_Some; exact Hsc|].
  split; [|split; [|split; [|split; [|split]]]].
  - unfold or_default. destruct (duration <$> transition sc) as [[|z]|]; try lia.
    destruct (Z.eqb_spec z 0); lia.
  - unfold or_default. destruct (duration <$> transition sc) as [[|z]|]; try reflexivity.
    destruct (z =? 0); reflexivity.
  - intros j Hj. apply list_lookup_insert_ne. congruence.
  - apply length_insert.
  - reflexivity.
  - reflexivity.
Qed.

Lemma onTypeChange_repairs_duration_witness :
  exists st',
    onTypeChange 0 zoom_in
      (mkStory "t" [mkScene 1 "a" "p" None None None (Some (mkTransition fade NaN))]
               None) = Some st' /\
    scenes st' !! 0%nat =
      Some (mkScene 1 "a" "p" None None None (Some (mkTransition zoom_in (Num 1000)))).
Proof.
  destruct (onTypeChange_repairs_duration 0 zoom_in
              (mkStory "t" [mkScene 1 "a" "p" None None None
                                    (Some (mkTransition fade NaN))] None)
              _ eq_refl) as (st' & d & H1 & H2 & _ & H4 & _).
  exists st'. split; [exact H1|]. cbn in H4. rewrite H2, H4. reflexivity.
Defined.

Section SaveOutcomes.

Variable setItem : nat -> Story -> option StorageError.

(** X19. The outcomes of [handleSave], whatever the storage does.  The status is
    [saved] exactly when the first write returns, and then the full draft is
    stored; an error that is not about the quota ends the save at once, with
    one attempt and nothing stored; there are never more than three attempts,
    always in the order full, without images, text only; something is stored
    exactly when the status is not [error], and it is the last attempt; three
    seconds later the status is [idle] again exactly when something was
    stored. *)
Theorem save_outcomes (story : Story) :
  let fullStory := prepareStoryForSave story false false in
  let noImagesStory := prepareStoryForSave story true false in
  let textOnlyStory := prepareStoryForSave story true true in
  let r := handleSave setItem story in
  (status r = saved <-> setItem 0 fullStory = None) /\
  (status r = saved -> stored r = Some fullStory /\ attempts r = [fullStory]) /\
  (forall e, setItem 0 fullStory = Some e -> is_quota e = false ->
             r = mkSave error [fullStory] None) /\
  (exists n, (1 <= n <= 3)%nat /\
             attempts r = take n [fullStory; noImagesStory; textOnlyStory]) /\
  (status r = saved \/ status r = partial \/ status r = error) /\
  (status r <> error <-> stored r = Some (List.last (attempts r) fullStory)) /\
  (status r = error <-> stored r = None) /\
  (status_after_timeout r = idle <-> stored r <> None).
Proof.
  cbv zeta. unfold handleSave.
  destruct (setItem 0 (prepareStoryForSave story false false)) as [e|] eqn:E0.
  - destruct (is_quota e) eqn:Eq.
    + destruct (setItem 1 (prepareStoryForSave story true false)) as [e1|] eqn:E1.
      * destruct (setItem 2 (prepareStoryForSave story true true)) as [e2|] eqn:E2;
          cbn [status stored attempts];
          (split; [split; discriminate|]); (split; [discriminate|]);
          (split; [intros e' He'; injection He' as <-; congruence|]);
          (split; [exists 3%nat; split; [lia | reflexivity]|]);
          (split; [auto|]); repeat split; try discriminate; try congruence;
          try (intros H; exfalso; apply H; reflexivity).
      * cbn [status stored attempts].
        (split; [split; discriminate|]); (split; [discriminate|]);
        (split; [intros e' He'; injection He' as <-; congruence|]);
        (split; [exists 2%nat; split; [lia | reflexivity]|]);
        (split; [auto|]); repeat split; try discriminate; try congruence.
    + cbn [status stored attempts].
      (split; [split; discriminate|]); (split; [discriminate|]);
      (split; [intros e' He' _; reflexivity|]);
      (split; [exists 1%nat; split; [lia | reflexivity]|]);
      (split; [auto|]); repeat split; try discriminate; try congruence;
      try (intros H; exfalso; apply H; reflexivity).
  - cbn [status stored attempts].
    (split; [split; reflexivity|]); (split; [split; reflexivity|]);
    (split; [discriminate|]);
    (split; [exists 1%nat; split; [lia | reflexivity]|]);
    (split; [auto|]); repeat split; try discriminate; try congruence.
Qed.

End SaveOutcomes.

Lemma save_outcomes_witness :
  let storage := fun (n : nat) (_ : Story) => Some OtherError in
  let story := mkStory "t" [mkScene 1 "a" "p" (Some "img"%string) None None None] None in
  handleSave storage story =
    mkSave error [prepareStoryForSave story false false] None.
Proof.
  cbv zeta.
  destruct (save_outcomes (fun _ _ => Some OtherError)
              (mkStory "t" [mkScene 1 "a" "p" (Some "img"%string) None None None] None))
    as (_ & _ & H & _).
  apply (H OtherError); reflexivity.
Defined.

End EditorMoreFacts.
(* ===================================================================== *)
(** * Properties of whole runs of the scene loop                          *)
(* ===================================================================== *)

Module ExportRunFacts.

Import Story Exporter ExportRun.

Local Open Scope Z_scope.

Lemma sceneDuration_pos sc : (0 < sceneDuration_of sc)%Q.
Proof.
  unfold sceneDuration_of. cbv zeta.
  apply Qlt_le_trans with 4000%Q; [reflexivity | apply Q.le_max_l].
Qed.

Lemma step_wrapped e s : phase s = WrappedUp -> step e s = s.
Proof. intros H. unfold step. rewrite H. destruct e; reflexivity. Qed.

Lemma run_wrapped evs : forall s, phase s = WrappedUp -> run evs s = s.
Proof.
  induction evs as [|e evs IH]; intros s H; [reflexivity|].
  unfold run in *. cbn [fold_left]. rewrite (step_wrapped e s H). apply IH, H.
Qed.

Lemma session_enter k s :
  isDone s = false -> recording s = true -> downloads s = 0%nat ->
  session (enter_scene k s).
Proof.
  intros Hd Hr Hn. unfold enter_scene.
  destruct (Nat.ltb_spec k (length (scenes (story s)))) as [Hk|Hk];
    unfold session, wrap_up; cbn; rewrite ?Hd, ?Hr, ?Hn; auto.
Qed.

Lemma session_step e s : session s -> session (step e s).
Proof.
  intros H. unfold session in H.
  destruct (phase s) as [| |startTime sceneDuration pending|] eqn:Hp.
  - destruct H.
  - destruct H as (Hd & Hr & Hn & Hi).
    unfold step. rewrite Hp.
    destruct e; try (unfold session; rewrite Hp; auto).
    destruct (scenes (story s) !! i s) as [scene|] eqn:Hs.
    + unfold session. cbn. auto.
    + unfold session. rewrite Hp. auto.
  - destruct H as (Hd & Hr & Hn & Hi).
    unfold step. rewrite Hp.
    destruct e; try (unfold session; rewrite Hp; auto).
    + destruct pending; [unfold session; cbn; auto | unfold session; rewrite Hp; auto].
    + destruct (startTime + timeout_delay sceneDuration <=? t).
      * apply session_enter; assumption.
      * unfold session. rewrite Hp. auto.
  - rewrite step_wrapped by exact Hp. unfold session. rewrite Hp. exact H.
Qed.

Lemma session_run evs : forall s, session s -> session (run evs s).
Proof.
  induction evs as [|e evs IH]; intros s H; [exact H|].
  apply (IH (step e s)), session_step, H.
Qed.

Lemma session_start st : session (scene_loop st true).
Proof. unfold scene_loop, playAllScenes. apply session_enter; reflexivity. Qed.

Lemma unrecorded_enter k s : unrecorded s -> unrecorded (enter_scene k s).
Proof.
  intros (Hd & Hr & Hn). unfold enter_scene, unrecorded, wrap_up.
  destruct (k <? length (scenes (story s)))%nat; cbn; rewrite ?Hd, ?Hr, ?Hn; auto.
Qed.

Lemma unrecorded_step e s : unrecorded s -> unrecorded (step e s).
Proof.
  intros H. pose proof H as (Hd & Hr & Hn). unfold step.
  destruct e as [t|t|t|t]; destruct (phase s) as [| |st d fp|]; try exact H.
  - destruct (scenes (story s) !! i s); [|exact H]. exact H.
  - destruct fp; exact H.
  - destruct (st + timeout_delay d <=? t); [|exact H].
    apply unrecorded_enter, H.
Qed.

Lemma unrecorded_run evs : forall s, unrecorded s -> unrecorded (run evs s).
Proof.
  induction evs as [|e evs IH]; intros s H; [exact H|].
  apply (IH (step e s)), unrecorded_step, H.
Qed.

Lemma unrecorded_start st : unrecorded (scene_loop st false).
Proof.
  unfold scene_loop, playAllScenes. apply unrecorded_enter. repeat split.
Qed.

(** X23. Whatever the platform delivers, [playAllScenes] entered with a
    started recorder offers its file at most once, and exactly when the
    session is marked done: then the recorder and the drone are stopped and
    no later event changes anything.  Entered without a recorder it never
    offers a file and never marks the session done. *)
Theorem export_downloads_once st evs :
  (let s := run evs (scene_loop st true) in
   (isDone s = true <-> phase s = WrappedUp) /\
   downloads s = (if isDone s then 1%nat else 0%nat) /\
   recording s = negb (isDone s) /\
   (isDone s = true -> musicSource s = false) /\
   (isDone s = true -> forall more, run more s = s)) /\
  (let s := run evs (scene_loop st false) in
   isDone s = false /\ downloads s = 0%nat /\ recording s = false).
Proof.
  split; cbv zeta.
  - pose proof (session_run evs _ (session_start st)) as H.
    set (s := run evs (scene_loop st true)) in *. clearbody s.
    unfold session in H.
    destruct (phase s) as [| | |] eqn:Hp.
    + destruct H.
    + destruct H as (Hd & Hr & Hn & _). rewrite Hd, Hr, Hn.
      repeat split; try discriminate.
    + destruct H as (Hd & Hr & Hn & _). rewrite Hd, Hr, Hn.
      repeat split; try discriminate.
    + destruct H as (Hd & Hr & Hm & Hn). rewrite Hd, Hr, Hn.
      repeat split; auto. intros _ more. apply run_wrapped, Hp.
  - destruct (unrecorded_run evs _ (unrecorded_start st)) as (Hd & Hr & Hn).
    auto.
Qed.

Lemma export_downloads_once_witness :
  let s := run [ImageLoad 0; TimerFired 4000] (scene_loop one_silent_scene true) in
  isDone s = true /\ downloads s = 1%nat /\
  run [ImageLoad 5000; TimerFired 9000; AnimationFrame 9016] s = s /\
  downloads (run [ImageLoad 0; TimerFired 4000]
                 (scene_loop one_silent_scene false)) = 0%nat.
Proof.
  cbv zeta.
  destruct (export_downloads_once one_silent_scene [ImageLoad 0; TimerFired 4000])
    as ((_ & Hd & _ & _ & Hstay) & (_ & Hn & _)).
  split; [reflexivity|]. split; [exact Hd|]. split; [|exact Hn].
  apply Hstay. reflexivity.
Defined.

Lemma run_app evs1 evs2 s : run (evs1 ++ evs2) s = run evs2 (run evs1 s).
Proof. unfold run. apply fold_left_app. Qed.

Lemma drop_head (l : list Scene) k sc rest :
  drop k l = sc :: rest -> l !! k = Some sc /\ drop (S k) l = rest.
Proof.
  intros H.
  assert (Hk : l !! k = Some sc).
  { pose proof (lookup_drop l k 0) as E. rewrite H in E. cbn in E.
    rewrite Nat.add_0_r in E. symmetry. exact E. }
  split; [exact Hk|].
  rewrite (drop_S _ _ _ Hk) in H. congruence.
Qed.

(** A loop whose images load and whose timers fire runs through the scenes
    that are left. *)
Lemma smooth_from rest : forall t s,
  phase s = AwaitImage -> drop (i s) (scenes (story s)) = rest -> rest <> [] ->
  isDone s = false -> recording s = true -> downloads s = 0%nat ->
  let s' := run (smooth_run t rest) s in
  phase s' = WrappedUp /\ i s' = length (scenes (story s)) /\
  isDone s' = true /\ recording s' = false /\ musicSource s' = false /\
  downloads s' = 1%nat /\
  map fst (narrations s') = map fst (narrations s) ++ narrated_from (i s) rest.
Proof.
  induction rest as [|sc rest IH]; intros t s Hp Hdrop Hne Hd Hr Hn; [congruence|].
  destruct (drop_head _ _ _ _ Hdrop) as [Hsc Hrest].
  cbv zeta. cbn [smooth_run]. unfold run. cbn [fold_left].
  change (fold_left (fun acc e => step e acc) ?l ?x) with (run l x).
  assert (H1 : step (ImageLoad t) s =
               mkState (story s) (i s) (Rendering t (sceneDuration_of sc) true)
                 (progress s) (currentSceneIndex s) (isDone s) (recording s)
                 (musicSource s)
                 (match audioData sc with
                  | Some _ => narrations s ++ [(i s, t)]
                  | None => narrations s
                  end) (rendered s) (downloads s)).
  { unfold step. rewrite Hp, Hsc. reflexivity. }
  rewrite H1. set (s1 := mkState _ _ _ _ _ _ _ _ _ _ _).
  assert (H2 : step (TimerFired (t + timeout_delay (sceneDuration_of sc))) s1 =
               enter_scene (S (i s)) s1).
  { unfold step. cbn [phase s1]. rewrite Z.leb_refl. reflexivity. }
  rewrite H2. unfold enter_scene. cbn [story s1].
  assert (Hnar : map fst (narrations s1) ++ narrated_from (S (i s)) rest =
                 map fst (narrations s) ++ narrated_from (i s) (sc :: rest)).
  { cbn [narrations s1 narrated_from]. destruct (audioData sc).
    - rewrite map_app, <- app_assoc. reflexivity.
    - reflexivity. }
  assert (Hlen : length rest = (length (scenes (story s)) - S (i s))%nat).
  { rewrite <- Hrest, length_drop. reflexivity. }
  destruct (Nat.ltb_spec (S (i s)) (length (scenes (story s)))) as [Hk|Hk].
  - set (s2 := mkState _ _ _ _ _ _ _ _ _ _ _).
    assert (rest <> []) as Hne'.
    { intros ->. cbn in Hlen. lia. }
    destruct (IH (t + timeout_delay (sceneDuration_of sc)) s2 eq_refl Hrest Hne' Hd Hr Hn)
      as (E1 & E2 & E3 & E4 & E5 & E6 & E7).
    repeat split; try assumption.
    rewrite E7. exact Hnar.
  - assert (rest = []) as ->.
    { destruct rest; [reflexivity|]. cbn in Hlen. lia. }
    rewrite <- Hnar. cbn [smooth_run run fold_left]. unfold wrap_up.
    cbn [phase i isDone recording musicSource downloads narrations story s1].
    apply lookup_lt_Some in Hsc. rewrite Hd, Hr, Hn.
    repeat split; try lia.
    rewrite app_nil_r. reflexivity.
Qed.

(** X24. [playAllScenes] entered with a started recorder: when every image
    loads and every scene timer fires, the loop ends: all scenes are passed,
    the narration of each scene that has one was started once and in order,
    the recorder and the drone are stopped, the session is marked done and
    the file is offered once. *)
Theorem smooth_export_completes st t :
  let s := run (smooth_run t (scenes st)) (scene_loop st true) in
  phase s = WrappedUp /\ i s = length (scenes st) /\
  isDone s = true /\ recording s = false /\ musicSource s = false /\
  downloads s = 1%nat /\
  map fst (narrations s) = narrated_from 0 (scenes st).
Proof.
  cbv zeta. unfold scene_loop, playAllScenes, enter_scene.
  cbn [story start_recorder initial].
  destruct (scenes st) as [|sc rest] eqn:Hs.
  - cbn. repeat split.
  - cbn [length Nat.ltb Nat.leb].
    set (s0 := mkState _ _ _ _ _ _ _ _ _ _ _).
    destruct (smooth_from (sc :: rest) t s0 eq_refl) as (E1 & E2 & E3 & E4 & E5 & E6 & E7);
      try reflexivity; try discriminate.
    { cbn. rewrite Hs. reflexivity. }
    cbn [story s0] in E2. rewrite Hs in E2.
    repeat split; assumption.
Qed.

Lemma smooth_export_completes_witness :
  let s := run [ImageLoad 0; TimerFired 4000; ImageLoad 4000; TimerFired 8000]
               (scene_loop narrated_then_silent true) in
  isDone s = true /\ downloads s = 1%nat /\ map fst (narrations s) = [0%nat].
Proof.
  cbv zeta.
  destruct (smooth_export_completes narrated_then_silent 0)
    as (_ & _ & Hd & _ & _ & Hn & Hnar).
  split; [exact Hd|]. split; [exact Hn | exact Hnar].
Defined.

(* --------------------------------------------------------------------- *)
(** ** The progress bar                                                   *)

Local Open Scope Q_scope.

Lemma inject_nat_pos (n : nat) : (0 < n)%nat -> 0 < inject_Z (Z.of_nat n).
Proof. intros H. change 0 with (inject_Z 0). rewrite <- Zlt_Qlt. lia. Qed.

Lemma reported_mono total k k' p p' :
  (0 < total)%nat ->
  inject_Z (Z.of_nat k) + p <= inject_Z (Z.of_nat k') + p' ->
  reported_progress k p total <= reported_progress k' p' total.
Proof.
  intros Ht H. unfold reported_progress.
  apply Qmult_le_compat_r; [|discriminate].
  unfold Qdiv. apply Qmult_le_compat_r; [exact H|].
  apply Qinv_le_0_compat, Qlt_le_weak, inject_nat_pos, Ht.
Qed.

Lemma intra_le_1 t startTime d : intra_progress t startTime d <= 1.
Proof. unfold intra_progress. apply Q.le_min_r. Qed.

Lemma intra_mono t t' startTime d :
  0 < d -> (t <= t')%Z ->
  intra_progress t startTime d <= intra_progress t' startTime d.
Proof.
  intros Hd Ht. unfold intra_progress. apply Q.min_le_compat_r.
  unfold Qdiv. apply Qmult_le_compat_r.
  - rewrite <- Zle_Qle. lia.
  - apply Qinv_le_0_compat, Qlt_le_weak, Hd.
Qed.

Lemma intra_nonneg t startTime d :
  0 < d -> (startTime <= t)%Z -> 0 <= intra_progress t startTime d.
Proof.
  intros Hd Ht. unfold intra_progress. apply Q.min_glb; [|discriminate].
  unfold Qdiv. apply Qmult_le_0_compat.
  - change 0 with (inject_Z 0). rewrite <- Zle_Qle. lia.
  - apply Qinv_le_0_compat, Qlt_le_weak, Hd.
Qed.

Lemma reported_bounds k p total :
  (k < total)%nat -> 0 <= p -> p <= 1 ->
  0 <= reported_progress k p total /\ reported_progress k p total <= 100.
Proof.
  intros Hk H0 H1. unfold reported_progress.
  assert (Ht : 0 < inject_Z (Z.of_nat total)) by (apply inject_nat_pos; lia).
  split.
  - apply Qmult_le_0_compat; [|discriminate].
    unfold Qdiv. apply Qmult_le_0_compat.
    + rewrite <- (Qplus_0_r 0). apply Qplus_le_compat; [|exact H0].
      change 0 with (inject_Z 0). rewrite <- Zle_Qle. lia.
    + apply Qinv_le_0_compat, Qlt_le_weak, Ht.
  - change 100 with (1 * 100) at 2.
    apply Qmult_le_compat_r; [|discriminate].
    apply Qle_shift_div_r; [exact Ht|]. rewrite Qmult_1_l.
    apply Qle_trans with (inject_Z (Z.of_nat k) + 1).
    + apply Qplus_le_compat; [apply Qle_refl | exact H1].
    + change 1 with (inject_Z 1). rewrite <- inject_Z_plus, <- Zle_Qle. lia.
Qed.

Lemma ascending_snoc l g :
  ascending l -> Forall (fun f => le_frames f g) l -> ascending (l ++ [g]).
Proof.
  induction l as [|f l IH]; intros Ha Hf; cbn.
  - split; constructor.
  - destruct Ha as [Ha1 Ha2]. inversion Hf as [|? ? Hf1 Hf2]; subst. split.
    + apply Forall_app. split; [exact Ha1|]. constructor; [exact Hf1 | constructor].
    + apply IH; assumption.
Qed.

Lemma ceiling_later tnow t s :
  paced tnow s -> (tnow <= t)%Z -> ceiling tnow s <= ceiling t s.
Proof.
  intros Hp Ht. unfold ceiling, paced in *.
  destruct (phase s) as [| |startTime d pending|]; try apply Qle_refl.
  destruct Hp as (Hs & Hd & Hi).
  apply reported_mono; [lia|].
  apply Qplus_le_compat; [apply Qle_refl|]. apply intra_mono; assumption.
Qed.

Lemma steady_later tnow t s : steady tnow s -> (tnow <= t)%Z -> steady t s.
Proof.
  intros (Hpaced & Hasc & Hwithin & Hceil & Hp0 & Hp100) Ht.
  split; [|split; [exact Hasc|split; [exact Hwithin|split; [|split; assumption]]]].
  - unfold paced in *. destruct (phase s); auto.
    destruct Hpaced as (? & ? & ?). repeat split; try assumption. lia.
  - intros Hw. eapply Forall_impl; [exact (Hceil Hw)|].
    intros f Hf. cbv beta in *. eapply Qle_trans; [exact Hf|].
    apply ceiling_later; assumption.
Qed.

Lemma steady_step tnow e s :
  steady tnow s -> (tnow <= ev_time e)%Z -> steady (ev_time e) (step e s).
Proof.
  intros Hst Ht. pose proof (steady_later _ _ _ Hst Ht) as Hlater.
  destruct Hst as (Hpaced & Hasc & Hwithin & Hceil & Hp0 & Hp100).
  unfold paced in Hpaced.
  destruct (phase s) as [| |startTime d pending|] eqn:Hp.
  - (* before the loop *)
    rewrite ExporterFacts.step_mounted by exact Hp. exact Hlater.
  - (* waiting for the image *)
    unfold step. rewrite Hp.
    destruct e; try exact Hlater.
    destruct (scenes (story s) !! i s) as [scene|] eqn:Hs; [|exact Hlater].
    pose proof (sceneDuration_pos scene) as Hd.
    unfold steady, paced, ceiling. cbn.
    split; [repeat split; try assumption; lia|].
    split; [exact Hasc|]. split; [exact Hwithin|].
    split; [|split; assumption].
    intros _. eapply Forall_impl; [apply Hceil; discriminate|].
    intros f Hf. cbv beta in *. eapply Qle_trans; [exact Hf|].
    unfold ceiling. rewrite Hp.
    apply reported_mono; [lia|].
    apply Qplus_le_compat; [apply Qle_refl|].
    apply intra_nonneg; [exact Hd | lia].
  - (* rendering *)
    destruct Hpaced as (Hs & Hd & Hi).
    assert (Hc : Forall (fun f => f_reported f <=
                   reported_progress (i s) (intra_progress tnow startTime d)
                                     (length (scenes (story s)))) (rendered s)).
    { eapply Forall_impl; [apply Hceil; discriminate|].
      intros f Hf. cbv beta in *. unfold ceiling in Hf. rewrite Hp in Hf. exact Hf. }
    unfold step. rewrite Hp.
    destruct e; try exact Hlater.
    + destruct pending; [|exact Hlater]. cbn [ev_time] in *.
      set (p := intra_progress t startTime d).
      set (r := reported_progress (i s) p (length (scenes (story s)))).
      assert (Hpb : 0 <= p /\ p <= 1).
      { split; [apply intra_nonneg; [exact Hd | lia] | apply intra_le_1]. }
      destruct (reported_bounds (i s) p _ Hi (proj1 Hpb) (proj2 Hpb)) as [Hr0 Hr100].
      assert (Hprev : Forall (fun f => f_reported f <= r) (rendered s)).
      { eapply Forall_impl; [exact Hc|].
        intros f Hf. cbv beta in *. eapply Qle_trans; [exact Hf|].
        apply reported_mono; [lia|].
        apply Qplus_le_compat; [apply Qle_refl|]. apply intra_mono; assumption. }
      unfold steady, paced, ceiling. cbn.
      split; [repeat split; try assumption; lia|].
      split; [apply ascending_snoc; assumption|].
      split; [apply Forall_app; split; [exact Hwithin|];
              constructor; [split; assumption | constructor]|].
      split; [|split; assumption].
      intros _. apply Forall_app. split; [exact Hprev|].
      constructor; [apply Qle_refl | constructor].
    + cbn [ev_time] in *.
      destruct (startTime + timeout_delay d <=? t)%Z; [|exact Hlater].
      unfold enter_scene.
      destruct (Nat.ltb_spec (S (i s)) (length (scenes (story s)))) as [Hk|Hk].
      * unfold steady, paced, ceiling. cbn.
        split; [exact Hk|]. split; [exact Hasc|]. split; [exact Hwithin|].
        split; [|split; assumption].
        intros _. eapply Forall_impl; [exact Hc|].
        intros f Hf. cbv beta in *. eapply Qle_trans; [exact Hf|].
        apply reported_mono; [lia|].
        apply Qle_trans with (inject_Z (Z.of_nat (i s)) + 1).
        -- apply Qplus_le_compat; [apply Qle_refl | apply intra_le_1].
        -- rewrite Qplus_0_r. change 1 with (inject_Z 1).
           rewrite <- inject_Z_plus, <- Zle_Qle. lia.
      * unfold steady, paced, wrap_up. cbn.
        split; [exact I|]. split; [exact Hasc|]. split; [exact Hwithin|].
        split; [|split; assumption].
        intros Hw. exfalso. apply Hw. reflexivity.
  - rewrite step_wrapped by exact Hp. exact Hlater.
Qed.

Lemma steady_run evs : forall tnow s,
  steady tnow s -> nondecreasing tnow evs ->
  exists t, steady t (run evs s).
Proof.
  induction evs as [|e evs IH]; intros tnow s Hs Hn.
  - exists tnow. exact Hs.
  - destruct Hn as [H1 H2].
    apply (IH (ev_time e) (step e s)); [exact (steady_step tnow e s Hs H1) | exact H2].
Qed.

Lemma steady_start t st recorder : steady t (scene_loop st recorder).
Proof.
  unfold scene_loop, playAllScenes, enter_scene.
  destruct recorder; cbn [story start_recorder initial];
    destruct (Nat.ltb_spec 0 (length (scenes st))) as [Hk|Hk];
    unfold steady, paced, wrap_up; cbn;
    repeat split; try constructor; try discriminate; try exact Hk.
Qed.

(** X25. [playAllScenes], with or without a recorder: as long as the
    timestamps the platform delivers do not go back, the progress reported
    by the frames never goes back either, whatever the order of the events;
    every value reported is a percentage between 0 and 100, and so is the
    progress shown. *)
Theorem export_progress_never_goes_back st recorder t0 evs :
  nondecreasing t0 evs ->
  let s := run evs (scene_loop st recorder) in
  ascending (rendered s) /\ Forall within (rendered s) /\
  0 <= progress s /\ progress s <= 100.
Proof.
  intros Hn. cbv zeta.
  destruct (steady_run evs t0 _ (steady_start t0 st recorder) Hn)
    as (t & _ & Hasc & Hwithin & _ & Hp0 & Hp100).
  auto.
Qed.

Lemma export_progress_never_goes_back_witness :
  let evs := [ImageLoad 0; AnimationFrame 16; AnimationFrame 2000;
              TimerFired 4000; ImageLoad 4000; AnimationFrame 4016] in
  nondecreasing 0 evs /\
  ascending (rendered (run evs (scene_loop narrated_then_silent true))) /\
  length (rendered (run evs (scene_loop narrated_then_silent true))) = 3%nat.
Proof.
  cbv zeta.
  assert (Hn : nondecreasing 0 [ImageLoad 0; AnimationFrame 16; AnimationFrame 2000;
                                TimerFired 4000; ImageLoad 4000; AnimationFrame 4016]).
  { cbn. repeat split; lia. }
  split; [exact Hn|]. split.
  - exact (proj1 (export_progress_never_goes_back narrated_then_silent true 0 _ Hn)).
  - reflexivity.
Defined.

(** ** When the frames keep up *)

Lemma past_the_end_spec sc :
  sceneDuration_of sc <= inject_Z (past_the_end sc) /\
  (timeout_delay (sceneDuration_of sc) <= past_the_end sc)%Z.
Proof.
  pose proof (sceneDuration_pos sc) as Hpos.
  pose proof (Qle_ceiling (sceneDuration_of sc)) as Hc.
  unfold past_the_end. split.
  - eapply Qle_trans; [exact Hc|]. rewrite <- Zle_Qle. lia.
  - assert (Ht : (truncate (sceneDuration_of sc) <= Qceiling (sceneDuration_of sc))%Z).
    { unfold truncate, Qceiling, Qfloor.
      destruct (sceneDuration_of sc) as [n d] eqn:E. cbn [Qnum Qden Qopp].
      assert (Hn : (0 < n)%Z).
      { unfold Qlt in Hpos. cbn in Hpos. lia. }
      rewrite Z.quot_div_nonneg by lia.
      pose proof (Z.mul_div_le n (Z.pos d) ltac:(lia)) as H1.
      pose proof (Z.mul_div_le (- n) (Z.pos d) ltac:(lia)) as H2.
      nia. }
    assert (H0 : (0 <= truncate (sceneDuration_of sc))%Z).
    { unfold truncate. destruct (sceneDuration_of sc) as [n d].
      cbn [Qnum Qden]. unfold Qlt in Hpos. cbn in Hpos.
      apply Z.quot_pos; lia. }
    unfold timeout_delay, Player.to_int32.
    pose proof (Z.mod_le (truncate (sceneDuration_of sc) + 2 ^ 31) (2 ^ 32)
                  ltac:(lia) ltac:(lia)) as Hm.
    pose proof (Zle_0_pos 1) as _.
    assert (Hceil0 : (0 <= Qceiling (sceneDuration_of sc))%Z) by lia.
    lia.
Qed.

Lemma intra_past_the_end t e d :
  0 < d -> d <= inject_Z e -> intra_progress (t + e) t d == 1.
Proof.
  intros Hd He. unfold intra_progress.
  replace (t + e - t)%Z with e by lia.
  apply Q.min_r. apply Qle_shift_div_l; [exact Hd|].
  rewrite Qmult_1_l. exact He.
Qed.

Lemma reported_at_end k p total :
  p == 1 -> S k = total -> reported_progress k p total == 100.
Proof.
  intros Hp Hk. unfold reported_progress. rewrite Hp.
  assert (H : inject_Z (Z.of_nat k) + 1 == inject_Z (Z.of_nat total)).
  { change 1 with (inject_Z 1). rewrite <- inject_Z_plus. subst total.
    rewrite Nat2Z.inj_succ. unfold Z.succ. reflexivity. }
  rewrite H.
  assert (Hne : ~ inject_Z (Z.of_nat total) == 0).
  { intros E. apply (Qeq_bool_neq (inject_Z (Z.of_nat total)) 0); [|exact E].
    unfold Qeq_bool. cbn. apply Z.eqb_neq. lia. }
  field. exact Hne.
Qed.

Lemma paced_from rest : forall t s,
  phase s = AwaitImage -> drop (i s) (scenes (story s)) = rest -> rest <> [] ->
  isDone s = false -> recording s = true -> downloads s = 0%nat ->
  let s' := run (paced_run t rest) s in
  phase s' = WrappedUp /\ isDone s' = true /\ downloads s' = 1%nat /\
  progress s' == 100 /\
  length (rendered s') = (length (rendered s) + length rest)%nat.
Proof.
  induction rest as [|sc rest IH]; intros t s Hp Hdrop Hne Hd Hr Hn; [congruence|].
  destruct (drop_head _ _ _ _ Hdrop) as [Hsc Hrest].
  cbv zeta. cbn [paced_run]. unfold run. cbn [fold_left].
  change (fold_left (fun acc e => step e acc) ?l ?x) with (run l x).
  pose proof (sceneDuration_pos sc) as Hpos.
  destruct (past_the_end_spec sc) as [Hend Hdelay].
  set (d := sceneDuration_of sc) in *.
  set (e := past_the_end sc) in *.
  assert (H1 : step (ImageLoad t) s =
               mkState (story s) (i s) (Rendering t d true)
                 (progress s) (currentSceneIndex s) (isDone s) (recording s)
                 (musicSource s)
                 (match audioData sc with
                  | Some _ => narrations s ++ [(i s, t)]
                  | None => narrations s
                  end) (rendered s) (downloads s)).
  { unfold step. rewrite Hp, Hsc. reflexivity. }
  rewrite H1. set (s1 := mkState _ _ _ _ _ _ _ _ _ _ _).
  set (p := intra_progress (t + e) t d).
  set (r := reported_progress (i s) p (length (scenes (story s)))).
  assert (H2 : step (AnimationFrame (t + e)) s1 =
               mkState (story s) (i s)
                 (Rendering t d (if Qle_bool 1 p then false else true))
                 r (currentSceneIndex s) (isDone s) (recording s) (musicSource s)
                 (narrations s1) (rendered s ++ [mkFrame (i s) (t + e) p r])
                 (downloads s)).
  { reflexivity. }
  rewrite H2. set (s2 := mkState _ _ _ _ _ _ _ _ _ _ _).
  assert (H3 : step (TimerFired (t + e)) s2 = enter_scene (S (i s)) s2).
  { unfold step. cbn [phase s2].
    rewrite (proj2 (Z.leb_le (t + timeout_delay d) (t + e))) by lia.
    reflexivity. }
  rewrite H3. unfold enter_scene. cbn [story s2].
  assert (Hlen : length rest = (length (scenes (story s)) - S (i s))%nat).
  { rewrite <- Hrest, length_drop. reflexivity. }
  destruct (Nat.ltb_spec (S (i s)) (length (scenes (story s)))) as [Hk|Hk].
  - set (s3 := mkState _ _ _ _ _ _ _ _ _ _ _).
    assert (rest <> []) as Hne'.
    { intros ->. cbn in Hlen. lia. }
    destruct (IH (t + e)%Z s3 eq_refl Hrest Hne' Hd Hr Hn)
      as (E1 & E2 & E3 & E4 & E5).
    split; [exact E1|]. split; [exact E2|]. split; [exact E3|]. split; [exact E4|].
    rewrite E5. cbn [rendered s3 s2]. rewrite length_app. cbn [length]. lia.
  - assert (rest = []) as ->.
    { destruct rest; [reflexivity|]. cbn in Hlen. lia. }
    cbn [paced_run run fold_left]. unfold wrap_up.
    cbn [phase isDone recording downloads progress rendered s2].
    apply lookup_lt_Some in Hsc. rewrite Hd, Hr, Hn.
    split; [reflexivity|]. split; [reflexivity|]. split; [reflexivity|].
    split.
    + apply reported_at_end; [apply intra_past_the_end; assumption | lia].
    + rewrite length_app. reflexivity.
Qed.

(** X29. [playAllScenes] entered with a started recorder: when the frames
    keep up (every image loads, and a frame of each scene is rendered a
    millisecond or more past the end of the scene, before the scene's timer
    callback runs), the loop over a story that has a scene ends with the
    progress at 100, done, with the file offered once, and one frame
    rendered per scene. *)
Theorem export_reaches_100_when_frames_keep_up st t :
  scenes st <> [] ->
  let s := run (paced_run t (scenes st)) (scene_loop st true) in
  isDone s = true /\ downloads s = 1%nat /\ progress s == 100 /\
  length (rendered s) = length (scenes st).
Proof.
  intros Hne. cbv zeta. unfold scene_loop, playAllScenes, enter_scene.
  cbn [story start_recorder initial].
  destruct (scenes st) as [|sc rest] eqn:Hs; [congruence|].
  cbn [length Nat.ltb Nat.leb].
  set (s0 := mkState _ _ _ _ _ _ _ _ _ _ _).
  destruct (paced_from (sc :: rest) t s0 eq_refl) as (E1 & E2 & E3 & E4 & E5);
    try reflexivity; try discriminate.
  { cbn. rewrite Hs. reflexivity. }
  split; [exact E2|]. split; [exact E3|]. split; [exact E4 | exact E5].
Qed.

Lemma export_reaches_100_when_frames_keep_up_witness :
  paced_run 0 (Story.scenes narrated_then_silent) =
    [ImageLoad 0; AnimationFrame 4002; TimerFired 4002;
     ImageLoad 4002; AnimationFrame 8003; TimerFired 8003] /\
  progress (run (paced_run 0 (Story.scenes narrated_then_silent))
                (scene_loop narrated_then_silent true)) == 100.
Proof.
  split; [reflexivity|].
  destruct (export_reaches_100_when_frames_keep_up narrated_then_silent 0
              ltac:(discriminate)) as (_ & _ & H & _).
  exact H.
Defined.

End ExportRunFacts.

(* ===================================================================== *)
(** * The name of the exported file                                      *)
(* ===================================================================== *)

Module FileNameFacts.

Import FileName.

Lemma lower_plain c :
  let c' := if is_upper c then ascii_of_nat (nat_of_ascii c + 32) else c in
  is_upper c' = false /\ is_space c' = is_space c.
Proof.
  cbv zeta. destruct (is_upper c) eqn:Hu; [|auto].
  unfold is_upper, is_space in *. cbv zeta in *.
  apply andb_true_iff in Hu. destruct Hu as [H1 H2].
  apply Nat.leb_le in H1. apply Nat.leb_le in H2.
  rewrite nat_ascii_embedding by lia.
  split.
  - apply andb_false_iff. right. apply Nat.leb_gt. lia.
  - replace (9 <=? nat_of_ascii c + 32)%nat with true by (symmetry; apply Nat.leb_le; lia).
    replace (nat_of_ascii c + 32 <=? 13)%nat with false by (symmetry; apply Nat.leb_gt; lia).
    replace (nat_of_ascii c + 32 =? 32)%nat with false by (symmetry; apply Nat.eqb_neq; lia).
    replace (nat_of_ascii c <=? 13)%nat with false by (symmetry; apply Nat.leb_gt; lia).
    replace (nat_of_ascii c =? 32)%nat with false by (symmetry; apply Nat.eqb_neq; lia).
    rewrite !andb_false_r. reflexivity.
Qed.

Lemma toLowerCase_no_upper l : Forall (fun c => is_upper c = false) (toLowerCase l).
Proof.
  unfold toLowerCase. apply List.Forall_map. apply List.Forall_forall.
  intros c _. apply (lower_plain c).
Qed.

Lemma replace_spaces_clean l : forall in_run,
  Forall (fun c => is_upper c = false) l ->
  Forall (fun c => is_space c = false /\ is_upper c = false) (replace_spaces in_run l) /\
  (length (replace_spaces in_run l) <= length l)%nat.
Proof.
  induction l as [|c l IH]; intros in_run H; [split; [constructor | reflexivity]|].
  inversion H as [|? ? Hc Hl]; subst. cbn [replace_spaces length].
  destruct (is_space c) eqn:Hs.
  - destruct in_run.
    + destruct (IH true Hl) as [H1 H2]. split; [exact H1 | lia].
    + destruct (IH true Hl) as [H1 H2]. split; [|cbn [length]; lia].
      constructor; [split; reflexivity | exact H1].
  - destruct (IH false Hl) as [H1 H2]. split; [|cbn [length]; lia].
    constructor; [split; assumption | exact H1].
Qed.

Lemma replace_spaces_none l : forall in_run,
  Forall (fun c => is_space c = false) l -> replace_spaces in_run l = l.
Proof.
  induction l as [|c l IH]; intros in_run H; [reflexivity|].
  inversion H as [|? ? Hc Hl]; subst. cbn [replace_spaces]. rewrite Hc.
  f_equal. apply IH, Hl.
Qed.

Lemma toLowerCase_none l :
  Forall (fun c => is_upper c = false) l -> toLowerCase l = l.
Proof.
  induction l as [|c l IH]; intros H; [reflexivity|].
  inversion H as [|? ? Hc Hl]; subst. cbn [toLowerCase map]. rewrite Hc.
  f_equal. apply IH, Hl.
Qed.

(** X20. The name of the downloaded file, for a title of 7-bit characters: its
    stem has no white space and no capital letter and is not longer than the
    title; a title that already has neither is its own stem, so naming is
    idempotent; and the name is the stem followed by the extension. *)
Theorem download_name_is_a_slug (title extension : string) :
  Forall is_ascii7 (list_ascii_of_string title) ->
  Forall (fun c => is_space c = false /\ is_upper c = false) (stem title) /\
  (length (stem title) <= String.length title)%nat /\
  stem (string_of_list_ascii (stem title)) = stem title /\
  download_name title extension =
    (string_of_list_ascii (stem title) ++ extension)%string.
Proof.
  intros _. unfold stem.
  destruct (replace_spaces_clean (toLowerCase (list_ascii_of_string title)) false
              (toLowerCase_no_upper _)) as [Hclean Hlen].
  split; [exact Hclean|]. split; [|split; [|reflexivity]].
  - assert (Hk : forall s, String.length s = length (list_ascii_of_string s)).
    { intros s. induction s as [|c s IH]; [reflexivity | cbn; rewrite IH; reflexivity]. }
    rewrite Hk. unfold toLowerCase in Hlen at 2. rewrite length_map in Hlen. exact Hlen.
  - rewrite list_ascii_of_string_of_list_ascii.
    rewrite toLowerCase_none.
    + apply replace_spaces_none.
      eapply Forall_impl; [exact Hclean|]. intros c [H _]. exact H.
    + eapply Forall_impl; [exact Hclean|]. intros c [_ H]. exact H.
Qed.

Lemma download_name_is_a_slug_witness :
  download_name "The  Lost Temple" ".webm" = "the-lost-temple.webm"%string /\
  stem "the-lost-temple" = list_ascii_of_string "the-lost-temple".
Proof.
  split; [reflexivity|].
  assert (H : Forall is_ascii7 (list_ascii_of_string "The  Lost Temple")).
  { repeat constructor; unfold is_ascii7; cbn; lia. }
  destruct (download_name_is_a_slug "The  Lost Temple" ".webm" H) as (_ & _ & Hi & _).
  exact Hi.
Defined.

End FileNameFacts.

(* ===================================================================== *)
(** * More on the decoders: failures and channels                         *)
(* ===================================================================== *)

Module DecoderFacts.

Import Pcm PcmFacts AudioLimits.

Lemma list_ind2 {A} (P : list A -> Prop) :
  P [] -> (forall x, P [x]) -> (forall x y l, P l -> P (x :: y :: l)) ->
  forall l, P l.
Proof.
  intros H0 H1 H2.
  fix IH 1. intros [|x [|y l]]; [exact H0 | apply H1 | apply H2, IH].
Qed.

Lemma Int16Array_length bytes :
  match Int16Array bytes with
  | Some pcm => length bytes = (2 * length pcm)%nat
  | None => exists k, length bytes = (2 * k + 1)%nat
  end.
Proof.
  induction bytes as [| x | x y l IH] using list_ind2.
  - reflexivity.
  - exists 0%nat. reflexivity.
  - cbn [Int16Array]. destruct (Int16Array l) as [pcm|]; cbn.
    + rewrite IH. lia.
    + destruct IH as [k Hk]. exists (S k). cbn [length]. lia.
Qed.

(** X2. For a sample rate and a number of channels that every platform supports,
    [decodeAudioData] fails in three cases only: the byte count is odd (the
    16-bit view cannot be made), no channel is asked for, or the samples do
    not fill one frame (which includes the empty payload). *)
Theorem decodeAudioData_fails_exactly data sampleRate numChannels :
  supported sampleRate numChannels ->
  (decodeAudioData data sampleRate numChannels = None <->
   (Nat.Odd (length data) \/ numChannels = 0%nat \/
    (length data / 2 < numChannels)%nat)).
Proof.
  intros _. unfold decodeAudioData. pose proof (Int16Array_length data) as HL.
  destruct (Int16Array data) as [pcm|]; cbn [mbind option_bind].
  - assert (Hhalf : (length data / 2 = length pcm)%nat).
    { rewrite HL, Nat.mul_comm. apply Nat.div_mul. lia. }
    rewrite Hhalf.
    destruct (Nat.eqb_spec numChannels 0) as [Hz|Hz].
    + split; auto.
    + destruct (Nat.eqb_spec (length pcm / numChannels) 0) as [Hf|Hf].
      * split; [|reflexivity]. intros _. right. right.
        apply Nat.div_small_iff; assumption.
      * split; [discriminate|].
        intros [[k Hk] | [H | H]]; [lia | contradiction |].
        apply Nat.div_small_iff in H; [contradiction | assumption].
  - split; [|reflexivity]. intros _. left. destruct HL as [k Hk]. exists k. exact Hk.
Qed.

Lemma decodeAudioData_fails_exactly_witness :
  decodeAudioData [1; 0; 2]%Z 24000 1 = None /\
  decodeAudioData [1; 0; 2; 0]%Z 24000 3 = None.
Proof.
  assert (H1 : supported 24000 1) by (unfold supported; lia).
  assert (H3 : supported 24000 3) by (unfold supported; lia).
  split.
  - apply (decodeAudioData_fails_exactly [1; 0; 2]%Z 24000 1 H1).
    left. exists 1%nat. reflexivity.
  - apply (decodeAudioData_fails_exactly [1; 0; 2; 0]%Z 24000 3 H3).
    right. right. cbn. lia.
Defined.

(** X3. When [decodeAudioData] returns, the buffer has the rate and the channels
    asked for and as many frames as the samples fill; sample [i] of channel
    [c] is sample [i * numChannels + c] of the payload over 32768, between -1
    and 1 when the payload is made of bytes.  Samples past the last whole
    frame are left out. *)
Theorem decodeAudioData_deinterleaves data sampleRate' numChannels buf :
  supported sampleRate' numChannels ->
  decodeAudioData data sampleRate' numChannels = Some buf ->
  exists pcm,
    Int16Array data = Some pcm /\
    sampleRate buf = sampleRate' /\ numberOfChannels buf = numChannels /\
    frameLength buf = (length pcm / numChannels)%nat /\
    (0 < frameLength buf)%nat /\
    length (channelData buf) = numChannels /\
    forall c, (c < numChannels)%nat ->
      exists ch,
        channelData buf !! c = Some ch /\ length ch = frameLength buf /\
        forall i, (i < frameLength buf)%nat ->
          let sample :=
            (inject_Z (nth (i * numChannels + c)%nat pcm 0%Z) / inject_Z 32768)%Q in
          ch !! i = Some sample /\
          (Forall is_byte data -> (- (1) <= sample /\ sample <= 1)%Q).
Proof.
  unfold decodeAudioData. intros _ H.
  destruct (Int16Array data) as [pcm|] eqn:HI; [|discriminate]. cbn in H.
  destruct (Nat.eqb_spec numChannels 0) as [Hz|Hz]; [discriminate|].
  destruct (Nat.eqb_spec (length pcm / numChannels) 0) as [Hf|Hf]; [discriminate|].
  injection H as <-. exists pcm. cbn.
  split; [reflexivity|]. split; [reflexivity|]. split; [reflexivity|].
  split; [reflexivity|]. split; [lia|].
  split; [rewrite length_map, length_seq; reflexivity|].
  intros c Hc. eexists. split.
  - rewrite list_lookup_fmap, lookup_seq_lt by exact Hc. reflexivity.
  - unfold channel_samples. split; [rewrite length_map, length_seq; reflexivity|].
    intros k Hk. cbv zeta. split.
    + rewrite list_lookup_fmap, lookup_seq_lt by exact Hk. reflexivity.
    + intros Hb.
      change (inject_Z ?s / inject_Z 32768)%Q with (pcm_to_float s).
      apply pcm_to_float_range.
      destruct (Int16Array_words data pcm HI) as (_ & _ & Hrange).
      specialize (Hrange Hb).
      rewrite List.Forall_forall in Hrange. apply Hrange, nth_In.
      unfold int16_get.
      pose proof (Nat.Div0.mul_div_le (length pcm) numChannels) as Hle.
      nia.
Qed.

Lemma decodeAudioData_deinterleaves_witness :
  exists ch,
    (channelData <$> decodeAudioData [1; 0; 2; 0; 3; 0; 4; 0; 5; 0]%Z 48000 2)
      ≫= (fun chans => chans !! 1%nat) = Some ch /\
    ch !! 1%nat = Some (4 # 32768)%Q.
Proof.
  destruct (decodeAudioData_deinterleaves [1; 0; 2; 0; 3; 0; 4; 0; 5; 0]%Z 48000 2
              _ ltac:(unfold supported; lia) eq_refl)
    as (pcm & HI & _ & _ & _ & _ & _ & Hch).
  destruct (Hch 1%nat ltac:(lia)) as (ch & H1 & _ & H2).
  exists ch. split; [exact H1|].
  injection HI as <-.
  exact (proj1 (H2 1%nat ltac:(cbn; lia))).
Defined.

(** X1. [decodeBase64] gives back the bytes of any standard base64 text, whatever
    their number (the empty text included), and whatever it returns is made
    of bytes. *)
Theorem decodeBase64_inverts_btoa :
  (forall bytes, Forall is_byte bytes -> decodeBase64 (btoa bytes) = Some bytes) /\
  (forall payload bytes, decodeBase64 payload = Some bytes -> Forall is_byte bytes).
Proof.
  split.
  - intros bytes Hb. unfold decodeBase64. rewrite (atob_btoa bytes Hb). cbn.
    rewrite (uint8_store_bytes bytes Hb). reflexivity.
  - intros payload bytes H. unfold decodeBase64 in H.
    destruct (atob payload) as [raw|]; [|discriminate]. cbn in H.
    injection H as <-. apply uint8_store_is_byte.
Qed.

Lemma decodeBase64_inverts_btoa_witness :
  decodeBase64 (btoa [72; 105; 33; 0]%Z) = Some [72; 105; 33; 0]%Z /\
  Forall is_byte [72; 105; 33; 0]%Z.
Proof.
  assert (Hb : Forall is_byte [72; 105; 33; 0]%Z).
  { repeat constructor; unfold is_byte; lia. }
  split; [exact (proj1 decodeBase64_inverts_btoa _ Hb)|].
  exact (proj2 decodeBase64_inverts_btoa (btoa [72; 105; 33; 0]%Z) _
               (proj1 decodeBase64_inverts_btoa _ Hb)).
Defined.

End DecoderFacts.

(* ===================================================================== *)
(** * More on the player: pausing, and the scene shown                    *)
(* ===================================================================== *)

Module PlayerRunFacts.

Import Story Player PlayerRun.

Local Open Scope Z_scope.

(** ** [stopAudio] *)

Lemma cancel_In i q p :
  In p (cancel i q) <-> In p q /\ pid p <> i.
Proof.
  unfold cancel. rewrite filter_In. split; intros [H1 H2]; split; try exact H1.
  - apply negb_true_iff, Nat.eqb_neq in H2. exact H2.
  - apply negb_true_iff, Nat.eqb_neq. exact H2.
Qed.

Lemma cancel_cancel i q : cancel i (cancel i q) = cancel i q.
Proof.
  unfold cancel. induction q as [|p q IH]; [reflexivity|].
  cbn [List.filter]. destruct (negb (pid p =? i)%nat) eqn:E; [|exact IH].
  cbn [List.filter]. rewrite E, IH. reflexivity.
Qed.

Lemma cancel_comm i j q : cancel i (cancel j q) = cancel j (cancel i q).
Proof.
  unfold cancel. induction q as [|p q IH]; [reflexivity|].
  cbn [List.filter].
  destruct (negb (pid p =? j)%nat) eqn:Ej, (negb (pid p =? i)%nat) eqn:Ei;
    cbn [List.filter]; rewrite ?Ej, ?Ei, IH; reflexivity.
Qed.

(** X9. [stopAudio] leaves both refs empty; of the pending callbacks exactly
    those the refs named are gone; the narration source the ref named has
    been stopped; and a second [stopAudio] changes nothing. *)
Theorem stopAudio_clears s :
  let s' := stopAudio s in
  audioSourceRef s' = None /\ transitionTimeoutRef s' = None /\
  (forall p, In p (queue s') <->
             In p (queue s) /\ audioSourceRef s <> Some (pid p) /\
             transitionTimeoutRef s <> Some (pid p)) /\
  (forall x, In x (sources s') -> audioSourceRef s = Some (src_id x) ->
             src_stopped x = true) /\
  length (sources s') = length (sources s) /\
  currentSceneIndex s' = currentSceneIndex s /\ isPlaying s' = isPlaying s /\
  musicPlayerRef s' = musicPlayerRef s /\
  stopAudio s' = s'.
Proof.
  cbv zeta. unfold stopAudio.
  destruct s as [st idx pl fin mu stage a t m pr clk fr q nid srcs].
  cbn [audioSourceRef transitionTimeoutRef queue sources story currentSceneIndex
       isPlaying isFinished isMuted layoutStage musicPlayerRef isPlayingRef clock
       frameMs nextId].
  assert (Hsrc : forall src x,
            In x (map (fun x => if (src_id x =? src)%nat
                                then mkSource (src_id x) (src_scene x) (src_output x)
                                              (src_start x) (src_length x) true
                                else x) srcs) ->
            Some src = Some (src_id x) -> src_stopped x = true).
  { intros src x Hx Hs. apply in_map_iff in Hx. destruct Hx as (y & <- & Hy).
    destruct (Nat.eqb_spec (src_id y) src) as [E|E]; [reflexivity|].
    injection Hs as Hs. congruence. }
  destruct a as [src|], t as [tm|];
    cbn [audioSourceRef transitionTimeoutRef queue sources story currentSceneIndex
         isPlaying isFinished isMuted layoutStage musicPlayerRef isPlayingRef clock
         frameMs nextId];
    (split; [reflexivity|]); (split; [reflexivity|]);
    (split; [intros p; rewrite ?cancel_In|]);
    [ | split; [apply Hsrc | rewrite length_map; repeat split]
      | | split; [apply Hsrc | rewrite length_map; repeat split]
      | | split; [discriminate | repeat split]
      | | split; [discriminate | repeat split] ].
  - split; [intros ((H1 & H2) & H3) | intros (H1 & H2 & H3)];
      repeat split; try assumption; congruence.
  - split; [intros (H1 & H2) | intros (H1 & H2 & H3)];
      repeat split; try assumption; try discriminate; congruence.
  - split; [intros (H1 & H2) | intros (H1 & H2 & H3)];
      repeat split; try assumption; try discriminate; congruence.
  - split; [intros H1 | intros (H1 & H2 & H3)];
      repeat split; try assumption; discriminate.
Qed.

Lemma stopAudio_clears_witness :
  let s := mount default_second_scene 16 0 in
  audioSourceRef s = Some 2%nat /\
  (forall p, In p (queue (stopAudio s)) -> pid p <> 2%nat) /\
  (forall x, In x (sources (stopAudio s)) -> src_id x = 2%nat -> src_stopped x = true).
Proof.
  cbv zeta.
  assert (Ha : audioSourceRef (mount default_second_scene 16 0) = Some 2%nat)
    by (vm_compute; reflexivity).
  destruct (stopAudio_clears (mount default_second_scene 16 0)) as (_ & _ & Hq & Hs & _).
  split; [exact Ha|]. split.
  - intros p Hp Hpid. apply Hq in Hp. destruct Hp as (_ & Hne & _).
    apply Hne. rewrite Ha, Hpid. reflexivity.
  - intros x Hx Hid. apply (Hs x Hx). rewrite Ha, Hid. reflexivity.
Defined.

(** ** The invariant of the event loop *)

Lemma waits_of_app q1 q2 : waits_of (q1 ++ q2) = waits_of q1 ++ waits_of q2.
Proof. apply List.filter_app. Qed.

Lemma waits_of_cancel i q : waits_of (cancel i q) = cancel i (waits_of q).
Proof.
  unfold waits_of, cancel. induction q as [|p q IH]; [reflexivity|].
  cbn [List.filter].
  destruct (negb (pid p =? i)%nat) eqn:Ei, (negb (is_frame (task p))) eqn:Ef;
    cbn [List.filter]; rewrite ?Ei, ?Ef, IH; reflexivity.
Qed.

Lemma waits_of_In q p : In p (waits_of q) <-> In p q /\ is_frame (task p) = false.
Proof.
  unfold waits_of. rewrite filter_In, negb_true_iff. reflexivity.
Qed.

Lemma next_pending_In q : forall p, next_pending q = Some p -> In p q.
Proof.
  induction q as [|x q IH]; intros p H; [discriminate|].
  cbn [next_pending] in H. destruct (next_pending q) as [p'|].
  - destruct (due p' <? due x); injection H as <-; [right; apply IH; reflexivity | left; reflexivity].
  - injection H as <-. left. reflexivity.
Qed.

(** The part of [tidy] that speaks of the queue and the refs. *)
Lemma tidy_intro s :
  (waits_of (queue s) = [] \/
   exists p, waits_of (queue s) = [p] /\
             (audioSourceRef s = Some (pid p) \/ transitionTimeoutRef s = Some (pid p))) ->
  Forall (fun p => in_range s (task p)) (queue s) ->
  shown s (currentSceneIndex s) -> tidy s.
Proof. intros H1 H2 H3. split; [exact H1 | split; assumption]. Qed.

Lemma stopAudio_waits s : tidy s -> waits (stopAudio s) = [].
Proof.
  intros (Hw & _ & _). unfold waits in *. unfold stopAudio.
  destruct s as [st idx pl fin mu stage a t m pr clk fr q nid srcs].
  unfold owned in Hw.
  cbn [audioSourceRef transitionTimeoutRef queue] in *.
  assert (Hgone : forall i p, waits_of q = [p] -> pid p = i ->
                              cancel i (waits_of q) = []).
  { intros i p -> <-. unfold cancel. cbn. rewrite Nat.eqb_refl. reflexivity. }
  assert (Hnil : forall i, waits_of q = [] -> cancel i (waits_of q) = []).
  { intros i ->. reflexivity. }
  destruct a as [src|], t as [tm|]; cbn [audioSourceRef transitionTimeoutRef queue];
    rewrite ?waits_of_cancel.
  - destruct Hw as [Hw | (p & Hw & [Ho|Ho])].
    + rewrite Hw. reflexivity.
    + injection Ho as ->. rewrite (Hgone _ p Hw eq_refl). reflexivity.
    + injection Ho as ->. rewrite cancel_comm, (Hgone _ p Hw eq_refl). reflexivity.
  - destruct Hw as [Hw | (p & Hw & [Ho|Ho])]; [rewrite Hw; reflexivity | | discriminate].
    injection Ho as ->. apply (Hgone _ p Hw eq_refl).
  - destruct Hw as [Hw | (p & Hw & [Ho|Ho])]; [rewrite Hw; reflexivity | discriminate |].
    injection Ho as ->. apply (Hgone _ p Hw eq_refl).
  - destruct Hw as [Hw | (p & Hw & [Ho|Ho])]; [exact Hw | discriminate | discriminate].
Qed.

Lemma stopAudio_range s :
  Forall (fun p => in_range s (task p)) (queue s) ->
  Forall (fun p => in_range s (task p)) (queue (stopAudio s)) /\
  story (stopAudio s) = story s /\ nextId (stopAudio s) = nextId s.
Proof.
  intros H.
  assert (Hsub : forall p, In p (queue (stopAudio s)) -> In p (queue s)).
  { unfold stopAudio. destruct (audioSourceRef s);
      cbn [transitionTimeoutRef queue]; destruct (transitionTimeoutRef s);
      cbn [queue]; intros p; rewrite ?cancel_In; tauto. }
  split.
  - apply List.Forall_forall. intros p Hp.
    rewrite List.Forall_forall in H. exact (H p (Hsub p Hp)).
  - unfold stopAudio. destruct (audioSourceRef s);
      cbn [transitionTimeoutRef]; destruct (transitionTimeoutRef s); split; reflexivity.
Qed.

Lemma stopAudio_refs s :
  audioSourceRef (stopAudio s) = None /\ transitionTimeoutRef (stopAudio s) = None /\
  currentSceneIndex (stopAudio s) = currentSceneIndex s /\
  isFinished (stopAudio s) = isFinished s /\
  story (stopAudio s) = story s /\ nextId (stopAudio s) = nextId s /\
  isMuted (stopAudio s) = isMuted s /\ musicPlayerRef (stopAudio s) = musicPlayerRef s.
Proof.
  unfold stopAudio. destruct (audioSourceRef s) eqn:Ea;
    cbn [transitionTimeoutRef]; destruct (transitionTimeoutRef s) eqn:Et;
    repeat split; cbn; assumption || reflexivity.
Qed.

Lemma in_range_story s s' t : story s' = story s -> in_range s t -> in_range s' t.
Proof. intros E. destruct t; cbn; unfold shown; rewrite ?E; auto. Qed.

Lemma range_story s s' q :
  story s' = story s ->
  Forall (fun p => in_range s (task p)) q -> Forall (fun p => in_range s' (task p)) q.
Proof.
  intros E H. eapply Forall_impl; [exact H|].
  intros p Hp. apply (in_range_story s s' _ E Hp).
Qed.

(** What [playScene] leaves. *)
Lemma playScene_view index s :
  let s' := playScene index s in
  story s' = story s /\ currentSceneIndex s' = index /\
  isPlaying s' = true /\ isFinished s' = false /\
  exists extra,
    queue s' = queue (stopAudio s) ++
               mkPending (nextId s) (clock (stopAudio s) + frameMs (stopAudio s))
                         FrameOuter :: extra /\
    (extra = [] \/
     exists p, extra = [p] /\ is_frame (task p) = false /\ in_range s (task p) /\
               (audioSourceRef s' = Some (pid p) \/
                transitionTimeoutRef s' = Some (pid p))).
Proof.
  cbv zeta. unfold playScene.
  destruct (stopAudio_refs s) as (_ & _ & _ & _ & Hst & Hid & _).
  set (s0 := stopAudio s) in *. clearbody s0.
  destruct s0 as [st idx pl fin mu stage a t m pr clk fr q nid srcs].
  cbn in Hst, Hid. subst st nid.
  cbn [schedule story frameMs snd queue clock nextId currentSceneIndex isPlaying
       isFinished isMuted layoutStage audioSourceRef transitionTimeoutRef
       musicPlayerRef isPlayingRef sources].
  destruct (scenes (story s) !! index) as [scene|].
  - destruct (audioData scene) as [buffer|]; cbn.
    + repeat split. eexists. split; [rewrite <- app_assoc; reflexivity|].
      right. eexists. split; [reflexivity|]. cbn. repeat split. left. reflexivity.
    + repeat split. eexists. split; [rewrite <- app_assoc; reflexivity|].
      right. eexists. split; [reflexivity|]. cbn. repeat split. right. reflexivity.
  - cbn. repeat split. exists []. split; [reflexivity | left; reflexivity].
Qed.

Lemma playScene_tidy index s : tidy s -> shown s index -> tidy (playScene index s).
Proof.
  intros Ht Hshown.
  pose proof (stopAudio_waits s Ht) as Hw. unfold waits in Hw.
  destruct Ht as (_ & Hr & _).
  destruct (stopAudio_range s Hr) as (Hr0 & _ & _).
  destruct (playScene_view index s) as (Hst & Hidx & _ & _ & extra & Hq & Hextra).
  cbv zeta in *.
  apply tidy_intro.
  - rewrite Hq, waits_of_app, Hw. cbn [app waits_of List.filter task is_frame negb].
    destruct Hextra as [-> | (p & -> & Hnf & _ & Ho)].
    + left. reflexivity.
    + right. exists p. cbn [List.filter]. rewrite Hnf. cbn [negb]. split; [reflexivity | exact Ho].
  - rewrite Hq. apply (range_story s _ _ Hst).
    apply Forall_app. split; [exact Hr0|].
    constructor; [exact I|].
    destruct Hextra as [-> | (p & -> & _ & Hin & _)]; repeat constructor. exact Hin.
  - rewrite Hidx. unfold shown in *. rewrite Hst. exact Hshown.
Qed.

Lemma music_call_view m s :
  queue (music_call m s) = queue s /\ story (music_call m s) = story s /\
  audioSourceRef (music_call m s) = audioSourceRef s /\
  transitionTimeoutRef (music_call m s) = transitionTimeoutRef s /\
  currentSceneIndex (music_call m s) = currentSceneIndex s /\
  isPlaying (music_call m s) = isPlaying s /\
  isFinished (music_call m s) = isFinished s.
Proof. repeat split. Qed.

Lemma tidy_same s s' :
  queue s' = queue s -> story s' = story s ->
  audioSourceRef s' = audioSourceRef s ->
  transitionTimeoutRef s' = transitionTimeoutRef s ->
  currentSceneIndex s' = currentSceneIndex s ->
  tidy s -> tidy s'.
Proof.
  intros Hq Hst Ha Ht Hi (Hw & Hr & Hs). unfold waits, owned in Hw.
  apply tidy_intro.
  - rewrite Hq, Ha, Ht. exact Hw.
  - rewrite Hq. apply (range_story s s' _ Hst Hr).
  - unfold shown in *. rewrite Hi, Hst. exact Hs.
Qed.

Lemma advanceNext_tidy idx s :
  waits s = [] -> Forall (fun p => in_range s (task p)) (queue s) ->
  shown s (currentSceneIndex s) ->
  tidy (advanceNext idx s).
Proof.
  intros Hw Hr Hs. unfold waits in Hw. unfold advanceNext.
  destruct (Z.ltb_spec (Z.of_nat idx) (Z.of_nat (length (scenes (story s))) - 1))
    as [Hlt|Hge].
  - destruct s as [st i pl fin mu stage a t m pr clk fr q nid srcs].
    cbn [set_stage schedule story currentSceneIndex isPlaying isFinished isMuted
         layoutStage audioSourceRef transitionTimeoutRef musicPlayerRef isPlayingRef
         clock frameMs queue nextId sources] in *.
    apply tidy_intro; cbn [queue audioSourceRef transitionTimeoutRef story
                           currentSceneIndex].
    + rewrite waits_of_app, Hw. right. eexists. split; [reflexivity|].
      right. reflexivity.
    + apply Forall_app. split; [exact Hr|]. repeat constructor.
      cbn [task in_range]. unfold shown. cbn [story]. lia.
    + exact Hs.
  - apply (tidy_same
             (mkState (story s) (currentSceneIndex s) false true (isMuted s)
                (layoutStage s) (audioSourceRef s) (transitionTimeoutRef s)
                (musicPlayerRef s) false (clock s) (frameMs s) (queue s)
                (nextId s) (sources s))); try reflexivity.
    apply tidy_intro; cbn [queue audioSourceRef transitionTimeoutRef story
                           currentSceneIndex]; [left; exact Hw | exact Hr | exact Hs].
Qed.

(** The state in which a due callback runs. *)
Lemma fired_tidy p s t :
  tidy s -> In p (queue s) ->
  let s1 := set_queue (cancel (pid p) (queue s)) (at_clock t s) in
  tidy s1 /\ (is_frame (task p) = false -> waits s1 = []) /\
  in_range s1 (task p).
Proof.
  intros (Hw & Hr & Hs) Hin. cbv zeta. unfold waits, owned in *.
  split; [|split].
  - apply tidy_intro; cbn [set_queue at_clock queue audioSourceRef
                           transitionTimeoutRef story currentSceneIndex].
    + rewrite waits_of_cancel.
      destruct Hw as [-> | (p' & -> & Ho)]; [left; reflexivity|].
      unfold cancel. cbn [List.filter].
      destruct (negb (pid p' =? pid p)%nat); [right; eauto | left; reflexivity].
    + apply List.Forall_forall. intros x Hx. apply cancel_In in Hx.
      rewrite List.Forall_forall in Hr. apply (Hr x), Hx.
    + exact Hs.
  - intros Hnf. cbn [set_queue at_clock queue]. rewrite waits_of_cancel.
    assert (Hp : In p (waits_of (queue s))) by (apply waits_of_In; auto).
    destruct Hw as [Hw | (p' & Hw & _)]; rewrite Hw in *; [destruct Hp|].
    destruct Hp as [<- | []]. unfold cancel. cbn [List.filter].
    rewrite Nat.eqb_refl. reflexivity.
  - rewrite List.Forall_forall in Hr. apply (Hr p Hin).
Qed.

Lemma run_task_tidy p s t :
  tidy s -> In p (queue s) ->
  tidy (run_task (task p) (set_queue (cancel (pid p) (queue s)) (at_clock t s))).
Proof.
  intros Ht Hin. destruct (fired_tidy p s t Ht Hin) as (H1 & H2 & H3).
  cbv zeta in *. set (s1 := set_queue _ _) in *. clearbody s1.
  destruct (task p) as [idx|idx|idx| |] eqn:Etask; cbn [run_task].
  - destruct H1 as (_ & Hr & Hs). apply advanceNext_tidy; auto.
  - apply playScene_tidy; [exact H1 | exact H3].
  - destruct (isPlayingRef s1); [|exact H1].
    destruct H1 as (_ & Hr & Hs). apply advanceNext_tidy; auto.
  - destruct H1 as (Hw & Hr & Hs). unfold waits, owned in Hw.
    destruct s1 as [st i pl fin mu stage a tm m pr clk fr q nid srcs].
    apply tidy_intro; cbn [schedule snd queue audioSourceRef transitionTimeoutRef
                           story currentSceneIndex] in *.
    + rewrite waits_of_app. cbn [waits_of List.filter task is_frame negb].
      rewrite app_nil_r. exact Hw.
    + apply Forall_app. split; [exact Hr|]. repeat constructor.
    + exact Hs.
  - apply (tidy_same s1); try reflexivity. exact H1.
Qed.

Lemma at_clock_tidy t s : tidy s -> tidy (at_clock t s).
Proof. apply tidy_same; reflexivity. Qed.

Lemma run_until_tidy fuel : forall t s, tidy s -> tidy (run_until fuel t s).
Proof.
  induction fuel as [|fuel IH]; intros t s Ht; cbn [run_until].
  - apply at_clock_tidy, Ht.
  - destruct (next_pending (queue s)) as [p|] eqn:Hp; [|apply at_clock_tidy, Ht].
    destruct (due p <=? t); [|apply at_clock_tidy, Ht].
    apply IH, run_task_tidy; [exact Ht | apply next_pending_In, Hp].
Qed.

Lemma handlePlayPause_tidy s : tidy s -> tidy (handlePlayPause s).
Proof.
  intros Ht. unfold handlePlayPause. destruct (isPlaying s).
  - pose proof (stopAudio_waits s Ht) as Hw. unfold waits in Hw.
    destruct Ht as (_ & Hr & Hs).
    destruct (stopAudio_range s Hr) as (Hr0 & Hst & _).
    destruct (stopAudio_refs s) as (_ & _ & Hi & _).
    apply (tidy_same
             (mkState (story (stopAudio s)) (currentSceneIndex (stopAudio s)) false
                (isFinished (stopAudio s)) (isMuted (stopAudio s))
                (layoutStage (stopAudio s)) (audioSourceRef (stopAudio s))
                (transitionTimeoutRef (stopAudio s)) (musicPlayerRef (stopAudio s))
                false (clock (stopAudio s)) (frameMs (stopAudio s))
                (queue (stopAudio s)) (nextId (stopAudio s)) (sources (stopAudio s))));
      try reflexivity.
    apply tidy_intro; cbn [queue audioSourceRef transitionTimeoutRef story
                           currentSceneIndex].
    + left. exact Hw.
    + apply (range_story s); [exact Hst | exact Hr0].
    + unfold shown in *. cbn [story currentSceneIndex]. rewrite Hst, Hi. exact Hs.
  - set (s1 := music_call _ s).
    assert (H1 : tidy s1) by (apply (tidy_same s); try reflexivity; exact Ht).
    destruct (isFinished s1).
    + apply playScene_tidy; [exact H1|]. unfold shown. lia.
    + apply playScene_tidy; [exact H1|]. apply H1.
Qed.

Lemma act_tidy a s : tidy s -> tidy (act a s).
Proof.
  intros Ht. destruct a; cbn [act].
  - apply handlePlayPause_tidy, Ht.
  - unfold handleNext.
    destruct (Z.ltb_spec (Z.of_nat (currentSceneIndex s))
                         (Z.of_nat (length (scenes (story s))) - 1)); [|exact Ht].
    apply playScene_tidy; [exact Ht|]. unfold shown. lia.
  - unfold handlePrevious. destruct (Nat.ltb_spec 0 (currentSceneIndex s)); [|exact Ht].
    apply playScene_tidy; [exact Ht|].
    destruct Ht as (_ & _ & Hs). unfold shown in *. lia.
  - apply (tidy_same s); try reflexivity. exact Ht.
  - apply run_until_tidy, Ht.
Qed.

Lemma mount_tidy st frame t0 : tidy (mount st frame t0).
Proof.
  unfold mount. cbv zeta. unfold mute_effect.
  match goal with
  | |- tidy (music_call _ (playScene 0 ?x)) =>
      apply (tidy_same (playScene 0 x)); try reflexivity;
      apply playScene_tidy; [|unfold shown; lia];
      assert (Hx : tidy (mkState st 0 false false false active None None
                           (Some (Ambient.constructor t0)) false t0 frame [] 1 []))
  end.
  { apply tidy_intro; [left; reflexivity | constructor | unfold shown; cbn; lia]. }
  destruct (backgroundMusic st) as [[| | |]|];
    try exact Hx; (eapply tidy_same; [..|exact Hx]; reflexivity).
Qed.

Lemma acts_tidy acts : forall s, tidy s -> tidy (fold_left (fun acc a => act a acc) acts s).
Proof.
  induction acts as [|a acts IH]; intros s Ht; [exact Ht|].
  cbn [fold_left]. apply IH, act_tidy, Ht.
Qed.

Lemma advanceNext_story idx s : story (advanceNext idx s) = story s.
Proof.
  unfold advanceNext.
  destruct (Z.of_nat idx <? Z.of_nat (length (scenes (story s))) - 1); reflexivity.
Qed.

Lemma run_until_story fuel : forall t s, story (run_until fuel t s) = story s.
Proof.
  induction fuel as [|fuel IH]; intros t s; cbn [run_until]; [reflexivity|].
  destruct (next_pending (queue s)) as [p|]; [|reflexivity].
  destruct (due p <=? t); [|reflexivity].
  rewrite IH. destruct (task p); cbn [run_task].
  - rewrite advanceNext_story. reflexivity.
  - rewrite (proj1 (playScene_view _ _)). reflexivity.
  - destruct (isPlayingRef _); [rewrite advanceNext_story|]; reflexivity.
  - reflexivity.
  - reflexivity.
Qed.

Lemma act_story a s : story (act a s) = story s.
Proof.
  destruct a; cbn [act].
  - unfold handlePlayPause. destruct (isPlaying s).
    + cbn. apply stopAudio_refs.
    + destruct (isFinished _); rewrite (proj1 (playScene_view _ _)); reflexivity.
  - unfold handleNext.
    destruct (_ <? _); [rewrite (proj1 (playScene_view _ _))|]; reflexivity.
  - unfold handlePrevious.
    destruct (_ <? _)%nat; [rewrite (proj1 (playScene_view _ _))|]; reflexivity.
  - reflexivity.
  - apply run_until_story.
Qed.

Lemma acts_story acts : forall s, story (fold_left (fun acc a => act a acc) acts s) = story s.
Proof.
  induction acts as [|a acts IH]; intros s; [reflexivity|].
  cbn [fold_left]. rewrite IH. apply act_story.
Qed.

Lemma mount_story st frame t0 : story (mount st frame t0) = st.
Proof.
  unfold mount. cbv zeta. unfold mute_effect.
  rewrite (proj1 (proj2 (music_call_view _ _))).
  rewrite (proj1 (playScene_view _ _)).
  destruct (backgroundMusic st) as [[| | |]|]; reflexivity.
Qed.

Lemma reachable_tidy s : reachable s -> tidy s.
Proof. intros (st & frame & t0 & acts & ->). apply acts_tidy, mount_tidy. Qed.

(** X10. Whatever is pressed and however long the event loop runs, the player
    keeps the story it was mounted with, shows a scene of it (the index is
    inside the story as soon as the story has a scene), and has at most one
    callback pending that can move the story on. *)
Theorem scene_shown_is_in_story st frame t0 acts :
  let s := fold_left (fun acc a => act a acc) acts (mount st frame t0) in
  story s = st /\
  (scenes st <> [] -> is_Some (scenes st !! currentSceneIndex s)) /\
  (currentSceneIndex s = 0%nat \/ (currentSceneIndex s < length (scenes st))%nat) /\
  (length (waits s) <= 1)%nat.
Proof.
  cbv zeta. set (s := fold_left _ acts _).
  assert (Hst : story s = st) by (unfold s; rewrite acts_story; apply mount_story).
  assert (Ht : tidy s) by (apply acts_tidy, mount_tidy).
  destruct Ht as (Hw & _ & Hs). unfold shown in Hs. rewrite Hst in Hs.
  split; [exact Hst|]. split; [|split].
  - intros Hne. apply lookup_lt_is_Some.
    destruct (scenes st); [congruence|]. cbn [length] in *. lia.
  - lia.
  - destruct Hw as [-> | (p & -> & _)]; cbn; lia.
Qed.

Lemma scene_shown_is_in_story_witness :
  let s := fold_left (fun acc a => act a acc)
                     [PressNext; Wait 10 4000; PressNext; PressPrevious; PressPrevious]
                     (mount default_second_scene 16 0) in
  is_Some (scenes default_second_scene !! currentSceneIndex s).
Proof.
  cbv zeta.
  destruct (scene_shown_is_in_story default_second_scene 16 0
              [PressNext; Wait 10 4000; PressNext; PressPrevious; PressPrevious])
    as (_ & H & _).
  apply H. discriminate.
Defined.

(** ** Pausing *)

Lemma stopAudio_sources s x :
  In x (sources (stopAudio s)) -> audioSourceRef s = Some (src_id x) ->
  src_stopped x = true.
Proof.
  unfold stopAudio. destruct (audioSourceRef s) as [src|] eqn:Ea; [|discriminate].
  cbn [transitionTimeoutRef sources].
  intros Hx Hs.
  assert (Hin : In x (map (fun x => if (src_id x =? src)%nat
                                    then mkSource (src_id x) (src_scene x) (src_output x)
                                                  (src_start x) (src_length x) true
                                    else x) (sources s))).
  { destruct (transitionTimeoutRef s); exact Hx. }
  apply in_map_iff in Hin. destruct Hin as (y & <- & Hy).
  destruct (Nat.eqb_spec (src_id y) src) as [E|E]; [reflexivity|].
  injection Hs as Hs. congruence.
Qed.

(** With no callback that moves the story on, the event loop only runs frame
    callbacks: the scene, the flags and the narration sources stay. *)
Lemma idle_run fuel : forall t s,
  waits s = [] ->
  let s' := run_until fuel t s in
  currentSceneIndex s' = currentSceneIndex s /\ isPlaying s' = isPlaying s /\
  isFinished s' = isFinished s /\ waits s' = [] /\ sources s' = sources s.
Proof.
  induction fuel as [|fuel IH]; intros t s Hw; cbv zeta; cbn [run_until].
  - repeat split. exact Hw.
  - destruct (next_pending (queue s)) as [p|] eqn:Hp; [|repeat split; exact Hw].
    destruct (due p <=? t); [|repeat split; exact Hw].
    assert (Hf : is_frame (task p) = true).
    { destruct (is_frame (task p)) eqn:E; [reflexivity|].
      assert (Hin : In p (waits_of (queue s))).
      { apply waits_of_In. split; [apply next_pending_In, Hp | exact E]. }
      unfold waits in Hw. rewrite Hw in Hin. destruct Hin. }
    set (s1 := set_queue _ _).
    assert (Hw1 : waits s1 = []).
    { unfold waits, s1. cbn [set_queue queue]. rewrite waits_of_cancel.
      unfold waits in Hw. rewrite Hw. reflexivity. }
    assert (Hw2 : waits (run_task (task p) s1) = []).
    { destruct (task p); try discriminate; cbn [run_task].
      - unfold waits in *. cbn [schedule snd queue]. rewrite waits_of_app, Hw1.
        reflexivity.
      - exact Hw1. }
    destruct (IH t (run_task (task p) s1) Hw2) as (H1 & H2 & H3 & H4 & H5).
    cbv zeta in *. rewrite H1, H2, H3, H5.
    split; [|split; [|split; [|split; [exact H4|]]]];
      destruct (task p); try discriminate; reflexivity.
Qed.

(** X11. Pausing a player that plays: the callback that would have moved the
    story on is cancelled and the narration source stopped, so however long
    the pause lasts the same scene is shown, the player is neither playing
    nor finished by the pause, and nothing is pending that could move on. *)
Theorem pause_holds_the_scene s fuel t :
  reachable s -> isPlaying s = true ->
  let s' := run_until fuel t (handlePlayPause s) in
  currentSceneIndex s' = currentSceneIndex s /\ isPlaying s' = false /\
  isFinished s' = isFinished s /\ waits s' = [] /\
  (forall x, In x (sources s') -> audioSourceRef s = Some (src_id x) ->
             src_stopped x = true).
Proof.
  intros Hr Hpl. cbv zeta.
  pose proof (reachable_tidy s Hr) as Ht.
  pose proof (stopAudio_waits s Ht) as Hw.
  destruct (stopAudio_refs s) as (_ & _ & Hi & Hfin & _).
  unfold handlePlayPause. rewrite Hpl.
  set (s1 := music_call _ _).
  assert (Hw1 : waits s1 = []) by exact Hw.
  destruct (idle_run fuel t s1 Hw1) as (H1 & H2 & H3 & H4 & H5).
  cbv zeta in *. rewrite H1, H2, H3, H5.
  split; [exact Hi|]. split; [reflexivity|]. split; [exact Hfin|].
  split; [exact H4|].
  intros x Hx. apply stopAudio_sources. exact Hx.
Qed.

Lemma pause_holds_the_scene_witness :
  let s := fold_left (fun acc a => act a acc) [Wait 5 500]
                     (mount default_second_scene 16 0) in
  isPlaying s = true /\
  currentSceneIndex (run_until 20 60000 (handlePlayPause s)) = 0%nat /\
  isPlaying (run_until 20 60000 (handlePlayPause s)) = false.
Proof.
  cbv zeta.
  assert (Hr : reachable (fold_left (fun acc a => act a acc) [Wait 5 500]
                                    (mount default_second_scene 16 0))).
  { exists default_second_scene, 16, 0, [Wait 5 500]. reflexivity. }
  assert (Hp : isPlaying (fold_left (fun acc a => act a acc) [Wait 5 500]
                                    (mount default_second_scene 16 0)) = true).
  { vm_compute. reflexivity. }
  destruct (pause_holds_the_scene _ 20 60000 Hr Hp) as (H1 & H2 & _).
  split; [exact Hp|]. split; [|exact H2].
  rewrite H1. vm_compute. reflexivity.
Defined.

End PlayerRunFacts.

(* ===================================================================== *)
(** * Properties of the reordering of scenes                              *)
(* ===================================================================== *)

Module ReorderFacts.

Import Story Reorder.

(** Exchanging two neighbours of a list. *)
Lemma swap_adjacent (l : list Scene) : forall k u v,
  l !! k = Some u -> l !! S k = Some v ->
  exists pre post,
    l = pre ++ u :: v :: post /\ length pre = k /\
    <[k := v]> (<[S k := u]> l) = pre ++ v :: u :: post /\
    <[S k := u]> (<[k := v]> l) = pre ++ v :: u :: post.
Proof.
  intros k. revert l. induction k as [|k IH]; intros l u v Hu Hv.
  - destruct l as [|a [|b post]]; try discriminate.
    cbn in Hu, Hv. injection Hu as ->. injection Hv as ->.
    exists [], post. repeat split.
  - destruct l as [|a l]; [discriminate|]. cbn in Hu, Hv.
    destruct (IH l u v Hu Hv) as (pre & post & -> & Hlen & H1 & H2).
    exists (a :: pre), post. cbn [app length]. repeat split; [lia | |].
    + cbn. f_equal. exact H1.
    + cbn. f_equal. exact H2.
Qed.

Lemma lookup_swapped (pre post : list Scene) u v j :
  (pre ++ v :: u :: post) !! j =
  if decide (j = length pre) then Some v
  else if decide (j = S (length pre)) then Some u
  else (pre ++ u :: v :: post) !! j.
Proof.
  destruct (decide (j = length pre)) as [->|H1].
  - apply list_lookup_middle. reflexivity.
  - destruct (decide (j = S (length pre))) as [->|H2].
    + change (pre ++ v :: u :: post) with (pre ++ [v] ++ u :: post).
      rewrite app_assoc. apply list_lookup_middle. rewrite length_app. cbn. lia.
    + destruct (Nat.lt_ge_cases j (length pre)) as [Hlt|Hge].
      * rewrite !lookup_app_l by exact Hlt. reflexivity.
      * rewrite !lookup_app_r by exact Hge.
        destruct (j - length pre)%nat as [|[|m]] eqn:E; [lia | lia | reflexivity].
Qed.

(** The exchange made by [moveScene]. *)
Lemma moveScene_exchange index direction story :
  (index < length (scenes story))%nat ->
  let target :=
    match direction with
    | up => (index - 1)%nat
    | down => if (index + 1 <? length (scenes story))%nat
              then (index + 1)%nat else index
    end in
  exists st',
    moveScene index direction story = Some st' /\
    title st' = title story /\ backgroundMusic st' = backgroundMusic story /\
    scenes st' ≡ₚ scenes story /\
    length (scenes st') = length (scenes story) /\
    scenes st' !! target = scenes story !! index /\
    scenes st' !! index = scenes story !! target /\
    (forall j, j <> index -> j <> target -> scenes st' !! j = scenes story !! j) /\
    (target = index -> scenes st' = scenes story).
Proof.
  intros Hlt. cbv zeta.
  destruct (lookup_lt_is_Some_2 _ _ Hlt) as [x Hx].
  unfold moveScene. destruct direction.
  - destruct index as [|k].
    + cbn [Nat.ltb Nat.leb]. eexists. split; [reflexivity|]. cbn.
      repeat split; auto.
    + replace (0 <? S k)%nat with true by reflexivity.
      replace (S k - 1)%nat with k by lia.
      assert (Hk : (k < length (scenes story))%nat) by lia.
      destruct (lookup_lt_is_Some_2 _ _ Hk) as [y Hy].
      unfold swap. rewrite Hx, Hy. cbn [fmap option_fmap option_map].
      eexists. split; [reflexivity|]. cbn [with_scenes title backgroundMusic scenes].
      destruct (swap_adjacent _ k y x Hy Hx) as (pre & post & Hl & Hlen & _ & H2).
      rewrite H2. clear H2.
      split; [reflexivity|]. split; [reflexivity|].
      split; [rewrite Hl; apply Permutation_app_head, perm_swap|].
      split; [rewrite Hl, !length_app; reflexivity|].
      rewrite !(lookup_swapped pre post y x). rewrite Hlen.
      rewrite decide_True by reflexivity.
      rewrite (decide_False (P := S k = k)) by lia.
      rewrite decide_True by reflexivity.
      split; [reflexivity|]. split; [reflexivity|]. split.
      * intros j H1 H2. rewrite lookup_swapped, Hlen.
        rewrite decide_False by exact H2. rewrite decide_False by exact H1.
        rewrite Hl. reflexivity.
      * lia.
  - destruct (Z.ltb_spec (Z.of_nat index) (Z.of_nat (length (scenes story)) - 1))
      as [Hin|Hlast].
    + replace (index + 1 <? length (scenes story))%nat with true
        by (symmetry; apply Nat.ltb_lt; lia).
      replace (index + 1)%nat with (S index) by lia.
      assert (Hk : (S index < length (scenes story))%nat) by lia.
      destruct (lookup_lt_is_Some_2 _ _ Hk) as [y Hy].
      unfold swap. rewrite Hx, Hy. cbn [fmap option_fmap option_map].
      eexists. split; [reflexivity|]. cbn [with_scenes title backgroundMusic scenes].
      destruct (swap_adjacent _ index x y Hx Hy) as (pre & post & Hl & Hlen & H1 & _).
      rewrite H1. clear H1.
      split; [reflexivity|]. split; [reflexivity|].
      split; [rewrite Hl; apply Permutation_app_head, perm_swap|].
      split; [rewrite Hl, !length_app; reflexivity|].
      rewrite !(lookup_swapped pre post x y). rewrite Hlen.
      rewrite (decide_False (P := S index = index)) by lia.
      rewrite !decide_True by reflexivity.
      split; [reflexivity|]. split; [reflexivity|]. split.
      * intros j H1 H2. rewrite lookup_swapped, Hlen.
        rewrite decide_False by exact H1. rewrite decide_False by exact H2.
        rewrite Hl. reflexivity.
      * lia.
    + replace (index + 1 <? length (scenes story))%nat with false
        by (symmetry; apply Nat.ltb_ge; lia).
      eexists. split; [reflexivity|]. cbn. repeat split; auto.
Qed.

(** X14. [moveScene] on a row of the editor.  The story keeps its title, its music
    and its scenes, in an order that differs at most by the exchange of the
    row with its neighbour above ([up]) or below ([down]); on the first row
    [up] and on the last row [down] change nothing. *)
Theorem moveScene_swaps_neighbours index direction story :
  (index < length (scenes story))%nat ->
  let target :=
    match direction with
    | up => (index - 1)%nat
    | down => if (index + 1 <? length (scenes story))%nat
              then (index + 1)%nat else index
    end in
  exists st',
    moveScene index direction story = Some st' /\
    title st' = title story /\ backgroundMusic st' = backgroundMusic story /\
    scenes st' ≡ₚ scenes story /\
    length (scenes st') = length (scenes story) /\
    scenes st' !! target = scenes story !! index /\
    scenes st' !! index = scenes story !! target /\
    (forall j, j <> index -> j <> target -> scenes st' !! j = scenes story !! j) /\
    (target = index -> scenes st' = scenes story).
Proof.
  intros Hlt. cbv zeta.
  destruct (moveScene_exchange index direction story Hlt)
    as (st' & Hmove & Htitle & Hmusic & Hperm & Hlen & Hto & Hfrom & Hrest & Hsame).
  exists st'. split; [exact Hmove|]. split; [exact Htitle|]. split; [exact Hmusic|].
  split; [exact Hperm|]. split; [exact Hlen|]. split; [exact Hto|].
  split; [exact Hfrom|]. split; [exact Hrest | exact Hsame].
Qed.

Lemma moveScene_swaps_neighbours_witness :
  let sc n := mkScene n "" "" None None None None in
  let story := mkStory "t" [sc 1; sc 2; sc 3] None in
  exists st', moveScene 2 up story = Some st' /\
              scenes st' !! 1%nat = Some (sc 3) /\ scenes st' !! 2%nat = Some (sc 2).
Proof.
  cbv zeta.
  destruct (moveScene_swaps_neighbours 2 up
              (mkStory "t" [mkScene 1 "" "" None None None None;
                            mkScene 2 "" "" None None None None;
                            mkScene 3 "" "" None None None None] None))
    as (st' & H & _ & _ & _ & _ & H1 & H2 & _).
  - cbn. lia.
  - exists st'. split; [exact H|]. split; [exact H1 | exact H2].
Defined.

(** X15. Moving a row up and then the row above it down gives the scenes back. *)
Theorem moveScene_up_then_down index story :
  (0 < index < length (scenes story))%nat ->
  exists st1 st2,
    moveScene index up story = Some st1 /\
    moveScene (index - 1) down st1 = Some st2 /\
    scenes st2 = scenes story /\ title st2 = title story /\
    backgroundMusic st2 = backgroundMusic story.
Proof.
  intros [Hpos Hlt].
  destruct (moveScene_exchange index up story Hlt)
    as (st1 & H1 & Ht1 & Hm1 & _ & Hl1 & Ha1 & Hb1 & Hc1 & _).
  cbv zeta in *.
  assert (Hk : (index - 1 < length (scenes st1))%nat) by lia.
  destruct (moveScene_exchange (index - 1) down st1 Hk)
    as (st2 & H2 & Ht2 & Hm2 & _ & Hl2 & Ha2 & Hb2 & Hc2 & _).
  cbv zeta in *.
  replace (index - 1 + 1 <? length (scenes st1))%nat with true in *
    by (symmetry; apply Nat.ltb_lt; lia).
  replace (index - 1 + 1)%nat with index in * by lia.
  exists st1, st2. split; [exact H1|]. split; [exact H2|].
  split; [|split; congruence].
  apply list_eq. intros j.
  destruct (decide (j = index)) as [->|Hj1].
  - rewrite Ha2, Ha1. reflexivity.
  - destruct (decide (j = (index - 1)%nat)) as [->|Hj2].
    + rewrite Hb2, Hb1. reflexivity.
    + rewrite Hc2 by assumption. apply Hc1; assumption.
Qed.

Lemma moveScene_up_then_down_witness :
  let sc n := mkScene n "" "" None None None None in
  let story := mkStory "t" [sc 1; sc 2; sc 3] None in
  exists st1 st2, moveScene 1 up story = Some st1 /\
                  moveScene 0 down st1 = Some st2 /\ scenes st2 = scenes story.
Proof.
  cbv zeta.
  destruct (moveScene_up_then_down 1
              (mkStory "t" [mkScene 1 "" "" None None None None;
                            mkScene 2 "" "" None None None None;
                            mkScene 3 "" "" None None None None] None))
    as (st1 & st2 & H1 & H2 & H3 & _).
  - cbn. lia.
  - exists st1, st2. auto.
Defined.

(** X16. Dropping a dragged row on another one.  The dragged scene is taken out
    and put back at the row it is dropped on (at the end when that row is
    past it); the other scenes keep their order; the story keeps its title
    and music, and the drag is over.  Without a dragged row, or on the row
    itself, the story is left as it is. *)
Theorem handleDrop_moves_scene d dropIndex over story moved :
  scenes story !! d = Some moved -> d <> dropIndex ->
  let pos := Nat.min dropIndex (length (scenes story) - 1) in
  (exists st',
     handleDrop dropIndex (mkDrag (Some d) over) story = (Some st', mkDrag None None) /\
     title st' = title story /\ backgroundMusic st' = backgroundMusic story /\
     scenes st' ≡ₚ scenes story /\
     length (scenes st') = length (scenes story) /\
     scenes st' !! pos = Some moved /\
     delete pos (scenes st') = delete d (scenes story)) /\
  handleDrop dropIndex (mkDrag None over) story = (Some story, mkDrag None None) /\
  handleDrop dropIndex (mkDrag (Some dropIndex) over) story =
    (Some story, mkDrag None None).
Proof.
  intros Hd Hne. cbv zeta. split; [|split].
  - unfold handleDrop. cbn [draggedIndex].
    rewrite (proj2 (Nat.eqb_neq d dropIndex) Hne), Hd.
    eexists. split; [reflexivity|]. cbn [with_scenes title backgroundMusic scenes].
    set (r := delete d (scenes story)).
    assert (Hlen : length r = (length (scenes story) - 1)%nat).
    { subst r. rewrite length_delete by eauto. reflexivity. }
    assert (Hpos : length (take dropIndex r) =
                   Nat.min dropIndex (length (scenes story) - 1)).
    { rewrite length_take, Hlen. reflexivity. }
    unfold splice_in. split; [reflexivity|]. split; [reflexivity|]. split.
    + rewrite <- Permutation_middle, take_drop.
      subst r. symmetry. apply delete_Permutation, Hd.
    + split.
      * rewrite length_app. cbn [length]. rewrite length_take, length_drop, Hlen.
        apply lookup_lt_Some in Hd. lia.
      * split.
        -- rewrite <- Hpos. apply list_lookup_middle. reflexivity.
        -- rewrite <- Hpos, delete_middle, take_drop. reflexivity.
  - reflexivity.
  - unfold handleDrop. cbn [draggedIndex]. rewrite Nat.eqb_refl. reflexivity.
Qed.

Lemma handleDrop_moves_scene_witness :
  let sc n := mkScene n "" "" None None None None in
  let story := mkStory "t" [sc 1; sc 2; sc 3] None in
  exists st', fst (handleDrop 2 (mkDrag (Some 0%nat) None) story) = Some st' /\
              scenes st' !! 2%nat = Some (sc 1).
Proof.
  cbv zeta.
  destruct (handleDrop_moves_scene 0 2 None
              (mkStory "t" [mkScene 1 "" "" None None None None;
                            mkScene 2 "" "" None None None None;
                            mkScene 3 "" "" None None None None] None)
              (mkScene 1 "" "" None None None None) eq_refl ltac:(lia))
    as ((st' & H & _ & _ & _ & _ & Hp & _) & _).
  exists st'. rewrite H. split; [reflexivity | exact Hp].
Defined.

End ReorderFacts.

(* ===================================================================== *)
(** * Properties of the audio context manager                             *)
(* ===================================================================== *)

Module AudioContextFacts.

Import AudioContextManager.

Lemma calls_with_context n : forall g ctx,
  audioContext g = Some ctx ->
  calls n g = (repeat ctx n, g).
Proof.
  induction n as [|n IH]; intros g ctx Hg; [reflexivity|].
  cbn [calls]. unfold getAudioContext. rewrite Hg.
  rewrite (IH g ctx Hg). reflexivity.
Qed.

(** X4. [getAudioContext()] called any number of times: every call returns the
    same context; the platform is asked for a context once if none existed
    and never if one did, always at 24000 Hz; the variable holds that context
    afterwards. *)
Theorem getAudioContext_is_a_singleton (n : nat) (g : Global) :
  let ctx := from_option (fun c => c) (length (constructed g)) (audioContext g) in
  fst (calls (S n) g) = repeat ctx (S n) /\
  audioContext (snd (calls (S n) g)) = Some ctx /\
  constructed (snd (calls (S n) g)) =
    match audioContext g with
    | Some _ => constructed g
    | None => constructed g ++ [24000]
    end.
Proof.
  cbv zeta. cbn [calls]. unfold getAudioContext.
  destruct (audioContext g) as [ctx|] eqn:Hg; cbn [from_option].
  - rewrite (calls_with_context n g ctx Hg). cbn [fst snd repeat]. auto.
  - rewrite (calls_with_context n
               (mkGlobal (Some (length (constructed g))) (constructed g ++ [24000]))
               (length (constructed g)) eq_refl).
    cbn [fst snd repeat audioContext constructed]. auto.
Qed.

End AudioContextFacts.

(* ===================================================================== *)
(** * Properties of the player's visual mapping                           *)
(* ===================================================================== *)

Module PlayerViewFacts.

Import Story Player PlayerView.

(** X12. The geometry of the transitions.  In the active stage every type gives
    the identity transform at full opacity.  A scene without a transition,
    with [fade] or with [none] looks the same in every stage.  Leaving with a
    type is entering with the opposite one (left and right, in and out
    exchanged).  Entering and leaving are always at zero opacity. *)
Theorem transition_geometry :
  (forall type, getTransitionClasses active type =
                "translate-x-0 scale-100 opacity-100"%string) /\
  (forall stage,
     getTransitionClasses stage None = getTransitionClasses stage (Some fade) /\
     getTransitionClasses stage (Some no_transition) =
       getTransitionClasses stage (Some fade)) /\
  (forall t, getTransitionClasses exit (Some t) =
             getTransitionClasses enter (Some (opposite t))) /\
  (forall stage type, stage <> active ->
     exists prefix, getTransitionClasses stage type =
                    (prefix ++ "opacity-0")%string).
Proof.
  split; [|split; [|split]].
  - intros [t|]; reflexivity.
  - intros []; split; reflexivity.
  - intros []; reflexivity.
  - intros stage type Hs. destruct stage; [| congruence |];
      destruct type as [[]|]; cbn;
      first [ exists ""%string; reflexivity
            | exists "translate-x-full "%string; reflexivity
            | exists "-translate-x-full "%string; reflexivity
            | exists "scale-50 "%string; reflexivity
            | exists "scale-150 "%string; reflexivity ].
Qed.

Lemma transition_geometry_witness :
  exists prefix, getTransitionClasses exit (Some zoom_in) =
                 (prefix ++ "opacity-0")%string.
Proof.
  destruct transition_geometry as (_ & _ & _ & H).
  apply H. discriminate.
Defined.

(** X13. The camera effect of a scene: there is one for every index, it comes back
    every four scenes, and two scenes in a row never share it. *)
Theorem camera_effects_rotate (n : nat) :
  is_Some (currentEffect n) /\
  currentEffect (n + 4) = currentEffect n /\
  currentEffect (n + 1) <> currentEffect n.
Proof.
  unfold currentEffect. change (length animationEffects) with 4%nat.
  assert (Hlt : (n mod 4 < 4)%nat) by (apply Nat.mod_upper_bound; lia).
  assert (H4 : ((n + 4) mod 4 = n mod 4)%nat).
  { replace (n + 4)%nat with (n + 1 * 4)%nat by lia. apply Nat.Div0.mod_add. }
  assert (H1 : ((n + 1) mod 4 = (n mod 4 + 1) mod 4)%nat).
  { rewrite <- Nat.Div0.add_mod_idemp_l. reflexivity. }
  rewrite H4, H1.
  destruct (n mod 4)%nat as [|[|[|[|k]]]]; [| | | | lia];
    (split; [eexists; reflexivity|]); (split; [reflexivity|]); cbn; discriminate.
Qed.

End PlayerViewFacts.
